(** * Token-weighted governance: DAOVoting over a checkpointed voting token

    A shallow embedding of the two Solidity contracts of the repository,
    [TestToken] and [DAOVoting], and of the checkpoint ledger that
    [TestToken] inherits, followed by the properties of the proposal state
    machine and of the snapshot mechanism.

    Conventions.  A [uint256] is an [N] together with the bound
    [MAX_UINT256]; Solidity 0.8 arithmetic is checked, so an overflowing
    [+], [*] or [++] reverts instead of wrapping.  A [mapping] is a [gmap]
    read with the zero value as default.  A contract function is a
    computation in the monad [M]: it reads and writes the contract's storage
    and either returns or reverts; a reverted call leaves no trace in
    storage.  [block.number] and [msg.sender] are explicit arguments. *)

From Stdlib Require Import NArith Lia.
From stdpp Require Import gmap strings list.
From Equations Require Import Equations.

Open Scope N_scope.

(** ** Machine integers and addresses *)

Abbreviation address := N (only parsing).
Abbreviation uint256 := N (only parsing).

Definition MAX_UINT256 : N := 2 ^ 256 - 1.
Definition MAX_UINT208 : N := 2 ^ 208 - 1.
Definition MAX_UINT16 : N := 2 ^ 16 - 1.
Arguments MAX_UINT256 : simpl never.
Arguments MAX_UINT208 : simpl never.
Arguments MAX_UINT16 : simpl never.

(** [address(0)] *)
Definition address0 : address := 0.

(** ** Failures

    The constructors carry the spec's names of the failure kinds; [reason]
    gives the revert string of the [require] in [DAOVoting] that raises each
    of them. *)

Inductive Error : Type :=
  | ZeroTokenAddress
  | InvalidQuorum
  | ZeroVotingPeriod
  | ProposalNotFound
  | ProposalCanceled
  | AlreadyExecuted
  | AlreadyCanceled
  | VotingNotStarted
  | VotingClosed
  | VotingNotEnded
  | AlreadyVoted
  | NoVotingPower
  | ProposalNotSuccessful
  | Unauthorized
  | InvalidOwner
  | InvalidRecipient
  | InvalidSender
  | InsufficientBalance
  | FutureSequenceQuery
  | ArithmeticPanic.

Definition reason (e : Error) : string :=
  match e with
  | ZeroTokenAddress => "token zero"
  | InvalidQuorum => "invalid quorum"
  | ZeroVotingPeriod => "voting period zero"
  | ProposalNotFound => "proposal not found"
  | ProposalCanceled => "proposal canceled"
  | AlreadyExecuted => "already executed"
  | AlreadyCanceled => "already canceled"
  | VotingNotStarted => "voting not started"
  | VotingClosed => "voting ended"
  | VotingNotEnded => "voting not ended"
  | AlreadyVoted => "already voted"
  | NoVotingPower => "no voting power at snapshot"
  | ProposalNotSuccessful => "proposal not successful"
  | Unauthorized => "OwnableUnauthorizedAccount"
  | InvalidOwner => "OwnableInvalidOwner"
  | InvalidRecipient => "ERC20InvalidReceiver"
  | InvalidSender => "ERC20InvalidSender"
  | InsufficientBalance => "ERC20InsufficientBalance"
  | FutureSequenceQuery => "ERC5805FutureLookup"
  | ArithmeticPanic => "Panic(0x11)"
  end.

Inductive result (A : Type) : Type :=
  | Ok (a : A)
  | Revert (e : Error).
Arguments Ok {A} a.
Arguments Revert {A} e.

(** ** The contract monad: storage passing with revert *)

Definition M (S A : Type) : Type := S -> result (A * S).

Definition ret {S A} (a : A) : M S A := fun s => Ok (a, s).

Definition bind {S A B} (m : M S A) (k : A -> M S B) : M S B :=
  fun s => match m s with
           | Ok (a, s') => k a s'
           | Revert e => Revert e
           end.

Definition revert {S A} (e : Error) : M S A := fun _ => Revert e.

Definition get {S} : M S S := fun s => Ok (s, s).

Definition gets {S A} (f : S -> A) : M S A := fun s => Ok (f s, s).

Definition modify {S} (f : S -> S) : M S unit := fun s => Ok (tt, f s).

(** [require(c, e)] *)
Definition require {S} (c : Prop) `{Decision c} (e : Error) : M S unit :=
  if decide c then ret tt else revert e.

(** A view call into another contract: it may revert, it cannot write. *)
Definition static {S A} (r : result A) : M S A :=
  fun s => match r with
           | Ok a => Ok (a, s)
           | Revert e => Revert e
           end.

Declare Scope contract_scope.
Delimit Scope contract_scope with contract.
Notation "x <- m ;; k" := (bind m (fun x => k))
  (at level 100, m at next level, right associativity) : contract_scope.
Notation "m ;; k" := (bind m (fun _ => k))
  (at level 100, right associativity) : contract_scope.

(** Checked [uint256] arithmetic. *)
Definition checked_add (a b : N) : result N :=
  if decide (a + b <= MAX_UINT256) then Ok (a + b) else Revert ArithmeticPanic.

Definition checked_mul (a b : N) : result N :=
  if decide (a * b <= MAX_UINT256) then Ok (a * b) else Revert ArithmeticPanic.

(** Reading a Solidity [mapping]: an absent key holds the zero value. *)
Definition mget {K V} `{Countable K} (zero : V) (m : gmap K V) (k : K) : V :=
  default zero (m !! k).

(** ** Checkpoint series

    Modelled from the spec: the checkpoint store of the ERC20Votes base
    contract, which [TestToken] inherits from a dependency that is not part
    of the repository's sources.  A series is an ordered sequence of
    (sequence number, value) pairs.  Writing at the current sequence number
    overwrites the last pair in place when it already carries that number
    and appends otherwise; reading at a sequence number binary-searches for
    the latest pair at or before it and yields zero when there is none. *)

Module Checkpoints.

Record Checkpoint : Type := mkCheckpoint { _key : N; _value : N }.

(** The value most recently written, zero for an empty series. *)
Definition latest (self : list Checkpoint) : N :=
  match last self with
  | Some c => _value c
  | None => 0
  end.

Definition push (key value : N) (self : list Checkpoint) : list Checkpoint :=
  match last self with
  | Some c =>
      if decide (_key c = key)
      then <[Nat.pred (length self) := mkCheckpoint key value]> self
      else self ++ [mkCheckpoint key value]
  | None => [mkCheckpoint key value]
  end.

(** The first position in [low, high) whose key is strictly greater than
    [key], or [high] when there is none: the loop
    [while (low < high) { mid = (low + high) / 2; ... }]. *)
Equations? upperBinaryLookup (self : list Checkpoint) (key : N) (low high : nat)
  : nat by wf (high - low)%nat lt :=
  upperBinaryLookup self key low high with decide (low < high)%nat => {
    | left _ with self !! ((low + high) / 2)%nat => {
        | Some c with decide (key < _key c) => {
            | left _ => upperBinaryLookup self key low ((low + high) / 2)%nat
            | right _ => upperBinaryLookup self key (S ((low + high) / 2)) high }
        | None => high }
    | right _ => high }.
Proof.
  all: change (Nat.divmod (low + high) 1 0 1).1 with ((low + high) / 2)%nat;
       pose proof (Nat.div_mod_eq (low + high) 2);
       pose proof (Nat.mod_upper_bound (low + high) 2); lia.
Qed.

(** The value recorded at the latest pair with key at most [key]. *)
Definition upperLookup (self : list Checkpoint) (key : N) : N :=
  match upperBinaryLookup self key 0 (length self) with
  | O => 0
  | S pos => match self !! pos with
             | Some c => _value c
             | None => 0
             end
  end.

End Checkpoints.

(** ** Ownable: the single controlling authority *)

Module Ownable.

(** [modifier onlyOwner] *)
Definition onlyOwner {S} (owner : S -> address) (sender : address) : M S unit :=
  (o <- gets owner ;;
   require (o = sender) Unauthorized)%contract.

End Ownable.

(** ** TestToken: balances, delegation and historical voting weight *)

Module TestToken.
Import Checkpoints.

Record State : Type := mkState {
  name : string;
  symbol : string;
  _owner : address;
  _totalSupply : uint256;
  _balances : gmap address uint256;
  _delegatee : gmap address address;
  _delegateCheckpoints : gmap address (list Checkpoint);
  _totalCheckpoints : list Checkpoint }.

Definition set_owner (a : address) (s : State) : State :=
  mkState (name s) (symbol s) a (_totalSupply s) (_balances s) (_delegatee s)
          (_delegateCheckpoints s) (_totalCheckpoints s).
Definition set_totalSupply (v : uint256) (s : State) : State :=
  mkState (name s) (symbol s) (_owner s) v (_balances s) (_delegatee s)
          (_delegateCheckpoints s) (_totalCheckpoints s).
Definition set_balance (a : address) (v : uint256) (s : State) : State :=
  mkState (name s) (symbol s) (_owner s) (_totalSupply s) (<[a := v]> (_balances s))
          (_delegatee s) (_delegateCheckpoints s) (_totalCheckpoints s).
Definition set_delegatee (a d : address) (s : State) : State :=
  mkState (name s) (symbol s) (_owner s) (_totalSupply s) (_balances s)
          (<[a := d]> (_delegatee s)) (_delegateCheckpoints s) (_totalCheckpoints s).
Definition set_delegateCheckpoints (a : address) (c : list Checkpoint) (s : State) : State :=
  mkState (name s) (symbol s) (_owner s) (_totalSupply s) (_balances s) (_delegatee s)
          (<[a := c]> (_delegateCheckpoints s)) (_totalCheckpoints s).
Definition set_totalCheckpoints (c : list Checkpoint) (s : State) : State :=
  mkState (name s) (symbol s) (_owner s) (_totalSupply s) (_balances s) (_delegatee s)
          (_delegateCheckpoints s) c.

(** *** Views *)

Definition balanceOf (s : State) (account : address) : uint256 :=
  mget 0 (_balances s) account.

(** The current delegate of [account]; [address0] stands for "none". *)
Definition delegates (s : State) (account : address) : address :=
  mget address0 (_delegatee s) account.

Definition checkpointsOf (s : State) (account : address) : list Checkpoint :=
  mget [] (_delegateCheckpoints s) account.

Definition getVotes (s : State) (account : address) : uint256 :=
  latest (checkpointsOf s account).

(** Modelled from the spec: the historical weight query of the inherited
    ledger.  It fails with [FutureSequenceQuery] unless the queried sequence
    number is strictly below the current one. *)
Definition getPastVotes (now : N) (s : State) (account : address) (timepoint : uint256)
  : result uint256 :=
  if decide (now <= timepoint) then Revert FutureSequenceQuery
  else Ok (upperLookup (checkpointsOf s account) timepoint).

(** Modelled from the spec: the same search against the total-supply
    series. *)
Definition getPastTotalSupply (now : N) (s : State) (timepoint : uint256) : result uint256 :=
  if decide (now <= timepoint) then Revert FutureSequenceQuery
  else Ok (upperLookup (_totalCheckpoints s) timepoint).

(** *** The inherited ledger

    Modelled from the spec: the balance hook of the ERC20 and ERC20Votes
    base contracts, to which [TestToken._update] delegates by [super].
    The spec leaves integer widths open; balances are [uint256] as
    everywhere in the repository's contracts, and voting weights are kept in
    208 bits with checked arithmetic, the width at which the inherited
    ledger stores checkpoint values. *)

Definition add208 (a b : N) : result N :=
  if decide (a + b <= MAX_UINT208) then Ok (a + b) else Revert ArithmeticPanic.

Definition sub208 (a b : N) : result N :=
  if decide (b <= a) then Ok (a - b) else Revert ArithmeticPanic.

(** Write [op(latest, delta)] to the series of delegate [d] at the current
    sequence number. *)
Definition pushDelegate (now : N) (d : address) (op : N -> N -> result N) (delta : N)
  : M State unit :=
  (old <- gets (fun s => checkpointsOf s d) ;;
   v <- static (op (latest old) delta) ;;
   modify (set_delegateCheckpoints d (push now v old)))%contract.

Definition pushTotal (now : N) (op : N -> N -> result N) (delta : N) : M State unit :=
  (old <- gets _totalCheckpoints ;;
   v <- static (op (latest old) delta) ;;
   modify (set_totalCheckpoints (push now v old)))%contract.

(** Move [amount] units of weight from delegate [from] to delegate [to];
    nothing is written when the weight of neither changes. *)
Definition _moveDelegateVotes (now : N) (from to : address) (amount : uint256)
  : M State unit :=
  if decide (from ≠ to ∧ 0 < amount) then
    ((if decide (from ≠ address0) then pushDelegate now from sub208 amount else ret tt) ;;
     (if decide (to ≠ address0) then pushDelegate now to add208 amount else ret tt))%contract
  else ret tt.

Definition _transferVotingUnits (now : N) (from to : address) (amount : uint256)
  : M State unit :=
  ((if decide (from = address0) then pushTotal now add208 amount else ret tt) ;;
   (if decide (to = address0) then pushTotal now sub208 amount else ret tt) ;;
   s <- get ;;
   _moveDelegateVotes now (delegates s from) (delegates s to) amount)%contract.

(** The balance movement proper: mint when [from] is null, burn when [to]
    is null, transfer otherwise. *)
Definition ledger_update (from to : address) (value : uint256) : M State unit :=
  ((if decide (from = address0) then
      s <- get ;;
      total <- static (checked_add (_totalSupply s) value) ;;
      modify (set_totalSupply total)
    else
      s <- get ;;
      require (value <= balanceOf s from) InsufficientBalance ;;
      modify (set_balance from (balanceOf s from - value))) ;;
   (if decide (to = address0) then
      modify (fun s => set_totalSupply (_totalSupply s - value) s)
    else
      modify (fun s => set_balance to (balanceOf s to + value) s)))%contract.

(** [TestToken._update]: the override that merges the two bases. *)
Definition _update (now : N) (from to : address) (value : uint256) : M State unit :=
  (ledger_update from to value ;;
   _transferVotingUnits now from to value)%contract.

Definition _mint (now : N) (account : address) (value : uint256) : M State unit :=
  (require (account ≠ address0) InvalidRecipient ;;
   _update now address0 account value)%contract.

Definition _burn (now : N) (account : address) (value : uint256) : M State unit :=
  (require (account ≠ address0) InvalidSender ;;
   _update now account address0 value)%contract.

(** *** External functions *)

Definition constructor (now : N) (sender : address) (name_ symbol_ : string)
    (initialSupply : uint256) : result State :=
  let s0 := mkState name_ symbol_ sender 0 ∅ ∅ ∅ [] in
  if decide (0 < initialSupply) then
    match _mint now sender initialSupply s0 with
    | Ok (_, s) => Ok s
    | Revert e => Revert e
    end
  else Ok s0.

Definition transfer (now : N) (sender to : address) (value : uint256) : M State unit :=
  (require (sender ≠ address0) InvalidSender ;;
   require (to ≠ address0) InvalidRecipient ;;
   _update now sender to value)%contract.

(** [mint(address to, uint256 amount) external onlyOwner] *)
Definition mint (now : N) (sender to : address) (amount : uint256) : M State unit :=
  (Ownable.onlyOwner _owner sender ;;
   _mint now to amount)%contract.

(** [burn(address from, uint256 amount) external onlyOwner] *)
Definition burn (now : N) (sender from : address) (amount : uint256) : M State unit :=
  (Ownable.onlyOwner _owner sender ;;
   _burn now from amount)%contract.

(** [burn(uint256 amount) external]: a holder burns its own tokens. *)
Definition burn_self (now : N) (sender : address) (amount : uint256) : M State unit :=
  _burn now sender amount.

(** Modelled from the spec: [delegate(voter, newDelegate)] of the inherited
    ledger; the voter is the caller. *)
Definition delegate (now : N) (sender delegatee : address) : M State unit :=
  (s <- get ;;
   let oldDelegate := delegates s sender in
   modify (set_delegatee sender delegatee) ;;
   _moveDelegateVotes now oldDelegate delegatee (balanceOf s sender))%contract.

Definition transferOwnership (sender newOwner : address) : M State unit :=
  (Ownable.onlyOwner _owner sender ;;
   require (newOwner ≠ address0) InvalidOwner ;;
   modify (set_owner newOwner))%contract.

Definition renounceOwnership (sender : address) : M State unit :=
  (Ownable.onlyOwner _owner sender ;;
   modify (set_owner address0))%contract.

End TestToken.

(** ** DAOVoting: proposals, votes and the derived proposal state

    The reentrancy latch of [nonReentrant] is left out: the only calls that
    leave the contract are the two view calls into the token, which cannot
    call back, so the latch is never observed set. *)

Module DAOVoting.

Inductive ProposalState : Type :=
  | Active
  | Succeeded
  | Defeated
  | Canceled
  | Executed
  | Unknown.

#[global] Instance ProposalState_eq_dec : EqDecision ProposalState.
Proof. solve_decision. Defined.

Record Proposal : Type := mkProposal {
  id : uint256;
  proposer : address;
  description : string;
  snapshotBlock : uint256;
  startBlock : uint256;
  endBlock : uint256;
  forVotes : uint256;
  againstVotes : uint256;
  canceled : bool;
  executed : bool }.

(** The value an unwritten slot of [proposals] reads as. *)
Definition zeroProposal : Proposal := mkProposal 0 address0 "" 0 0 0 0 0 false false.

Definition set_forVotes (v : uint256) (p : Proposal) : Proposal :=
  mkProposal (id p) (proposer p) (description p) (snapshotBlock p) (startBlock p)
             (endBlock p) v (againstVotes p) (canceled p) (executed p).
Definition set_againstVotes (v : uint256) (p : Proposal) : Proposal :=
  mkProposal (id p) (proposer p) (description p) (snapshotBlock p) (startBlock p)
             (endBlock p) (forVotes p) v (canceled p) (executed p).
Definition set_canceled (b : bool) (p : Proposal) : Proposal :=
  mkProposal (id p) (proposer p) (description p) (snapshotBlock p) (startBlock p)
             (endBlock p) (forVotes p) (againstVotes p) b (executed p).
Definition set_executed (b : bool) (p : Proposal) : Proposal :=
  mkProposal (id p) (proposer p) (description p) (snapshotBlock p) (startBlock p)
             (endBlock p) (forVotes p) (againstVotes p) (canceled p) b.

Module Events.
Inductive Event : Type :=
  | ProposalCreated (id : uint256) (proposer : address)
      (snapshotBlock startBlock endBlock : uint256) (description : string)
  | VoteCast (voter : address) (proposalId : uint256) (support : bool) (weight : uint256)
  | ProposalExecuted (id : uint256)
  | ProposalCanceled (id : uint256)
  | QuorumChanged (newNumerator : N)
  | VotingPeriodChanged (newVotingPeriodBlocks : uint256)
  | OwnershipTransferred (previousOwner newOwner : address).
End Events.

Record State : Type := mkState {
  _owner : address;
  governanceToken : address;
  quorumNumerator : N;
  votingPeriodBlocks : uint256;
  _nextProposalId : uint256;
  proposals : gmap uint256 Proposal;
  hasVoted : gmap uint256 (gmap address bool);
  emitted : list Events.Event }.

Definition QUORUM_DENOMINATOR : N := 100.

Definition set_owner (a : address) (s : State) : State :=
  mkState a (governanceToken s) (quorumNumerator s) (votingPeriodBlocks s)
          (_nextProposalId s) (proposals s) (hasVoted s) (emitted s).
Definition set_quorumNumerator (q : N) (s : State) : State :=
  mkState (_owner s) (governanceToken s) q (votingPeriodBlocks s)
          (_nextProposalId s) (proposals s) (hasVoted s) (emitted s).
Definition set_votingPeriodBlocks (v : uint256) (s : State) : State :=
  mkState (_owner s) (governanceToken s) (quorumNumerator s) v
          (_nextProposalId s) (proposals s) (hasVoted s) (emitted s).
Definition set_nextProposalId (v : uint256) (s : State) : State :=
  mkState (_owner s) (governanceToken s) (quorumNumerator s) (votingPeriodBlocks s)
          v (proposals s) (hasVoted s) (emitted s).
Definition set_proposals (m : gmap uint256 Proposal) (s : State) : State :=
  mkState (_owner s) (governanceToken s) (quorumNumerator s) (votingPeriodBlocks s)
          (_nextProposalId s) m (hasVoted s) (emitted s).
Definition set_hasVoted (m : gmap uint256 (gmap address bool)) (s : State) : State :=
  mkState (_owner s) (governanceToken s) (quorumNumerator s) (votingPeriodBlocks s)
          (_nextProposalId s) (proposals s) m (emitted s).

(** [emit e] *)
Definition emit (e : Events.Event) : M State unit :=
  modify (fun s =>
    mkState (_owner s) (governanceToken s) (quorumNumerator s) (votingPeriodBlocks s)
            (_nextProposalId s) (proposals s) (hasVoted s) (emitted s ++ [e])).

(** [proposals[proposalId]] *)
Definition getProposal (s : State) (proposalId : uint256) : Proposal :=
  mget zeroProposal (proposals s) proposalId.

(** [hasVoted[proposalId][voter]] *)
Definition hasVotedAt (s : State) (proposalId : uint256) (voter : address) : bool :=
  mget false (mget ∅ (hasVoted s) proposalId) voter.

(** A write through the storage pointer [p = proposals[proposalId]]. *)
Definition update_proposal (proposalId : uint256) (f : Proposal -> Proposal) : M State unit :=
  modify (fun s => set_proposals (<[proposalId := f (getProposal s proposalId)]> (proposals s)) s).

(** [hasVoted[proposalId][voter] = true] *)
Definition mark_voted (proposalId : uint256) (voter : address) : M State unit :=
  modify (fun s =>
    set_hasVoted (<[proposalId := <[voter := true]> (mget ∅ (hasVoted s) proposalId)]>
                    (hasVoted s)) s).

Definition constructor (sender _governanceToken : address)
    (_quorumNumerator : N) (_votingPeriodBlocks : uint256) : result State :=
  if decide (_governanceToken = address0) then Revert ZeroTokenAddress
  else if decide (0 < _quorumNumerator ∧ _quorumNumerator <= QUORUM_DENOMINATOR) then
    if decide (0 < _votingPeriodBlocks) then
      Ok (mkState sender _governanceToken _quorumNumerator _votingPeriodBlocks 1 ∅ ∅
            [Events.OwnershipTransferred address0 sender])
    else Revert ZeroVotingPeriod
  else Revert InvalidQuorum.

Definition createProposal (now : N) (sender : address) (description : string)
  : M State uint256 :=
  (let snapshot := now in
   let start := now in
   period <- gets votingPeriodBlocks ;;
   end_ <- static (checked_add now period) ;;
   pid <- gets _nextProposalId ;;
   next <- static (checked_add pid 1) ;;
   modify (set_nextProposalId next) ;;
   modify (fun s => set_proposals
     (<[pid := mkProposal pid sender description snapshot start end_ 0 0 false false]>
        (proposals s)) s) ;;
   emit (Events.ProposalCreated pid sender snapshot start end_ description) ;;
   ret pid)%contract.

Definition vote (tk : TestToken.State) (now : N) (sender : address)
    (proposalId : uint256) (support : bool) : M State unit :=
  (p <- gets (fun s => getProposal s proposalId) ;;
   require (id p ≠ 0) ProposalNotFound ;;
   require (canceled p = false) ProposalCanceled ;;
   require (startBlock p <= now) VotingNotStarted ;;
   require (now <= endBlock p) VotingClosed ;;
   voted <- gets (fun s => hasVotedAt s proposalId sender) ;;
   require (voted = false) AlreadyVoted ;;
   weight <- static (TestToken.getPastVotes now tk sender (snapshotBlock p)) ;;
   require (0 < weight) NoVotingPower ;;
   mark_voted proposalId sender ;;
   (if support then
      total <- static (checked_add (forVotes p) weight) ;;
      update_proposal proposalId (set_forVotes total)
    else
      total <- static (checked_add (againstVotes p) weight) ;;
      update_proposal proposalId (set_againstVotes total)) ;;
   emit (Events.VoteCast sender proposalId support weight))%contract.

(** [state(proposalId)]: a view, so a function of the storage. *)
Definition state (tk : TestToken.State) (now : N) (s : State) (proposalId : uint256)
  : result ProposalState :=
  let p := getProposal s proposalId in
  if decide (id p = 0) then Ok Unknown
  else if canceled p then Ok Canceled
  else if executed p then Ok Executed
  else if decide (now <= endBlock p) then Ok Active
  else
    match TestToken.getPastTotalSupply now tk (snapshotBlock p) with
    | Revert e => Revert e
    | Ok totalSupplyAtSnapshot =>
        match checked_mul totalSupplyAtSnapshot (quorumNumerator s) with
        | Revert e => Revert e
        | Ok product =>
            let requiredQuorum := product / QUORUM_DENOMINATOR in
            if decide (requiredQuorum <= forVotes p ∧ againstVotes p < forVotes p)
            then Ok Succeeded
            else Ok Defeated
        end
    end.

Definition executeProposal (tk : TestToken.State) (now : N) (sender : address)
    (proposalId : uint256) : M State unit :=
  (p <- gets (fun s => getProposal s proposalId) ;;
   require (id p ≠ 0) ProposalNotFound ;;
   require (canceled p = false) ProposalCanceled ;;
   require (executed p = false) AlreadyExecuted ;;
   require (endBlock p < now) VotingNotEnded ;;
   s <- get ;;
   st <- static (state tk now s proposalId) ;;
   require (st = Succeeded) ProposalNotSuccessful ;;
   update_proposal proposalId (set_executed true) ;;
   emit (Events.ProposalExecuted proposalId))%contract.

Definition cancelProposal (sender : address) (proposalId : uint256) : M State unit :=
  (Ownable.onlyOwner _owner sender ;;
   p <- gets (fun s => getProposal s proposalId) ;;
   require (id p ≠ 0) ProposalNotFound ;;
   require (canceled p = false) AlreadyCanceled ;;
   require (executed p = false) AlreadyExecuted ;;
   update_proposal proposalId (set_canceled true) ;;
   emit (Events.ProposalCanceled proposalId))%contract.

Definition setQuorumNumerator (sender : address) (newNumerator : N) : M State unit :=
  (Ownable.onlyOwner _owner sender ;;
   require (0 < newNumerator ∧ newNumerator <= QUORUM_DENOMINATOR) InvalidQuorum ;;
   modify (set_quorumNumerator newNumerator) ;;
   emit (Events.QuorumChanged newNumerator))%contract.

Definition setVotingPeriodBlocks (sender : address) (newVotingPeriodBlocks : uint256)
  : M State unit :=
  (Ownable.onlyOwner _owner sender ;;
   require (0 < newVotingPeriodBlocks) ZeroVotingPeriod ;;
   modify (set_votingPeriodBlocks newVotingPeriodBlocks) ;;
   emit (Events.VotingPeriodChanged newVotingPeriodBlocks))%contract.

Definition transferOwnership (sender newOwner : address) : M State unit :=
  (Ownable.onlyOwner _owner sender ;;
   require (newOwner ≠ address0) InvalidOwner ;;
   old <- gets _owner ;;
   modify (set_owner newOwner) ;;
   emit (Events.OwnershipTransferred old newOwner))%contract.

Definition renounceOwnership (sender : address) : M State unit :=
  (Ownable.onlyOwner _owner sender ;;
   old <- gets _owner ;;
   modify (set_owner address0) ;;
   emit (Events.OwnershipTransferred old address0))%contract.

End DAOVoting.

(** ** The chain: both contracts under a block counter

    Transactions are applied one at a time.  A transaction that returns
    commits the storage it leaves; one that reverts is rolled back as a
    unit.  The block number only moves forward. *)

Module Chain.

Record World : Type := mkWorld {
  number : N;
  token : TestToken.State;
  dao : DAOVoting.State }.

Inductive TokenCall : Type :=
  | Transfer (to : address) (value : uint256)
  | Mint (to : address) (amount : uint256)
  | Burn (from : address) (amount : uint256)
  | BurnSelf (amount : uint256)
  | Delegate (delegatee : address)
  | TokenTransferOwnership (newOwner : address)
  | TokenRenounceOwnership.

Inductive DaoCall : Type :=
  | CreateProposal (description : string)
  | Vote (proposalId : uint256) (support : bool)
  | ExecuteProposal (proposalId : uint256)
  | CancelProposal (proposalId : uint256)
  | SetQuorumNumerator (newNumerator : N)
  | SetVotingPeriodBlocks (newVotingPeriodBlocks : uint256)
  | DaoTransferOwnership (newOwner : address)
  | DaoRenounceOwnership.

Inductive Action : Type :=
  | Mine (blocks : N)
  | TokenTx (sender : address) (call : TokenCall)
  | DaoTx (sender : address) (call : DaoCall).

Definition token_call (now : N) (sender : address) (c : TokenCall) : M TestToken.State unit :=
  match c with
  | Transfer to value => TestToken.transfer now sender to value
  | Mint to amount => TestToken.mint now sender to amount
  | Burn from amount => TestToken.burn now sender from amount
  | BurnSelf amount => TestToken.burn_self now sender amount
  | Delegate delegatee => TestToken.delegate now sender delegatee
  | TokenTransferOwnership newOwner => TestToken.transferOwnership sender newOwner
  | TokenRenounceOwnership => TestToken.renounceOwnership sender
  end.

Definition dao_call (tk : TestToken.State) (now : N) (sender : address) (c : DaoCall)
  : M DAOVoting.State unit :=
  match c with
  | CreateProposal description =>
      (_ <- DAOVoting.createProposal now sender description ;; ret tt)%contract
  | Vote proposalId support => DAOVoting.vote tk now sender proposalId support
  | ExecuteProposal proposalId => DAOVoting.executeProposal tk now sender proposalId
  | CancelProposal proposalId => DAOVoting.cancelProposal sender proposalId
  | SetQuorumNumerator newNumerator => DAOVoting.setQuorumNumerator sender newNumerator
  | SetVotingPeriodBlocks n => DAOVoting.setVotingPeriodBlocks sender n
  | DaoTransferOwnership newOwner => DAOVoting.transferOwnership sender newOwner
  | DaoRenounceOwnership => DAOVoting.renounceOwnership sender
  end.

(** The storage after a transaction: committed on return, rolled back on
    revert. *)
Definition commit {S A} (m : M S A) (s : S) : S :=
  match m s with
  | Ok (_, s') => s'
  | Revert _ => s
  end.

Definition succeeds {S A} (m : M S A) (s : S) : Prop :=
  ∃ a s', m s = Ok (a, s').

Definition fails {S A} (m : M S A) (s : S) : Prop :=
  ∃ e, m s = Revert e.

Definition step (w : World) (a : Action) : World :=
  match a with
  | Mine blocks => mkWorld (number w + blocks) (token w) (dao w)
  | TokenTx sender c =>
      mkWorld (number w) (commit (token_call (number w) sender c) (token w)) (dao w)
  | DaoTx sender c =>
      mkWorld (number w) (token w)
              (commit (dao_call (token w) (number w) sender c) (dao w))
  end.

Definition run (trace : list Action) (w : World) : World := foldl step w trace.

(** Deployment of the token and then of the governance contract by the same
    account, as the repository's scripts and tests do. *)
Definition deploy (now : N) (deployer : address) (name_ symbol_ : string)
    (initialSupply : uint256) (tokenAddress : address)
    (quorum : N) (period : uint256) : result World :=
  match TestToken.constructor now deployer name_ symbol_ initialSupply with
  | Revert e => Revert e
  | Ok tk =>
      match DAOVoting.constructor deployer tokenAddress quorum period with
      | Revert e => Revert e
      | Ok d => Ok (mkWorld now tk d)
      end
  end.

Definition reachable (w : World) : Prop :=
  ∃ now deployer name_ symbol_ supply tokenAddress quorum period w0 trace,
    deploy now deployer name_ symbol_ supply tokenAddress quorum period = Ok w0
    ∧ w = run trace w0.

End Chain.

(** ** A worked scenario

    The fixture of the repository's test suite in units of whole tokens:
    the owner deploys with 1,000,000, mints to four holders, everyone
    self-delegates; quorum 20%, voting period 10 blocks. *)

Module Scenario.
Import Chain.

Definition owner : address := 1.
Definition alice : address := 2.
Definition bob : address := 3.
Definition charlie : address := 4.
Definition david : address := 5.
Definition tokenAddress : address := 100.

Definition fixture_trace : list Action :=
  [ Mine 1; TokenTx owner (Mint alice 300000);
    Mine 1; TokenTx owner (Mint bob 200000);
    Mine 1; TokenTx owner (Mint charlie 100000);
    Mine 1; TokenTx owner (Mint david 50000);
    Mine 1; TokenTx alice (Delegate alice);
    Mine 1; TokenTx bob (Delegate bob);
    Mine 1; TokenTx charlie (Delegate charlie);
    Mine 1; TokenTx david (Delegate david);
    Mine 1; TokenTx owner (Delegate owner) ].

Definition genesis : World :=
  match deploy 1 owner "DAO Token" "DAO" 1000000 tokenAddress 20 10 with
  | Ok w => w
  | Revert _ => mkWorld 0 (TestToken.mkState "" "" 0 0 ∅ ∅ ∅ [])
                          (DAOVoting.mkState 0 0 0 0 0 ∅ ∅ [])
  end.

Definition fixture : World := run fixture_trace genesis.

(** Alice creates proposal 1 in block 11. *)
Definition created_trace : list Action :=
  fixture_trace ++ [ Mine 1; DaoTx alice (CreateProposal "Test") ].
Definition created : World := run created_trace genesis.

(** Alice and bob vote for it in the following blocks. *)
Definition voted_trace : list Action :=
  created_trace ++ [ Mine 1; DaoTx alice (Vote 1 true);
                     Mine 1; DaoTx bob (Vote 1 true) ].
Definition voted : World := run voted_trace genesis.

(** The window closes: block 24 is past the end block 21. *)
Definition closed_trace : list Action := voted_trace ++ [ Mine 11 ].
Definition closed : World := run closed_trace genesis.

(** The proposal is executed. *)
Definition executed_trace : list Action :=
  closed_trace ++ [ DaoTx david (ExecuteProposal 1) ].
Definition executed : World := run executed_trace genesis.

(** Alternatively the owner cancels the proposal during the vote. *)
Definition canceled_trace : list Action :=
  voted_trace ++ [ Mine 1; DaoTx owner (CancelProposal 1) ].
Definition canceled : World := run canceled_trace genesis.

End Scenario.

(** ** Well-formedness of the stored data

    The conditions below hold after deployment and are kept by every
    transaction and by the passing of blocks ([Facts.reachable_inv]). *)

Module Inv.
Import Checkpoints.

(** The spec's reading of a historical query: the value of the latest pair
    whose sequence number is at most [S], zero when there is none. *)
Definition at_or_before (S : N) (c : Checkpoint) : Prop := _key c <= S.

#[global] Instance at_or_before_dec S c : Decision (at_or_before S c).
Proof. unfold at_or_before. apply _. Defined.

Definition valueAt (self : list Checkpoint) (S : N) : N :=
  latest (filter (at_or_before S) self).

(** Sequence numbers strictly increase along a series. *)
Definition increasing (self : list Checkpoint) : Prop :=
  ∀ i j ci cj, self !! i = Some ci → self !! j = Some cj → (i < j)%nat → _key ci < _key cj.

(** A series as it can exist at sequence number [now]. *)
Definition series_wf (now : N) (self : list Checkpoint) : Prop :=
  increasing self
  ∧ Forall (fun c => _key c <= now ∧ _value c <= MAX_UINT208) self.

(** [new] results from [old] by writes at sequence number [now]. *)
Inductive grows (now : N) (old : list Checkpoint) : list Checkpoint → Prop :=
  | grows_refl : grows now old old
  | grows_push mid v : grows now old mid → grows now old (push now v mid).

Definition token_inv (now : N) (tk : TestToken.State) : Prop :=
  series_wf now (TestToken._totalCheckpoints tk)
  ∧ ∀ a, series_wf now (TestToken.checkpointsOf tk a).

(** Every series of [s] results from the one in [s0] by writes at [now]. *)
Definition token_grows (now : N) (s0 s : TestToken.State) : Prop :=
  grows now (TestToken._totalCheckpoints s0) (TestToken._totalCheckpoints s)
  ∧ ∀ a, grows now (TestToken.checkpointsOf s0 a) (TestToken.checkpointsOf s a).

(** What a token transaction at [now], started in [s0], maintains. *)
Definition token_keeps (now : N) (s0 s : TestToken.State) : Prop :=
  token_inv now s ∧ token_grows now s0 s.

(** What holds of the proposal stored under key [k]. *)
Definition proposal_wf (now : N) (k : N) (p : DAOVoting.Proposal) : Prop :=
  DAOVoting.id p = k
  ∧ k ≠ 0
  ∧ DAOVoting.snapshotBlock p = DAOVoting.startBlock p
  ∧ DAOVoting.startBlock p <= DAOVoting.endBlock p
  ∧ DAOVoting.startBlock p <= now
  ∧ (DAOVoting.executed p = true → DAOVoting.endBlock p < now)
  ∧ (DAOVoting.canceled p = true → DAOVoting.executed p = false).

Definition dao_inv (now : N) (s : DAOVoting.State) : Prop :=
  (∀ k p, DAOVoting.proposals s !! k = Some p →
          proposal_wf now k p ∧ k < DAOVoting._nextProposalId s)
  ∧ 1 <= DAOVoting._nextProposalId s
  ∧ 1 <= DAOVoting.quorumNumerator s <= DAOVoting.QUORUM_DENOMINATOR
  ∧ 0 < DAOVoting.votingPeriodBlocks s.

(** How a stored proposal may change: its identity and window are frozen,
    its tallies only grow, its flags are only ever set. *)
Definition proposal_evolves (p p' : DAOVoting.Proposal) : Prop :=
  DAOVoting.id p' = DAOVoting.id p
  ∧ DAOVoting.proposer p' = DAOVoting.proposer p
  ∧ DAOVoting.description p' = DAOVoting.description p
  ∧ DAOVoting.snapshotBlock p' = DAOVoting.snapshotBlock p
  ∧ DAOVoting.startBlock p' = DAOVoting.startBlock p
  ∧ DAOVoting.endBlock p' = DAOVoting.endBlock p
  ∧ DAOVoting.forVotes p <= DAOVoting.forVotes p'
  ∧ DAOVoting.againstVotes p <= DAOVoting.againstVotes p'
  ∧ (DAOVoting.canceled p = true → DAOVoting.canceled p' = true)
  ∧ (DAOVoting.executed p = true → DAOVoting.executed p' = true).

(** Proposals are never deleted and change only as above. *)
Definition dao_evolves (s s' : DAOVoting.State) : Prop :=
  ∀ k p, DAOVoting.proposals s !! k = Some p →
         ∃ p', DAOVoting.proposals s' !! k = Some p' ∧ proposal_evolves p p'.

(** The identities handed out so far, read off the event log. *)
Definition created_id (e : DAOVoting.Events.Event) : option N :=
  match e with
  | DAOVoting.Events.ProposalCreated id _ _ _ _ _ => Some id
  | _ => None
  end.

Definition created_ids (s : DAOVoting.State) : list N :=
  omap created_id (DAOVoting.emitted s).

(** The identities 1, 2, ..., [next - 1]. *)
Definition ids_below (next : N) : list N :=
  N.of_nat <$> seq 1 (N.to_nat next - 1).

Definition ids_in_sequence (s : DAOVoting.State) : Prop :=
  1 <= DAOVoting._nextProposalId s
  ∧ created_ids s = ids_below (DAOVoting._nextProposalId s).

Definition inv (w : Chain.World) : Prop :=
  token_inv (Chain.number w) (Chain.token w)
  ∧ dao_inv (Chain.number w) (Chain.dao w).

(** The terminal flags of a proposal. *)
Definition terminal (s : DAOVoting.State) (proposalId : N) : Prop :=
  DAOVoting.canceled (DAOVoting.getProposal s proposalId) = true
  ∨ DAOVoting.executed (DAOVoting.getProposal s proposalId) = true.

(** Partial correctness of a contract call: from a storage satisfying [P],
    a call that returns [a] leaves a storage satisfying [Q a]. *)
Definition hoare {S A} (P : S → Prop) (m : M S A) (Q : A → S → Prop) : Prop :=
  ∀ s a s', P s → m s = Ok (a, s') → Q a s'.

End Inv.

(** ** Accounting of votes *)

Module Accounting.
Import DAOVoting.

(** What an event contributes to the tally of [proposalId] on the side
    [support]: the weight of a [VoteCast] for that proposal and side. *)
Definition cast_weight (proposalId : N) (support : bool) (e : Events.Event) : N :=
  match e with
  | Events.VoteCast _ pid sup weight =>
      if decide (pid = proposalId ∧ sup = support) then weight else 0
  | _ => 0
  end.

Definition cast_total (proposalId : N) (support : bool) (log : list Events.Event) : N :=
  foldr (fun e acc => cast_weight proposalId support e + acc) 0 log.

(** Both tallies of every proposal are the sums of the weights announced
    in the log. *)
Definition tallies_match (s : State) : Prop :=
  ∀ pid, forVotes (getProposal s pid) = cast_total pid true (emitted s)
         ∧ againstVotes (getProposal s pid) = cast_total pid false (emitted s).

(** An executed proposal has strictly more votes for than against. *)
Definition executed_won (s : State) : Prop :=
  ∀ pid, executed (getProposal s pid) = true →
         againstVotes (getProposal s pid) < forVotes (getProposal s pid).

(** The voters of a proposal, as announced in the log. *)
Definition cast_by (proposalId : N) (e : Events.Event) : option address :=
  match e with
  | Events.VoteCast voter pid _ _ => if decide (pid = proposalId) then Some voter else None
  | _ => None
  end.

Definition voters (proposalId : N) (log : list Events.Event) : list address :=
  omap (cast_by proposalId) log.

(** The log and the receipts agree, and nobody is announced twice. *)
Definition receipts_match (s : State) : Prop :=
  ∀ pid, NoDup (voters pid (emitted s))
         ∧ ∀ voter, voter ∈ voters pid (emitted s) ↔ hasVotedAt s pid voter = true.

End Accounting.

(** * Properties *)

Module Facts.
Import Checkpoints Inv.

(** ** Rules for reasoning about contract calls *)

Section Hoare.
Context {S : Type}.
Implicit Types P : S → Prop.

Lemma hoare_ret {A} P (a : A) (Q : A → S → Prop) :
  (∀ s, P s → Q a s) → hoare P (ret a) Q.
Proof. intros HQ s a' s' HP [= <- <-]. auto. Qed.

Lemma hoare_bind {A B} P (m : M S A) (k : A → M S B) (R : A → S → Prop) Q :
  hoare P m R → (∀ a, hoare (R a) (k a) Q) → hoare P (bind m k) Q.
Proof.
  intros Hm Hk s b s' HP. unfold bind.
  destruct (m s) as [[a s1]|e] eqn:E; [|discriminate].
  intros Hks. eapply Hk; [|exact Hks]. eapply Hm; eauto.
Qed.

Lemma hoare_revert {A} P e (Q : A → S → Prop) : hoare P (revert e) Q.
Proof. intros s a s' _ [=]. Qed.

Lemma hoare_require P (c : Prop) `{Decision c} e (Q : unit → S → Prop) :
  (∀ s, P s → c → Q tt s) → hoare P (require c e) Q.
Proof.
  intros HQ s a s' HP. unfold require.
  destruct (decide c); [intros [= <- <-]; auto | intros [=]].
Qed.

Lemma hoare_get P (Q : S → S → Prop) : (∀ s, P s → Q s s) → hoare P get Q.
Proof. intros HQ s a s' HP [= <- <-]. auto. Qed.

Lemma hoare_gets {A} P (f : S → A) (Q : A → S → Prop) :
  (∀ s, P s → Q (f s) s) → hoare P (gets f) Q.
Proof. intros HQ s a s' HP [= <- <-]. auto. Qed.

Lemma hoare_modify P (f : S → S) (Q : unit → S → Prop) :
  (∀ s, P s → Q tt (f s)) → hoare P (modify f) Q.
Proof. intros HQ s a s' HP [= <- <-]. auto. Qed.

Lemma hoare_static {A} P (r : result A) (Q : A → S → Prop) :
  (∀ s a, P s → r = Ok a → Q a s) → hoare P (static r) Q.
Proof.
  intros HQ s a s' HP. unfold static.
  destruct r; [intros [= <- <-]; auto | intros [=]].
Qed.

Lemma hoare_if {A} P (c : Prop) `{Decision c} (m1 m2 : M S A) Q :
  (c → hoare P m1 Q) → (¬ c → hoare P m2 Q) →
  hoare P (if decide c then m1 else m2) Q.
Proof. intros H1 H2. destruct (decide c); auto. Qed.

Lemma hoare_pre P P' {A} (m : M S A) Q :
  (∀ s, P s → P' s) → hoare P' m Q → hoare P m Q.
Proof. intros HP Hm s a s' Hs. apply Hm. auto. Qed.

(** A call that keeps [P] whenever it returns also keeps it when the
    transaction is committed or rolled back. *)
Lemma hoare_commit {A} P (m : M S A) s :
  hoare P m (fun _ => P) → P s → P (Chain.commit m s).
Proof.
  intros Hm HP. unfold Chain.commit.
  destruct (m s) as [[a s']|e] eqn:E; [eapply Hm; eauto | exact HP].
Qed.

End Hoare.

(** ** Checkpoint series *)

Lemma increasing_snoc l c :
  increasing (l ++ [c]) ↔ increasing l ∧ Forall (fun x => _key x < _key c) l.
Proof.
  split.
  - intros Hinc. split.
    + intros i j ci cj Hi Hj Hlt.
      apply (Hinc i j); auto; apply lookup_app_l_Some; auto.
    + apply Forall_lookup. intros i x Hi.
      apply (Hinc i (length l)); auto.
      * apply lookup_app_l_Some; auto.
      * rewrite lookup_app_r by lia. by rewrite Nat.sub_diag.
      * eapply lookup_lt_Some; eauto.
  - intros [Hinc Hall] i j ci cj Hi Hj Hlt.
    apply lookup_lt_Some in Hj as Hjlen. rewrite length_app in Hjlen. simpl in Hjlen.
    assert (Hil : (i < length l)%nat) by lia.
    rewrite lookup_app_l in Hi by lia.
    destruct (decide (j < length l)%nat) as [Hjl|Hjl].
    + rewrite lookup_app_l in Hj by lia. eapply Hinc; eauto.
    + rewrite lookup_app_r in Hj by lia.
      replace (j - length l)%nat with O in Hj by lia. simpl in Hj.
      injection Hj as <-.
      eapply (proj1 (Forall_lookup _ _) Hall); eauto.
Qed.

Lemma increasing_nil : increasing [].
Proof. intros i j ci cj Hi. by rewrite lookup_nil in Hi. Qed.

(** The two ways a write can go. *)
Lemma push_cases key v l :
  (push key v l = l ++ [mkCheckpoint key v]
   ∧ ∀ c, last l = Some c → _key c ≠ key)
  ∨ (∃ l' c, l = l' ++ [c] ∧ _key c = key
             ∧ push key v l = l' ++ [mkCheckpoint key v]).
Proof.
  unfold push. destruct (last l) as [c|] eqn:El.
  - destruct (decide (_key c = key)) as [Hk|Hk].
    + right. apply last_Some in El as [l' ->]. exists l', c.
      split; [done|]. split; [done|].
      rewrite length_app. simpl.
      replace (Nat.pred (length l' + 1)) with (length l' + 0)%nat by lia.
      by rewrite insert_app_r.
    + left. split; [done|]. intros c' [= <-]. done.
  - left. apply last_None in El as ->. split; [done|]. intros c' [=].
Qed.

Lemma series_wf_push now v l :
  series_wf now l → v <= MAX_UINT208 → series_wf now (push now v l).
Proof.
  intros [Hinc Hall] Hv.
  destruct (push_cases now v l) as [[-> Hlast]|(l' & c & -> & Hk & ->)].
  - split.
    + apply increasing_snoc. split; [done|].
      apply Forall_lookup. intros i x Hi. simpl.
      pose proof (proj1 (Forall_lookup _ _) Hall) as Hall'.
      destruct (Hall' i x Hi) as [Hx _].
      destruct (last l) as [c|] eqn:El.
      * apply last_Some in El as [l' ->].
        assert (_key c ≠ now) by (apply Hlast; reflexivity).
        assert (_key c <= now).
        { apply (Hall' (length l')).
          rewrite lookup_app_r by lia. by rewrite Nat.sub_diag. }
        apply lookup_lt_Some in Hi as Hlen. rewrite length_app in Hlen. simpl in Hlen.
        destruct (decide (i < length l')%nat).
        -- assert (_key x < _key c); [|lia].
           apply (Hinc i (length l') x c Hi); [|lia].
           rewrite lookup_app_r by lia. by rewrite Nat.sub_diag.
        -- rewrite lookup_app_r in Hi by lia.
           replace (i - length l')%nat with O in Hi by lia.
           simpl in Hi. injection Hi as <-. lia.
      * apply last_None in El as ->. by rewrite lookup_nil in Hi.
    + apply Forall_app. split; [done|]. apply Forall_singleton. simpl. lia.
  - apply increasing_snoc in Hinc as [Hinc Hlt].
    apply Forall_app in Hall as [Hall Hc].
    split.
    + apply increasing_snoc. split; [done|]. simpl. by rewrite <- Hk.
    + apply Forall_app. split; [done|]. apply Forall_singleton. simpl. lia.
Qed.

Lemma series_wf_mono now now' l : now <= now' → series_wf now l → series_wf now' l.
Proof.
  intros Hle [Hinc Hall]. split; [done|].
  eapply Forall_impl; [exact Hall|]. simpl. intros c [? ?]. split; lia.
Qed.

Lemma series_wf_nil now : series_wf now [].
Proof. split; [apply increasing_nil | constructor]. Qed.

Lemma latest_bound now l : series_wf now l → latest l <= MAX_UINT208.
Proof.
  intros [_ Hall]. unfold latest. destruct (last l) as [c|] eqn:El.
  - apply last_Some in El as [l' ->].
    apply Forall_app in Hall as [_ Hc]. rewrite Forall_singleton in Hc.
    exact (proj2 Hc).
  - apply N.le_0_l.
Qed.

(** A write at a later sequence number is invisible to a query at [S]. *)
Lemma filter_push S now v l :
  S < now → filter (at_or_before S) (push now v l) = filter (at_or_before S) l.
Proof.
  intros Hlt.
  assert (Hnew : filter (at_or_before S) [mkCheckpoint now v] = []).
  { rewrite filter_cons_False; [done|]. unfold at_or_before. simpl. lia. }
  destruct (push_cases now v l) as [[-> _]|(l' & c & -> & Hk & ->)].
  - rewrite filter_app, Hnew. by rewrite app_nil_r.
  - rewrite !filter_app, Hnew.
    rewrite (filter_cons_False _ c); [done|]. unfold at_or_before. lia.
Qed.

Lemma grows_filter S now old new :
  S < now → grows now old new →
  filter (at_or_before S) new = filter (at_or_before S) old.
Proof.
  intros Hlt Hg. induction Hg as [|mid v _ IH]; [done|].
  by rewrite filter_push.
Qed.

Lemma grows_trans now l1 l2 l3 : grows now l1 l2 → grows now l2 l3 → grows now l1 l3.
Proof.
  intros H12 H23. induction H23; [done|]. by constructor.
Qed.

(** The binary search returns the boundary between the pairs at or before
    the queried sequence number and those after it. *)
Lemma upperBinaryLookup_spec l S low high :
  increasing l →
  (low ≤ high)%nat → (high ≤ length l)%nat →
  (∀ i c, (i < low)%nat → l !! i = Some c → _key c <= S) →
  (∀ i c, (high ≤ i)%nat → l !! i = Some c → S < _key c) →
  (low ≤ upperBinaryLookup l S low high ≤ high)%nat
  ∧ (∀ i c, (i < upperBinaryLookup l S low high)%nat → l !! i = Some c → _key c <= S)
  ∧ (∀ i c, (upperBinaryLookup l S low high ≤ i)%nat → l !! i = Some c → S < _key c).
Proof.
  funelim (upperBinaryLookup l S low high); intros Hinc Hlh Hlen Hlow Hhigh.
  - (* the interval is empty *)
    assert (low = high) as -> by lia. split; [lia|]. split; [exact Hlow | exact Hhigh].
  - (* the midpoint lies outside the series: excluded by [high <= length] *)
    exfalso.
    pose proof (Nat.div_mod_eq (low + high) 2).
    pose proof (Nat.mod_upper_bound (low + high) 2).
    match goal with
    | E : self !! _ = None |- _ => apply lookup_ge_None in E; lia
    end.
  - (* the midpoint is after the query: search the lower half *)
    pose proof (Nat.div_mod_eq (low + high) 2) as Hd.
    pose proof (Nat.mod_upper_bound (low + high) 2) as Hm.
    set (mid := ((low + high) / 2)%nat) in *.
    match goal with
    | IH : increasing _ → _ |- _ =>
        destruct IH as (Hr & Hbelow & Habove); auto; try lia
    end.
    + intros i c' Hi Hc'.
      destruct (decide (i = mid)) as [->|Hne]; [congruence|].
      assert (_key c < _key c'); [|lia].
      match goal with
      | E : self !! mid = Some c |- _ => apply (Hinc mid i c c' E Hc')
      end. lia.
    + split; [lia|]. split; assumption.
  - (* the midpoint is at or before the query: search the upper half *)
    pose proof (Nat.div_mod_eq (low + high) 2) as Hd.
    pose proof (Nat.mod_upper_bound (low + high) 2) as Hm.
    set (mid := ((low + high) / 2)%nat) in *.
    match goal with
    | IH : increasing _ → _ |- _ =>
        destruct IH as (Hr & Hbelow & Habove); auto; try lia
    end.
    + intros i c' Hi Hc'.
      destruct (decide (i = mid)) as [->|Hne].
      * match goal with
        | E : self !! mid = Some c |- _ => rewrite E in Hc'; injection Hc' as <-
        end. lia.
      * assert (_key c' < _key c); [|lia].
        match goal with
        | E : self !! mid = Some c |- _ => apply (Hinc i mid c' c Hc' E)
        end. lia.
    + split; [lia|]. split; assumption.
Qed.

Lemma filter_boundary S (l : list Checkpoint) r :
  (r ≤ length l)%nat →
  (∀ i c, (i < r)%nat → l !! i = Some c → _key c <= S) →
  (∀ i c, (r ≤ i)%nat → l !! i = Some c → S < _key c) →
  filter (at_or_before S) l = take r l.
Proof.
  revert r. induction l as [|x l IH]; intros r Hr Hbelow Habove.
  - by rewrite take_nil.
  - destruct r as [|r].
    + rewrite filter_cons_False.
      * rewrite (IH O); [done| simpl; lia | intros; lia |].
        intros i c _ Hc. apply (Habove (Datatypes.S i)); [lia | done].
      * unfold at_or_before. specialize (Habove O x). simpl in Habove.
        assert (S < _key x) by (apply Habove; [lia | done]). lia.
    + rewrite filter_cons_True.
      * simpl. f_equal. apply IH; [simpl in Hr; lia | |].
        -- intros i c Hi Hc. apply (Hbelow (Datatypes.S i)); [lia | done].
        -- intros i c Hi Hc. apply (Habove (Datatypes.S i)); [lia | done].
      * unfold at_or_before. apply (Hbelow O); [lia | done].
Qed.

(** On an increasing series the binary search computes the spec's reading
    of a historical query. *)
Lemma upperLookup_valueAt l S : increasing l → upperLookup l S = valueAt l S.
Proof.
  intros Hinc.
  destruct (upperBinaryLookup_spec l S 0 (length l) Hinc) as ([_ Hr] & Hbelow & Habove);
    [lia | lia | intros; lia | |].
  { intros i c Hi Hc. apply lookup_lt_Some in Hc. lia. }
  unfold upperLookup, valueAt, latest.
  rewrite (filter_boundary S l _ Hr Hbelow Habove).
  destruct (upperBinaryLookup l S 0 (length l)) as [|pos] eqn:E.
  - by rewrite take_0.
  - rewrite last_lookup, length_take. 
    replace (Nat.pred (Datatypes.S pos `min` length l)) with pos by lia.
    rewrite lookup_take_lt by lia. reflexivity.
Qed.

(** ** The token keeps its series well formed and only writes at [now] *)

Section TokenKeeps.
Import TestToken.
Variable now : N.
Variable s0 : State.

Local Abbreviation P := (token_keeps now s0).

Lemma hoare_seq_inv {S A B} (I : S → Prop) (m : M S A) (k : A → M S B) :
  hoare I m (fun _ => I) → (∀ a, hoare I (k a) (fun _ => I)) →
  hoare I (bind m k) (fun _ => I).
Proof. intros Hm Hk. eapply hoare_bind; [exact Hm | exact Hk]. Qed.

Lemma hoare_skip_inv {S} (I : S → Prop) : hoare I (ret tt) (fun _ => I).
Proof. by apply hoare_ret. Qed.

(** A write that leaves both checkpoint stores alone keeps the property. *)
Lemma keeps_frame (f : State → State) :
  (∀ s, _totalCheckpoints (f s) = _totalCheckpoints s) →
  (∀ s, _delegateCheckpoints (f s) = _delegateCheckpoints s) →
  hoare P (modify f) (fun _ => P).
Proof.
  intros Ht Hd. apply hoare_modify. intros s [[Htot Hdel] [Hgt Hgd]].
  unfold token_keeps, token_inv, token_grows, checkpointsOf in *.
  rewrite Ht, Hd. auto.
Qed.

Lemma keeps_pushTotal op delta :
  (∀ a b v, a <= MAX_UINT208 → op a b = Ok v → v <= MAX_UINT208) →
  hoare P (pushTotal now op delta) (fun _ => P).
Proof.
  intros Hop s a s' [[Htot Hdel] [Hgt Hgd]]. unfold pushTotal, bind, gets, static, modify.
  destruct (op (latest (_totalCheckpoints s)) delta) as [v|e] eqn:E; [|discriminate].
  intros [= <- <-].
  assert (v <= MAX_UINT208) by (eapply Hop; [eapply latest_bound|]; eauto).
  split; split; simpl; auto.
  - by apply series_wf_push.
  - by constructor.
Qed.

Lemma checkpointsOf_set_eq d c s :
  checkpointsOf (set_delegateCheckpoints d c s) d = c.
Proof. unfold checkpointsOf, mget. simpl. by rewrite lookup_insert_eq. Qed.

Lemma checkpointsOf_set_ne d a c s :
  d ≠ a → checkpointsOf (set_delegateCheckpoints d c s) a = checkpointsOf s a.
Proof. intros. unfold checkpointsOf, mget. simpl. by rewrite lookup_insert_ne. Qed.

Lemma keeps_pushDelegate d op delta :
  (∀ a b v, a <= MAX_UINT208 → op a b = Ok v → v <= MAX_UINT208) →
  hoare P (pushDelegate now d op delta) (fun _ => P).
Proof.
  intros Hop s a s' [[Htot Hdel] [Hgt Hgd]]. unfold pushDelegate, bind, gets, static, modify.
  destruct (op (latest (checkpointsOf s d)) delta) as [v|e] eqn:E; [|discriminate].
  intros [= <- <-].
  assert (v <= MAX_UINT208).
  { eapply Hop; [eapply latest_bound; apply Hdel | exact E]. }
  split; split; simpl; auto.
  - intros a'. destruct (decide (d = a')) as [<-|Hne].
    + rewrite checkpointsOf_set_eq. by apply series_wf_push.
    + by rewrite checkpointsOf_set_ne.
  - intros a'. destruct (decide (d = a')) as [<-|Hne].
    + rewrite checkpointsOf_set_eq. by constructor.
    + by rewrite checkpointsOf_set_ne.
Qed.

Lemma add208_bound a b v : a <= MAX_UINT208 → add208 a b = Ok v → v <= MAX_UINT208.
Proof. unfold add208. intros _. case_decide; [intros [= <-]; done | discriminate]. Qed.

Lemma sub208_bound a b v : a <= MAX_UINT208 → sub208 a b = Ok v → v <= MAX_UINT208.
Proof. unfold sub208. intros Ha. case_decide; [intros [= <-]; lia | discriminate]. Qed.

Ltac keeps :=
  repeat lazymatch goal with
    | |- hoare _ (pushDelegate _ _ _ _) _ =>
        apply keeps_pushDelegate; [apply add208_bound || apply sub208_bound]
    | |- hoare _ (pushTotal _ _ _) _ =>
        apply keeps_pushTotal; [apply add208_bound || apply sub208_bound]
    | |- hoare _ (bind _ _) _ => apply hoare_seq_inv; [|intros ?]
    | |- hoare _ (ret tt) _ => apply hoare_skip_inv
    | |- hoare _ (if decide _ then _ else _) _ => apply hoare_if; intros ?
    | |- hoare _ (require _ _) _ => apply hoare_require; intros; assumption
    | |- hoare _ get _ => apply hoare_get; intros; assumption
    | |- hoare _ (gets _) _ => apply hoare_gets; intros; assumption
    | |- hoare _ (static _) _ => apply hoare_static; intros; assumption
    | |- hoare _ (modify _) _ =>
        apply keeps_frame; [intros; reflexivity | intros; reflexivity]
    end.

Lemma keeps_moveDelegateVotes from to amount :
  hoare P (_moveDelegateVotes now from to amount) (fun _ => P).
Proof. unfold _moveDelegateVotes. keeps. Qed.

Lemma keeps_transferVotingUnits from to amount :
  hoare P (_transferVotingUnits now from to amount) (fun _ => P).
Proof. unfold _transferVotingUnits. keeps. apply keeps_moveDelegateVotes. Qed.

Lemma keeps_ledger_update from to value :
  hoare P (ledger_update from to value) (fun _ => P).
Proof. unfold ledger_update. keeps. Qed.

Lemma keeps_update from to value : hoare P (_update now from to value) (fun _ => P).
Proof.
  unfold _update. keeps; [apply keeps_ledger_update | apply keeps_transferVotingUnits].
Qed.

Lemma keeps_onlyOwner sender : hoare P (Ownable.onlyOwner _owner sender) (fun _ => P).
Proof. unfold Ownable.onlyOwner. keeps. Qed.

Lemma keeps_token_call sender c :
  hoare P (Chain.token_call now sender c) (fun _ => P).
Proof.
  destruct c; simpl;
    unfold transfer, mint, burn, burn_self, delegate, transferOwnership,
      renounceOwnership, _mint, _burn;
    keeps; try apply keeps_update; try apply keeps_onlyOwner;
    try apply keeps_moveDelegateVotes.
Qed.

End TokenKeeps.

(** ** The governance contract keeps its proposals well formed *)

Section DaoKeeps.
Import DAOVoting.

Lemma getProposal_stored s pid :
  id (getProposal s pid) ≠ 0 → proposals s !! pid = Some (getProposal s pid).
Proof.
  unfold getProposal, mget. destruct (proposals s !! pid); [done|]. simpl. done.
Qed.

Lemma getProposal_lookup s pid p :
  proposals s !! pid = Some p → getProposal s pid = p.
Proof. unfold getProposal, mget. by intros ->. Qed.

Lemma proposal_evolves_refl p : proposal_evolves p p.
Proof. unfold proposal_evolves. repeat split; auto; lia. Qed.

Lemma proposal_evolves_trans p1 p2 p3 :
  proposal_evolves p1 p2 → proposal_evolves p2 p3 → proposal_evolves p1 p3.
Proof.
  unfold proposal_evolves. intros H12 H23.
  destruct H12 as (?&?&?&?&?&?&?&?&?&?), H23 as (?&?&?&?&?&?&?&?&?&?).
  repeat split; try congruence; try lia; auto.
Qed.

Lemma dao_evolves_refl s : dao_evolves s s.
Proof. intros k p Hk. exists p. split; [done | apply proposal_evolves_refl]. Qed.

Lemma dao_evolves_trans s1 s2 s3 :
  dao_evolves s1 s2 → dao_evolves s2 s3 → dao_evolves s1 s3.
Proof.
  intros H12 H23 k p Hk.
  destruct (H12 k p Hk) as (p2 & Hk2 & He2).
  destruct (H23 k p2 Hk2) as (p3 & Hk3 & He3).
  exists p3. split; [done | by eapply proposal_evolves_trans].
Qed.

Lemma dao_evolves_same s s' : proposals s' = proposals s → dao_evolves s s'.
Proof.
  intros E k p Hk. exists p. rewrite E. split; [done | apply proposal_evolves_refl].
Qed.

Lemma dao_evolves_update s s' pid p p' :
  proposals s' = <[pid := p']> (proposals s) →
  proposals s !! pid = Some p → proposal_evolves p p' → dao_evolves s s'.
Proof.
  intros E Hp He k q Hk. rewrite E.
  destruct (decide (pid = k)) as [<-|Hne].
  - exists p'. rewrite lookup_insert_eq. split; [done|]. congruence.
  - exists q. rewrite lookup_insert_ne by done. split; [done | apply proposal_evolves_refl].
Qed.

Lemma dao_evolves_fresh s s' pid p' :
  proposals s' = <[pid := p']> (proposals s) →
  proposals s !! pid = None → dao_evolves s s'.
Proof.
  intros E Hp k q Hk. rewrite E. exists q.
  rewrite lookup_insert_ne by congruence. split; [done | apply proposal_evolves_refl].
Qed.

Lemma dao_inv_same now s s' :
  dao_inv now s → proposals s' = proposals s →
  _nextProposalId s' = _nextProposalId s →
  1 <= quorumNumerator s' <= QUORUM_DENOMINATOR →
  0 < votingPeriodBlocks s' →
  dao_inv now s'.
Proof.
  intros (Hp & Hn & Hq & Hv) Ep En Hq' Hv'. unfold dao_inv.
  rewrite Ep, En. auto.
Qed.

Lemma dao_inv_update now s s' pid p p' :
  dao_inv now s → proposals s' = <[pid := p']> (proposals s) →
  proposals s !! pid = Some p → proposal_evolves p p' →
  (executed p' = true → endBlock p' < now) →
  (canceled p' = true → executed p' = false) →
  _nextProposalId s' = _nextProposalId s →
  quorumNumerator s' = quorumNumerator s →
  votingPeriodBlocks s' = votingPeriodBlocks s →
  dao_inv now s'.
Proof.
  intros (Hp & Hn & Hq & Hv) Ep Hpid He Hex Hcan En Eq Ev. unfold dao_inv.
  rewrite Ep, En, Eq, Ev. split; [|auto].
  intros k q Hk. destruct (decide (pid = k)) as [<-|Hne].
  - rewrite lookup_insert_eq in Hk. injection Hk as <-.
    destruct (Hp pid p Hpid) as [Hwf Hlt]. split; [|done].
    destruct He as (?&?&?&?&?&?&?&?&?&?), Hwf as (?&?&?&?&?&?&?).
    unfold proposal_wf. repeat split; try congruence; try lia; auto.
  - rewrite lookup_insert_ne in Hk by done. auto.
Qed.

Lemma dao_inv_create now s s' p' :
  dao_inv now s →
  proposals s' = <[_nextProposalId s := p']> (proposals s) →
  _nextProposalId s' = _nextProposalId s + 1 →
  proposal_wf now (_nextProposalId s) p' →
  quorumNumerator s' = quorumNumerator s →
  votingPeriodBlocks s' = votingPeriodBlocks s →
  dao_inv now s'.
Proof.
  intros (Hp & Hn & Hq & Hv) Ep En Hwf Eq Ev. unfold dao_inv.
  rewrite Ep, En, Eq, Ev. split; [|split; [lia | auto]].
  intros k q Hk. destruct (decide (_nextProposalId s = k)) as [<-|Hne].
  - rewrite lookup_insert_eq in Hk. injection Hk as <-. split; [done | lia].
  - rewrite lookup_insert_ne in Hk by done.
    destruct (Hp k q Hk). split; [done | lia].
Qed.

Lemma dao_inv_fresh now s : dao_inv now s → proposals s !! _nextProposalId s = None.
Proof.
  intros (Hp & _). destruct (proposals s !! _nextProposalId s) as [p|] eqn:E; [|done].
  destruct (Hp _ p E). lia.
Qed.

Lemma dao_inv_mono now now' s : now <= now' → dao_inv now s → dao_inv now' s.
Proof.
  intros Hle (Hp & Hrest). split; [|done].
  intros k p Hk. destruct (Hp k p Hk) as [(?&?&?&?&?&Hex&?) Hlt]. split; [|done].
  unfold proposal_wf. repeat split; auto; try lia.
  intros Htrue. specialize (Hex Htrue). lia.
Qed.

(** Run a contract call symbolically: unfold the monad and split on every
    guard. *)
Ltac mrun H :=
  unfold vote, executeProposal, cancelProposal, createProposal, setQuorumNumerator,
    setVotingPeriodBlocks, transferOwnership, renounceOwnership, Ownable.onlyOwner,
    update_proposal, mark_voted, emit, bind, gets, get, require, static, modify,
    ret, revert, checked_add in H;
  repeat (first [ case_decide | case_match ]; simplify_eq/=; try discriminate).

Ltac evolved :=
  unfold proposal_evolves; simpl; repeat split; auto; lia.

(** Every call of the governance contract that returns keeps the stored
    proposals well formed and changes them only by [dao_evolves]. *)
Lemma dao_call_keeps tk now sender c s :
  hoare (fun x => x = s ∧ dao_inv now s) (Chain.dao_call tk now sender c)
        (fun _ s' => dao_inv now s' ∧ dao_evolves s s').
Proof.
  intros x a s' [-> Hinv] H. destruct c; simpl in H.
  - (* createProposal *)
    mrun H. pose proof (dao_inv_fresh _ _ Hinv) as Hfresh. split.
    + eapply dao_inv_create; eauto; simpl; try reflexivity.
      destruct Hinv as (_ & Hn & _). unfold proposal_wf. simpl.
      repeat split; auto; first [lia | discriminate].
    + eapply dao_evolves_fresh; eauto; reflexivity.
  - (* vote *)
    mrun H.
    all: match goal with
         | Hid : id (getProposal _ _) ≠ 0 |- _ =>
             pose proof (getProposal_stored _ _ Hid) as Hst
         end.
    all: split;
      [ eapply dao_inv_update; eauto; try reflexivity; try evolved; simpl;
        destruct Hinv as (Hp & _); destruct (Hp _ _ Hst) as [(?&?&?&?&?&?&?) _]; auto
      | eapply dao_evolves_update; eauto; try reflexivity; evolved ].
  - (* executeProposal *)
    mrun H.
    match goal with
    | Hid : id (getProposal _ _) ≠ 0 |- _ =>
        pose proof (getProposal_stored _ _ Hid) as Hst
    end.
    split;
      [ eapply dao_inv_update; eauto; try reflexivity; try evolved; simpl; auto
      | eapply dao_evolves_update; eauto; try reflexivity; evolved ].
  - (* cancelProposal *)
    mrun H.
    match goal with
    | Hid : id (getProposal _ _) ≠ 0 |- _ =>
        pose proof (getProposal_stored _ _ Hid) as Hst
    end.
    split;
      [ eapply dao_inv_update; eauto; try reflexivity; try evolved; simpl; auto
      | eapply dao_evolves_update; eauto; try reflexivity; evolved ].
    intros Hex. congruence.
  - (* setQuorumNumerator *)
    mrun H. split; [|by apply dao_evolves_same].
    eapply dao_inv_same; [exact Hinv | reflexivity | reflexivity | simpl | simpl];
      destruct Hinv as (? & ? & ? & ?); first [lia | assumption].
  - (* setVotingPeriodBlocks *)
    mrun H. split; [|by apply dao_evolves_same].
    eapply dao_inv_same; [exact Hinv | reflexivity | reflexivity | simpl | simpl];
      destruct Hinv as (? & ? & ? & ?); first [lia | assumption].
  - (* transferOwnership *)
    mrun H. split; [|by apply dao_evolves_same].
    eapply dao_inv_same; [exact Hinv | reflexivity | reflexivity | simpl | simpl];
      destruct Hinv as (? & ? & ? & ?); first [lia | assumption].
  - (* renounceOwnership *)
    mrun H. split; [|by apply dao_evolves_same].
    eapply dao_inv_same; [exact Hinv | reflexivity | reflexivity | simpl | simpl];
      destruct Hinv as (? & ? & ? & ?); first [lia | assumption].
Qed.

End DaoKeeps.

(** ** Executions *)

Section Runs.
Import Chain.

Lemma token_inv_mono now now' tk : now <= now' → token_inv now tk → token_inv now' tk.
Proof.
  intros Hle [Ht Hd]. split; [by eapply series_wf_mono|].
  intros a. by eapply series_wf_mono.
Qed.

Lemma token_grows_refl now s : token_grows now s s.
Proof. split; [constructor | intros a; constructor]. Qed.

Lemma run_cons a trace w : run (a :: trace) w = run trace (step w a).
Proof. reflexivity. Qed.

(** A token transaction, committed or rolled back, keeps the series well
    formed and only writes at the current block. *)
Lemma token_commit_keeps now sender c tk :
  token_inv now tk →
  token_keeps now tk (commit (token_call now sender c) tk).
Proof.
  intros Hinv. apply (hoare_commit (token_keeps now tk)).
  - apply keeps_token_call.
  - split; [done | apply token_grows_refl].
Qed.

Lemma dao_commit_keeps tk now sender c s :
  dao_inv now s →
  dao_inv now (commit (dao_call tk now sender c) s)
  ∧ dao_evolves s (commit (dao_call tk now sender c) s).
Proof.
  intros Hinv. unfold commit.
  destruct (dao_call tk now sender c s) as [[a s']|e] eqn:E.
  - eapply dao_call_keeps; eauto.
  - split; [done | apply dao_evolves_refl].
Qed.

Lemma step_inv w a :
  inv w →
  inv (step w a) ∧ number w <= number (step w a)
  ∧ dao_evolves (dao w) (dao (step w a)).
Proof.
  intros [Htk Hdao]. destruct a as [blocks|sender c|sender c]; simpl.
  - split; [|split; [lia | apply dao_evolves_refl]].
    split; simpl;
      [apply (token_inv_mono (number w)) | apply (dao_inv_mono (number w))];
      first [lia | assumption].
  - split; [|split; [lia | apply dao_evolves_refl]].
    split; simpl; [|done]. by apply token_commit_keeps.
  - destruct (dao_commit_keeps (token w) (number w) sender c (dao w) Hdao) as [Hi He].
    split; [|split; [lia | done]]. split; done.
Qed.

Lemma run_inv trace w :
  inv w →
  inv (run trace w) ∧ number w <= number (run trace w)
  ∧ dao_evolves (dao w) (dao (run trace w)).
Proof.
  revert w. induction trace as [|a trace IH]; intros w Hinv.
  - simpl. split; [done|]. split; [lia | apply dao_evolves_refl].
  - rewrite run_cons. destruct (step_inv w a Hinv) as (Hi & Hn & He).
    destruct (IH _ Hi) as (Hi' & Hn' & He').
    split; [done|]. split; [lia | by eapply dao_evolves_trans].
Qed.

(** Once block [S] has passed, no step changes what a series holds at or
    before [S]. *)
Lemma step_snapshot w a S :
  inv w → S < number w →
  filter (at_or_before S) (TestToken._totalCheckpoints (token (step w a)))
  = filter (at_or_before S) (TestToken._totalCheckpoints (token w))
  ∧ ∀ account,
      filter (at_or_before S) (TestToken.checkpointsOf (token (step w a)) account)
      = filter (at_or_before S) (TestToken.checkpointsOf (token w) account).
Proof.
  intros [Htk _] HS. destruct a as [blocks|sender c|sender c]; simpl; [done| |done].
  destruct (token_commit_keeps (number w) sender c (token w) Htk) as [_ [Ht Hd]].
  split; [by eapply grows_filter|]. intros account. by eapply grows_filter.
Qed.

Lemma run_snapshot trace w S :
  inv w → S < number w →
  filter (at_or_before S) (TestToken._totalCheckpoints (token (run trace w)))
  = filter (at_or_before S) (TestToken._totalCheckpoints (token w))
  ∧ ∀ account,
      filter (at_or_before S) (TestToken.checkpointsOf (token (run trace w)) account)
      = filter (at_or_before S) (TestToken.checkpointsOf (token w) account).
Proof.
  revert w. induction trace as [|a trace IH]; intros w Hinv HS; [done|].
  rewrite run_cons. destruct (step_inv w a Hinv) as (Hi & Hn & _).
  destruct (step_snapshot w a S Hinv HS) as [Ht Hd].
  destruct (IH (step w a) Hi) as [Ht' Hd']; [lia|].
  split; [congruence|]. intros account. rewrite Hd'. apply Hd.
Qed.

Lemma token_constructor_inv now deployer name_ symbol_ supply tk :
  TestToken.constructor now deployer name_ symbol_ supply = Ok tk →
  token_inv now tk.
Proof.
  unfold TestToken.constructor.
  set (s0 := TestToken.mkState name_ symbol_ deployer 0 ∅ ∅ ∅ []).
  assert (H0 : token_keeps now s0 s0).
  { split; [|apply token_grows_refl]. split; [apply series_wf_nil|].
    intros a. apply series_wf_nil. }
  case_decide; [|intros [= <-]; apply H0].
  destruct (TestToken._mint now deployer supply s0) as [[u s]|e] eqn:E; [|discriminate].
  intros [= <-].
  assert (Hk : hoare (token_keeps now s0) (TestToken._mint now deployer supply)
                     (fun _ => token_keeps now s0)).
  { unfold TestToken._mint. apply hoare_seq_inv.
    - apply hoare_require. intros s' Hs' _. exact Hs'.
    - intros _. apply keeps_update. }
  apply (Hk s0 u s H0 E).
Qed.

Lemma dao_constructor_inv now deployer tokenAddress quorum period d :
  DAOVoting.constructor deployer tokenAddress quorum period = Ok d →
  dao_inv now d.
Proof.
  unfold DAOVoting.constructor. repeat case_decide; try discriminate.
  intros [= <-]. unfold dao_inv. simpl.
  split; [intros k p Hk; by rewrite lookup_empty in Hk|].
  split; [lia|]. split; [lia | done].
Qed.

(** The well-formedness conditions hold in every world reachable from a
    deployment. *)
Lemma reachable_inv w : reachable w → inv w.
Proof.
  intros (now & deployer & name_ & symbol_ & supply & tokenAddress & quorum & period
          & w0 & trace & Hdeploy & ->).
  apply run_inv. unfold deploy in Hdeploy.
  destruct (TestToken.constructor now deployer name_ symbol_ supply) as [tk|e] eqn:Et;
    [|discriminate].
  destruct (DAOVoting.constructor deployer tokenAddress quorum period) as [d|e] eqn:Ed;
    [|discriminate].
  injection Hdeploy as <-. split; simpl.
  - by eapply token_constructor_inv.
  - by eapply dao_constructor_inv.
Qed.

End Runs.


(** Unfold a governance call down to its guards. *)
Ltac unfold_call :=
  unfold DAOVoting.vote, DAOVoting.executeProposal, DAOVoting.cancelProposal,
    DAOVoting.createProposal, DAOVoting.setQuorumNumerator,
    DAOVoting.setVotingPeriodBlocks, DAOVoting.transferOwnership,
    DAOVoting.renounceOwnership, Ownable.onlyOwner, DAOVoting.update_proposal,
    DAOVoting.mark_voted, DAOVoting.emit, bind, gets, get, require, static, modify,
    ret, revert, checked_add in *.

(** Split on the guards of an unfolded call, first to last. *)
Ltac guards :=
  repeat (case_decide; simplify_eq/=; try done; try lia; try congruence);
  try done.

(** Settle a closed goal by evaluation. *)
Ltac evaluate :=
  vm_compute; repeat split; first [reflexivity | discriminate].



(** ** Arithmetic of the quorum *)

Lemma valueAt_bound now l S : series_wf now l → valueAt l S <= MAX_UINT208.
Proof.
  intros [_ Hall]. unfold valueAt, latest.
  destruct (last (filter (at_or_before S) l)) as [c|] eqn:El; [|apply N.le_0_l].
  apply last_Some_elem_of in El. apply list_elem_of_filter in El as [_ Hc].
  rewrite Forall_forall in Hall. apply (Hall c Hc).
Qed.

Lemma product_fits v q : v <= MAX_UINT208 → q <= MAX_UINT16 → v * q <= MAX_UINT256.
Proof.
  intros Hv Hq. transitivity (MAX_UINT208 * MAX_UINT16).
  - by apply N.mul_le_mono.
  - by vm_compute.
Qed.

Lemma quorum_fits_uint16 now s : dao_inv now s → DAOVoting.quorumNumerator s <= MAX_UINT16.
Proof.
  intros (_ & _ & [_ Hq] & _). etransitivity; [exact Hq|]. by vm_compute.
Qed.

(** The total-supply query of [state] returns the checkpointed supply. *)
Lemma getPastTotalSupply_ok now tk t :
  token_inv now tk → t < now →
  TestToken.getPastTotalSupply now tk t
  = Ok (valueAt (TestToken._totalCheckpoints tk) t).
Proof.
  intros [[Hinc _] _] Hlt. unfold TestToken.getPastTotalSupply.
  case_decide; [lia|]. by rewrite upperLookup_valueAt.
Qed.

Lemma getPastVotes_ok now tk account t :
  token_inv now tk → t < now →
  TestToken.getPastVotes now tk account t
  = Ok (valueAt (TestToken.checkpointsOf tk account) t).
Proof.
  intros [_ Hd] Hlt. unfold TestToken.getPastVotes.
  case_decide; [lia|]. destruct (Hd account) as [Hinc _].
  by rewrite upperLookup_valueAt.
Qed.

(** [state] once the window has closed on a live proposal, for any quorum
    numerator that fits its storage type. *)
Lemma state_closed tk now s proposalId :
  let p := DAOVoting.getProposal s proposalId in
  token_inv now tk →
  DAOVoting.quorumNumerator s <= MAX_UINT16 →
  DAOVoting.id p ≠ 0 → DAOVoting.canceled p = false → DAOVoting.executed p = false →
  DAOVoting.endBlock p < now → DAOVoting.snapshotBlock p < now →
  DAOVoting.state tk now s proposalId
  = Ok (if decide (valueAt (TestToken._totalCheckpoints tk) (DAOVoting.snapshotBlock p)
                     * DAOVoting.quorumNumerator s / DAOVoting.QUORUM_DENOMINATOR
                   <= DAOVoting.forVotes p
                   ∧ DAOVoting.againstVotes p < DAOVoting.forVotes p)
        then DAOVoting.Succeeded else DAOVoting.Defeated).
Proof.
  intros p Htk Hq Hid Hc He Hend Hsnap. unfold DAOVoting.state. fold p.
  rewrite Hc, He. case_decide; [done|]. case_decide; [lia|].
  rewrite getPastTotalSupply_ok by done.
  unfold checked_mul. case_decide as Hmul.
  - by case_decide.
  - exfalso. apply Hmul. apply product_fits; [|done].
    destruct Htk as [Ht _]. by eapply valueAt_bound.
Qed.

(** What [state] returns, case by case. *)
Lemma state_cases (w : Chain.World) (proposalId : N) :
  inv w →
  let p := DAOVoting.getProposal (Chain.dao w) proposalId in
  let st := DAOVoting.state (Chain.token w) (Chain.number w) (Chain.dao w) proposalId in
  let totalSupplyAtSnapshot :=
    valueAt (TestToken._totalCheckpoints (Chain.token w)) (DAOVoting.snapshotBlock p) in
  let requiredQuorum :=
    totalSupplyAtSnapshot * DAOVoting.quorumNumerator (Chain.dao w) / 100 in
  (DAOVoting.id p = 0 → st = Ok DAOVoting.Unknown)
  ∧ (DAOVoting.id p ≠ 0 → DAOVoting.canceled p = true → st = Ok DAOVoting.Canceled)
  ∧ (DAOVoting.id p ≠ 0 → DAOVoting.executed p = true → st = Ok DAOVoting.Executed)
  ∧ (DAOVoting.id p ≠ 0 → DAOVoting.canceled p = false → DAOVoting.executed p = false →
     Chain.number w <= DAOVoting.endBlock p → st = Ok DAOVoting.Active)
  ∧ (DAOVoting.id p ≠ 0 → DAOVoting.canceled p = false → DAOVoting.executed p = false →
     DAOVoting.endBlock p < Chain.number w →
     TestToken.getPastTotalSupply (Chain.number w) (Chain.token w) (DAOVoting.snapshotBlock p)
       = Ok totalSupplyAtSnapshot
     ∧ (st = Ok DAOVoting.Succeeded ∨ st = Ok DAOVoting.Defeated)
     ∧ (st = Ok DAOVoting.Succeeded ↔
        requiredQuorum <= DAOVoting.forVotes p
        ∧ DAOVoting.againstVotes p < DAOVoting.forVotes p)
     ∧ (DAOVoting.forVotes p = DAOVoting.againstVotes p → st = Ok DAOVoting.Defeated)).
Proof.
  intros [Htk Hdao] p st ts rq.
  assert (Hwf : DAOVoting.id p ≠ 0 → proposal_wf (Chain.number w) proposalId p).
  { intros Hid. destruct Hdao as (Hp & _).
    apply (Hp _ _ (getProposal_stored _ _ Hid)). }
  split; [|split; [|split; [|split]]].
  - intros Hid. unfold st, DAOVoting.state. fold p. by case_decide.
  - intros Hid Hc. unfold st, DAOVoting.state. fold p.
    case_decide; [done|]. by rewrite Hc.
  - intros Hid He. destruct (Hwf Hid) as (_&_&_&_&_&_&Hce).
    unfold st, DAOVoting.state. fold p. case_decide; [done|].
    destruct (DAOVoting.canceled p) eqn:Hc; [|by rewrite He].
    specialize (Hce eq_refl). congruence.
  - intros Hid Hc He Hend. unfold st, DAOVoting.state. fold p.
    case_decide; [done|]. rewrite Hc, He. by case_decide.
  - intros Hid Hc He Hend. destruct (Hwf Hid) as (_&_&Hsnap&Hse&_).
    assert (Hlt : DAOVoting.snapshotBlock p < Chain.number w) by lia.
    split; [by apply getPastTotalSupply_ok|].
    unfold st. rewrite state_closed; auto; [|by eapply quorum_fits_uint16].
    fold p ts. change DAOVoting.QUORUM_DENOMINATOR with 100. fold rq.
    case_decide as Hd.
    + split; [by left|]. split; [done|]. intros Htie. lia.
    + split; [by right|]. split; [|done]. split; [intros [=] | intros; contradiction].
Qed.



(** A set flag stays set along [dao_evolves]. *)
Lemma terminal_evolves s s' proposalId :
  terminal s proposalId → dao_evolves s s' → terminal s' proposalId.
Proof.
  intros Hterm Hev.
  assert (Hid : DAOVoting.proposals s !! proposalId
                = Some (DAOVoting.getProposal s proposalId)).
  { unfold terminal, DAOVoting.getProposal, mget in *.
    destruct (DAOVoting.proposals s !! proposalId); [done|].
    simpl in Hterm. destruct Hterm as [H|H]; discriminate H. }
  destruct (Hev _ _ Hid) as (p' & Hp' & He).
  unfold terminal in *. rewrite (getProposal_lookup _ _ _ Hp').
  destruct He as (_&_&_&_&_&_&_&_&Hc&Hx).
  destruct Hterm as [H|H]; [left | right]; auto.
Qed.


(** On a proposal with a terminal flag, in a well-formed storage, the three
    state-changing calls fail. *)
Lemma terminal_fails tk now s sender proposalId support :
  dao_inv now s → terminal s proposalId →
  (∃ e, DAOVoting.vote tk now sender proposalId support s = Revert e
        ∧ (e = ProposalCanceled ∨ e = VotingClosed))
  ∧ (∃ e, DAOVoting.cancelProposal sender proposalId s = Revert e
          ∧ (e = Unauthorized ∨ e = AlreadyCanceled ∨ e = AlreadyExecuted))
  ∧ (∃ e, DAOVoting.executeProposal tk now sender proposalId s = Revert e
          ∧ (e = ProposalCanceled ∨ e = AlreadyExecuted)).
Proof.
  intros Hdao Hterm.
  set (p := DAOVoting.getProposal s proposalId) in *.
  assert (Hid : DAOVoting.id p ≠ 0).
  { intros Hz. unfold terminal, p, DAOVoting.getProposal, mget in *.
    destruct (DAOVoting.proposals s !! proposalId) as [q|] eqn:E.
    - destruct Hdao as (Hp & _). destruct (Hp _ _ E) as [(Hq & Hk & _) _].
      simpl in Hz. congruence.
    - simpl in Hterm. destruct Hterm as [H|H]; discriminate H. }
  destruct Hdao as (Hp & _).
  destruct (Hp _ _ (getProposal_stored _ _ Hid)) as [(_&_&_&Hse&Hsn&Hex&Hce) _].
  fold p in Hse, Hsn, Hex, Hce. unfold terminal in Hterm. fold p in Hterm.
  destruct (DAOVoting.canceled p) eqn:Hc.
  - (* canceled *)
    split; [|split].
    + exists ProposalCanceled. split; [|by left].
      unfold_call. fold p. rewrite Hc. guards.
    + unfold_call. case_decide; simpl; [|eexists; split; [done | by left]].
      fold p. rewrite Hc. guards. eexists; split; [done | by right; left].
    + exists ProposalCanceled. split; [|by left].
      unfold_call. fold p. rewrite Hc. guards.
  - (* executed, not canceled *)
    destruct Hterm as [H|He]; [discriminate H|]. specialize (Hex He).
    split; [|split].
    + exists VotingClosed. split; [|by right].
      unfold_call. fold p. rewrite Hc. guards.
    + unfold_call. case_decide; simpl; [|eexists; split; [done | by left]].
      fold p. rewrite Hc, He. guards. eexists; split; [done | by right; right].
    + exists AlreadyExecuted. split; [|by right].
      unfold_call. fold p. rewrite Hc, He. guards.
Qed.


(** ** Proposal identities are handed out in sequence *)

Lemma ids_below_succ next : 1 <= next → ids_below (next + 1) = ids_below next ++ [next].
Proof.
  intros Hn. unfold ids_below.
  replace (N.to_nat (next + 1) - 1)%nat with (Datatypes.S (N.to_nat next - 1)) by lia.
  rewrite seq_S, fmap_app. simpl. do 2 f_equal. lia.
Qed.

Lemma dao_call_ids tk now sender c :
  hoare ids_in_sequence (Chain.dao_call tk now sender c) (fun _ => ids_in_sequence).
Proof.
  intros s a s' [Hn Hids] H. unfold ids_in_sequence, created_ids in *.
  destruct c; simpl in H; unfold_call.
  - (* createProposal *)
    guards. split; [lia|].
    rewrite omap_app, Hids, ids_below_succ by done. reflexivity.
  - (* vote *)
    destruct (TestToken.getPastVotes now tk sender
                (DAOVoting.snapshotBlock (DAOVoting.getProposal s proposalId)));
      destruct support; guards; (split; [done|]; rewrite omap_app, Hids; simpl; by rewrite app_nil_r).
  - (* executeProposal *)
    guards.
    destruct (DAOVoting.state tk now s proposalId); simpl in H; try discriminate;
      guards.
    (split; [done|]; rewrite omap_app, Hids; simpl; by rewrite app_nil_r).
  - guards. (split; [done|]; rewrite omap_app, Hids; simpl; by rewrite app_nil_r).
  - guards. (split; [done|]; rewrite omap_app, Hids; simpl; by rewrite app_nil_r).
  - guards. (split; [done|]; rewrite omap_app, Hids; simpl; by rewrite app_nil_r).
  - guards. (split; [done|]; rewrite omap_app, Hids; simpl; by rewrite app_nil_r).
  - guards. (split; [done|]; rewrite omap_app, Hids; simpl; by rewrite app_nil_r).
Qed.

Lemma run_ids trace w :
  ids_in_sequence (Chain.dao w) → ids_in_sequence (Chain.dao (Chain.run trace w)).
Proof.
  revert w. induction trace as [|a trace IH]; intros w Hw; [done|].
  rewrite run_cons. apply IH. destruct a as [blocks|sender c|sender c]; simpl; try done.
  by apply hoare_commit; [apply dao_call_ids|].
Qed.

Lemma reachable_ids w : Chain.reachable w → ids_in_sequence (Chain.dao w).
Proof.
  intros (now & deployer & name_ & symbol_ & supply & tokenAddress & quorum & period
          & w0 & trace & Hdeploy & ->).
  apply run_ids. unfold Chain.deploy in Hdeploy.
  destruct (TestToken.constructor now deployer name_ symbol_ supply) as [tk|e];
    [|discriminate].
  unfold DAOVoting.constructor in Hdeploy.
  repeat case_decide; try discriminate. injection Hdeploy as <-.
  split; simpl; [lia | done].
Qed.

(** ** What a returning call tells about the storage before and after *)

Lemma executeProposal_returns tk now sender proposalId s s' :
  DAOVoting.executeProposal tk now sender proposalId s = Ok (tt, s') →
  let p := DAOVoting.getProposal s proposalId in
  (DAOVoting.id p ≠ 0 ∧ DAOVoting.canceled p = false ∧ DAOVoting.executed p = false
   ∧ DAOVoting.endBlock p < now
   ∧ DAOVoting.state tk now s proposalId = Ok DAOVoting.Succeeded)
  ∧ s' = DAOVoting.mkState (DAOVoting._owner s) (DAOVoting.governanceToken s)
           (DAOVoting.quorumNumerator s) (DAOVoting.votingPeriodBlocks s)
           (DAOVoting._nextProposalId s)
           (<[proposalId := DAOVoting.set_executed true p]> (DAOVoting.proposals s))
           (DAOVoting.hasVoted s)
           (DAOVoting.emitted s ++ [DAOVoting.Events.ProposalExecuted proposalId]).
Proof.
  intros H p. unfold_call. fold p in H.
  case_decide; simpl in H; [|discriminate].
  case_decide; simpl in H; [|discriminate].
  case_decide; simpl in H; [|discriminate].
  case_decide; simpl in H; [|discriminate].
  destruct (DAOVoting.state tk now s proposalId) as [st|e]; simpl in H; [|discriminate].
  case_decide; simpl in H; [|discriminate].
  injection H as <-. subst st. done.
Qed.

Lemma cancelProposal_returns sender proposalId s s' :
  DAOVoting.cancelProposal sender proposalId s = Ok (tt, s') →
  let p := DAOVoting.getProposal s proposalId in
  (DAOVoting._owner s = sender ∧ DAOVoting.id p ≠ 0
   ∧ DAOVoting.canceled p = false ∧ DAOVoting.executed p = false)
  ∧ s' = DAOVoting.mkState (DAOVoting._owner s) (DAOVoting.governanceToken s)
           (DAOVoting.quorumNumerator s) (DAOVoting.votingPeriodBlocks s)
           (DAOVoting._nextProposalId s)
           (<[proposalId := DAOVoting.set_canceled true p]> (DAOVoting.proposals s))
           (DAOVoting.hasVoted s)
           (DAOVoting.emitted s ++ [DAOVoting.Events.ProposalCanceled proposalId]).
Proof.
  intros H p. unfold_call.
  case_decide; simpl in H; [|discriminate]. fold p in H.
  case_decide; simpl in H; [|discriminate].
  case_decide; simpl in H; [|discriminate].
  case_decide; simpl in H; [|discriminate].
  injection H as <-. done.
Qed.

(** Reading back a proposal written through its storage pointer. *)
Lemma getProposal_written o g q v n m h e proposalId p :
  DAOVoting.getProposal (DAOVoting.mkState o g q v n (<[proposalId := p]> m) h e)
    proposalId = p.
Proof. unfold DAOVoting.getProposal, mget. simpl. by rewrite lookup_insert_eq. Qed.

Lemma getProposal_other o g q v n m h e proposalId p k :
  k ≠ proposalId →
  DAOVoting.getProposal (DAOVoting.mkState o g q v n (<[proposalId := p]> m) h e) k
  = default DAOVoting.zeroProposal (m !! k).
Proof.
  intros Hk. unfold DAOVoting.getProposal, mget. simpl. by rewrite lookup_insert_ne.
Qed.

(** [state] reads the flags before anything else. *)
Lemma state_flagged tk now s proposalId :
  let p := DAOVoting.getProposal s proposalId in
  DAOVoting.id p ≠ 0 →
  (DAOVoting.canceled p = true →
   DAOVoting.state tk now s proposalId = Ok DAOVoting.Canceled)
  ∧ (DAOVoting.canceled p = false → DAOVoting.executed p = true →
     DAOVoting.state tk now s proposalId = Ok DAOVoting.Executed).
Proof.
  intros p Hid. unfold DAOVoting.state. fold p.
  case_decide; [done|]. split.
  - by intros ->.
  - by intros -> ->.
Qed.

Lemma setQuorumNumerator_returns sender n s s' :
  DAOVoting.setQuorumNumerator sender n s = Ok (tt, s') →
  (DAOVoting._owner s = sender ∧ 0 < n <= DAOVoting.QUORUM_DENOMINATOR)
  ∧ s' = DAOVoting.mkState (DAOVoting._owner s) (DAOVoting.governanceToken s) n
           (DAOVoting.votingPeriodBlocks s) (DAOVoting._nextProposalId s)
           (DAOVoting.proposals s) (DAOVoting.hasVoted s)
           (DAOVoting.emitted s ++ [DAOVoting.Events.QuorumChanged n]).
Proof.
  intros H. unfold_call.
  case_decide; simpl in H; [|discriminate].
  case_decide; simpl in H; [|discriminate].
  injection H as <-. done.
Qed.

Lemma setVotingPeriodBlocks_returns sender n s s' :
  DAOVoting.setVotingPeriodBlocks sender n s = Ok (tt, s') →
  (DAOVoting._owner s = sender ∧ 0 < n)
  ∧ s' = DAOVoting.mkState (DAOVoting._owner s) (DAOVoting.governanceToken s)
           (DAOVoting.quorumNumerator s) n (DAOVoting._nextProposalId s)
           (DAOVoting.proposals s) (DAOVoting.hasVoted s)
           (DAOVoting.emitted s ++ [DAOVoting.Events.VotingPeriodChanged n]).
Proof.
  intros H. unfold_call.
  case_decide; simpl in H; [|discriminate].
  case_decide; simpl in H; [|discriminate].
  injection H as <-. done.
Qed.

(** [createProposal] written out: it fails exactly on overflow. *)
Lemma createProposal_unfold now sender description s :
  DAOVoting.createProposal now sender description s
  = if decide (now + DAOVoting.votingPeriodBlocks s <= MAX_UINT256) then
      if decide (DAOVoting._nextProposalId s + 1 <= MAX_UINT256) then
        Ok (DAOVoting._nextProposalId s,
            DAOVoting.mkState (DAOVoting._owner s) (DAOVoting.governanceToken s)
              (DAOVoting.quorumNumerator s) (DAOVoting.votingPeriodBlocks s)
              (DAOVoting._nextProposalId s + 1)
              (<[DAOVoting._nextProposalId s :=
                   DAOVoting.mkProposal (DAOVoting._nextProposalId s) sender description
                     now now (now + DAOVoting.votingPeriodBlocks s) 0 0 false false]>
                 (DAOVoting.proposals s))
              (DAOVoting.hasVoted s)
              (DAOVoting.emitted s
               ++ [DAOVoting.Events.ProposalCreated (DAOVoting._nextProposalId s) sender
                     now now (now + DAOVoting.votingPeriodBlocks s) description]))
      else Revert ArithmeticPanic
    else Revert ArithmeticPanic.
Proof.
  unfold_call. case_decide; simpl; [|done]. case_decide; simpl; done.
Qed.
(** ** The scenario *)

Lemma scenario_reachable trace : Chain.reachable (Chain.run trace Scenario.genesis).
Proof.
  exists 1, Scenario.owner, "DAO Token"%string, "DAO"%string, 1000000,
    Scenario.tokenAddress, 20, 10, Scenario.genesis, trace.
  split; [evaluate | done].
Qed.

Lemma scenario_inv trace : inv (Chain.run trace Scenario.genesis).
Proof. apply reachable_inv, scenario_reachable. Qed.

End Facts.

Import Checkpoints Inv Facts Chain.

(** * The claims *)

(** C1. For every proposal id, [state] returns [Unknown] when no proposal
    is stored under it (the id of the slot reads zero), [Canceled] when its
    canceled flag is set, [Executed] when its executed flag is set, [Active]
    while the block number has not passed its end block, and afterwards
    [Succeeded] exactly when [forVotes] is at least
    [floor(totalSupplyAtSnapshot * quorumNumerator / 100)] and strictly
    greater than [againstVotes], [Defeated] otherwise; a tie is [Defeated].
    [totalSupplyAtSnapshot] is the checkpointed total supply at the
    proposal's snapshot block. *)
Theorem state_classification (w : World) (proposalId : N) :
  inv w →
  let p := DAOVoting.getProposal (dao w) proposalId in
  let st := DAOVoting.state (token w) (number w) (dao w) proposalId in
  let totalSupplyAtSnapshot :=
    valueAt (TestToken._totalCheckpoints (token w)) (DAOVoting.snapshotBlock p) in
  let requiredQuorum :=
    totalSupplyAtSnapshot * DAOVoting.quorumNumerator (dao w) / 100 in
  (DAOVoting.id p = 0 → st = Ok DAOVoting.Unknown)
  ∧ (DAOVoting.id p ≠ 0 → DAOVoting.canceled p = true → st = Ok DAOVoting.Canceled)
  ∧ (DAOVoting.id p ≠ 0 → DAOVoting.executed p = true → st = Ok DAOVoting.Executed)
  ∧ (DAOVoting.id p ≠ 0 → DAOVoting.canceled p = false → DAOVoting.executed p = false →
     number w <= DAOVoting.endBlock p → st = Ok DAOVoting.Active)
  ∧ (DAOVoting.id p ≠ 0 → DAOVoting.canceled p = false → DAOVoting.executed p = false →
     DAOVoting.endBlock p < number w →
     TestToken.getPastTotalSupply (number w) (token w) (DAOVoting.snapshotBlock p)
       = Ok totalSupplyAtSnapshot
     ∧ (st = Ok DAOVoting.Succeeded ∨ st = Ok DAOVoting.Defeated)
     ∧ (st = Ok DAOVoting.Succeeded ↔
        requiredQuorum <= DAOVoting.forVotes p
        ∧ DAOVoting.againstVotes p < DAOVoting.forVotes p)
     ∧ (DAOVoting.forVotes p = DAOVoting.againstVotes p → st = Ok DAOVoting.Defeated)).
Proof. exact (state_cases w proposalId). Qed.

Lemma state_classification_witness :
  DAOVoting.state (token Scenario.closed) (number Scenario.closed) (dao Scenario.closed) 1
  = Ok DAOVoting.Succeeded.
Proof.
  destruct (state_classification Scenario.closed 1 (scenario_inv _))
    as (_ & _ & _ & _ & H).
  destruct H as (_ & _ & [_ H] & _); [evaluate ..|].
  apply H. evaluate.
Defined.

(** C2. Snapshot immutability.  Once block [S] has passed, whatever
    transfers, mints, burns and delegations are executed afterwards (in any
    number, mixed with governance calls and with further blocks),
    [getPastVotes(voter, S)] returns the same weight, and likewise
    [getPastTotalSupply(S)]: every such operation leaves the checkpoints
    with sequence number at most [S] unchanged, in every series. *)
Theorem snapshot_immutability (w : World) (S : N) (trace : list Action) (voter : address) :
  inv w → S < number w →
  let w' := run trace w in
  let weight := valueAt (TestToken.checkpointsOf (token w) voter) S in
  let supply := valueAt (TestToken._totalCheckpoints (token w)) S in
  TestToken.getPastVotes (number w) (token w) voter S = Ok weight
  ∧ TestToken.getPastVotes (number w') (token w') voter S = Ok weight
  ∧ TestToken.getPastTotalSupply (number w) (token w) S = Ok supply
  ∧ TestToken.getPastTotalSupply (number w') (token w') S = Ok supply
  ∧ filter (at_or_before S) (TestToken.checkpointsOf (token w') voter)
    = filter (at_or_before S) (TestToken.checkpointsOf (token w) voter)
  ∧ filter (at_or_before S) (TestToken._totalCheckpoints (token w'))
    = filter (at_or_before S) (TestToken._totalCheckpoints (token w)).
Proof.
  intros Hinv HS w' weight supply.
  destruct (run_inv trace w Hinv) as ([Htk' _] & Hn & _).
  destruct (run_snapshot trace w S Hinv HS) as [Ht Hd].
  destruct Hinv as [Htk _]. fold w' in Htk', Hn, Ht, Hd.
  assert (HS' : S < number w') by lia.
  split; [by apply getPastVotes_ok|].
  split; [rewrite getPastVotes_ok by done; unfold weight, valueAt; by rewrite Hd|].
  split; [by apply getPastTotalSupply_ok|].
  split; [rewrite getPastTotalSupply_ok by done; unfold supply, valueAt; by rewrite Ht|].
  split; [apply Hd | apply Ht].
Qed.

(** After the snapshot of proposal 1 (block 11) alice moves all her tokens to
    bob and the owner mints; her weight at block 11 is still 300000. *)
Lemma snapshot_immutability_witness :
  let later := run [ TokenTx Scenario.alice (Transfer Scenario.bob 300000);
                     Mine 1; TokenTx Scenario.owner (Mint Scenario.bob 5000000) ]
                   Scenario.voted in
  TestToken.getVotes (token later) Scenario.alice = 0
  ∧ TestToken.getPastVotes (number later) (token later) Scenario.alice 11 = Ok 300000.
Proof.
  intros later. split; [evaluate|].
  destruct (snapshot_immutability Scenario.voted 11
              [ TokenTx Scenario.alice (Transfer Scenario.bob 300000);
                Mine 1; TokenTx Scenario.owner (Mint Scenario.bob 5000000) ]
              Scenario.alice (scenario_inv Scenario.voted_trace)) as (_ & H & _);
    [evaluate|].
  etransitivity; [exact H | evaluate].
Defined.
(** C3. [vote] fails with [ProposalNotFound] on an absent proposal, with
    [ProposalCanceled] on a canceled one, with [VotingNotStarted] before the
    start block, with [VotingClosed] after the end block, with
    [AlreadyVoted] when the caller's receipt is set, and with
    [NoVotingPower] when the caller's weight at the snapshot block is zero;
    a failed call leaves the storage as it was, receipts and tallies
    included.  A call that passes all guards returns; it sets the caller's
    receipt and adds exactly the snapshot weight to [forVotes] when
    [support] is true and to [againstVotes] otherwise, leaving the other
    tally and every other field of the proposal as they were, and touches no
    other proposal and no other receipt. *)
Theorem vote_outcomes (tk : TestToken.State) (now : N) (sender : address)
    (proposalId : N) (support : bool) (s : DAOVoting.State) :
  let p := DAOVoting.getProposal s proposalId in
  let call := DAOVoting.vote tk now sender proposalId support in
  let tally := if support then DAOVoting.forVotes p else DAOVoting.againstVotes p in
  (DAOVoting.id p = 0 → call s = Revert ProposalNotFound)
  ∧ (DAOVoting.id p ≠ 0 → DAOVoting.canceled p = true →
     call s = Revert ProposalCanceled)
  ∧ (DAOVoting.id p ≠ 0 → DAOVoting.canceled p = false →
     now < DAOVoting.startBlock p → call s = Revert VotingNotStarted)
  ∧ (DAOVoting.id p ≠ 0 → DAOVoting.canceled p = false →
     DAOVoting.startBlock p <= now → DAOVoting.endBlock p < now →
     call s = Revert VotingClosed)
  ∧ (DAOVoting.id p ≠ 0 → DAOVoting.canceled p = false →
     DAOVoting.startBlock p <= now <= DAOVoting.endBlock p →
     DAOVoting.hasVotedAt s proposalId sender = true →
     call s = Revert AlreadyVoted)
  ∧ (DAOVoting.id p ≠ 0 → DAOVoting.canceled p = false →
     DAOVoting.startBlock p <= now <= DAOVoting.endBlock p →
     DAOVoting.hasVotedAt s proposalId sender = false →
     TestToken.getPastVotes now tk sender (DAOVoting.snapshotBlock p) = Ok 0 →
     call s = Revert NoVotingPower)
  ∧ (∀ e, call s = Revert e → commit call s = s)
  ∧ (∀ weight,
     DAOVoting.id p ≠ 0 → DAOVoting.canceled p = false →
     DAOVoting.startBlock p <= now <= DAOVoting.endBlock p →
     DAOVoting.hasVotedAt s proposalId sender = false →
     TestToken.getPastVotes now tk sender (DAOVoting.snapshotBlock p) = Ok weight →
     0 < weight → tally + weight <= MAX_UINT256 →
     ∃ s', call s = Ok (tt, s'))
  ∧ (∀ s', call s = Ok (tt, s') →
     ∃ weight,
       TestToken.getPastVotes now tk sender (DAOVoting.snapshotBlock p) = Ok weight
       ∧ 0 < weight
       ∧ DAOVoting.hasVotedAt s' proposalId sender = true
       ∧ DAOVoting.forVotes (DAOVoting.getProposal s' proposalId)
         = DAOVoting.forVotes p + (if support then weight else 0)
       ∧ DAOVoting.againstVotes (DAOVoting.getProposal s' proposalId)
         = DAOVoting.againstVotes p + (if support then 0 else weight)
       ∧ DAOVoting.id (DAOVoting.getProposal s' proposalId) = DAOVoting.id p
       ∧ DAOVoting.proposer (DAOVoting.getProposal s' proposalId) = DAOVoting.proposer p
       ∧ DAOVoting.description (DAOVoting.getProposal s' proposalId)
         = DAOVoting.description p
       ∧ DAOVoting.snapshotBlock (DAOVoting.getProposal s' proposalId)
         = DAOVoting.snapshotBlock p
       ∧ DAOVoting.startBlock (DAOVoting.getProposal s' proposalId)
         = DAOVoting.startBlock p
       ∧ DAOVoting.endBlock (DAOVoting.getProposal s' proposalId) = DAOVoting.endBlock p
       ∧ DAOVoting.canceled (DAOVoting.getProposal s' proposalId) = DAOVoting.canceled p
       ∧ DAOVoting.executed (DAOVoting.getProposal s' proposalId) = DAOVoting.executed p
       ∧ (∀ k, k ≠ proposalId → DAOVoting.getProposal s' k = DAOVoting.getProposal s k)
       ∧ (∀ k voter, (k, voter) ≠ (proposalId, sender) →
          DAOVoting.hasVotedAt s' k voter = DAOVoting.hasVotedAt s k voter)).
Proof.
  intros p call tally. subst call tally.
  repeat split.
  - intros Hid. unfold_call. fold p. guards.
  - intros Hid Hc. unfold_call. fold p. guards.
  - intros Hid Hc Hs. unfold_call. fold p. guards.
  - intros Hid Hc Hs He. unfold_call. fold p. guards.
  - intros Hid Hc [Hs He] Hv. unfold_call. fold p. guards.
  - intros Hid Hc [Hs He] Hv Hw. unfold_call. fold p. guards.
    rewrite Hw. simpl. guards.
  - intros e He. unfold commit. by rewrite He.
  - intros weight Hid Hc [Hs He] Hv Hw Hpos Hfit. unfold_call. fold p.
    rewrite Hw. destruct support; simpl in *; guards; eauto.
  - intros s' H. unfold_call. fold p in H.
    destruct (TestToken.getPastVotes now tk sender (DAOVoting.snapshotBlock p))
      as [weight|e] eqn:Hw; [|exfalso; simpl in H; guards].
    exists weight. split; [done|].
    destruct support; simpl in H; guards.
    all: unfold DAOVoting.hasVotedAt, DAOVoting.getProposal, mget; simpl.
    all: split; [done|].
    all: split; [rewrite lookup_insert_eq; simpl; by rewrite lookup_insert_eq|].
    all: rewrite !lookup_insert_eq; simpl.
    all: change (default DAOVoting.zeroProposal (DAOVoting.proposals s !! proposalId))
           with p.
    all: split; [lia|]. all: split; [lia|]. all: do 8 (split; [done|]).
    all: split; [intros k Hk; by rewrite lookup_insert_ne|].
    all: intros k voter Hk; destruct (decide (proposalId = k)) as [<-|Hne];
      [ rewrite lookup_insert_eq; simpl;
        rewrite lookup_insert_ne by congruence; done
      | by rewrite lookup_insert_ne ].
Qed.

(** In the block after proposal 1 is created alice's vote for it is
    counted with her 300000 and leaves the votes against at zero; bob's vote
    against it is counted with his 200000 and leaves the votes for at zero;
    once alice has voted, a second vote is refused. *)
Lemma vote_outcomes_witness :
  (∃ s', DAOVoting.vote (token (run [ Mine 1 ] Scenario.created))
           (number (run [ Mine 1 ] Scenario.created)) Scenario.alice 1 true
           (dao (run [ Mine 1 ] Scenario.created)) = Ok (tt, s')
         ∧ DAOVoting.forVotes (DAOVoting.getProposal s' 1) = 300000
         ∧ DAOVoting.againstVotes (DAOVoting.getProposal s' 1) = 0)
  ∧ (∃ s', DAOVoting.vote (token (run [ Mine 1 ] Scenario.created))
             (number (run [ Mine 1 ] Scenario.created)) Scenario.bob 1 false
             (dao (run [ Mine 1 ] Scenario.created)) = Ok (tt, s')
           ∧ DAOVoting.forVotes (DAOVoting.getProposal s' 1) = 0
           ∧ DAOVoting.againstVotes (DAOVoting.getProposal s' 1) = 200000)
  ∧ DAOVoting.vote (token Scenario.voted) (number Scenario.voted) Scenario.alice 1 false
      (dao Scenario.voted) = Revert AlreadyVoted.
Proof.
  split; [|split].
  - destruct (vote_outcomes (token (run [ Mine 1 ] Scenario.created))
                (number (run [ Mine 1 ] Scenario.created)) Scenario.alice 1 true
                (dao (run [ Mine 1 ] Scenario.created)))
      as (_ & _ & _ & _ & _ & _ & _ & Hreturns & Heffect).
    destruct (Hreturns 300000) as [s' Hs']; [evaluate ..|].
    exists s'. split; [exact Hs'|].
    destruct (Heffect s' Hs') as (weight & Hw & _ & _ & Hfor & Hagainst & _).
    assert (weight = 300000) as -> by (vm_compute in Hw; congruence).
    split; (etransitivity; [eassumption | evaluate]).
  - destruct (vote_outcomes (token (run [ Mine 1 ] Scenario.created))
                (number (run [ Mine 1 ] Scenario.created)) Scenario.bob 1 false
                (dao (run [ Mine 1 ] Scenario.created)))
      as (_ & _ & _ & _ & _ & _ & _ & Hreturns & Heffect).
    destruct (Hreturns 200000) as [s' Hs']; [evaluate ..|].
    exists s'. split; [exact Hs'|].
    destruct (Heffect s' Hs') as (weight & Hw & _ & _ & Hfor & Hagainst & _).
    assert (weight = 200000) as -> by (vm_compute in Hw; congruence).
    split; (etransitivity; [eassumption | evaluate]).
  - apply (vote_outcomes (token Scenario.voted) (number Scenario.voted) Scenario.alice
             1 false (dao Scenario.voted)); evaluate.
Defined.

(** C4. Terminal absorption.  Once the canceled or the executed flag of a
    proposal is set, then after any further execution (governance calls,
    token operations, blocks passing, the block number never decreasing)
    the flag is still set and every [vote], [cancelProposal] and
    [executeProposal] call on that proposal fails.  [vote] does not read the
    executed flag: on an executed proposal it fails on the closed window. *)
Theorem terminal_absorption (w : World) (proposalId : N) (trace : list Action)
    (sender : address) (support : bool) :
  inv w → terminal (dao w) proposalId →
  let w' := run trace w in
  terminal (dao w') proposalId
  ∧ (∃ e, DAOVoting.vote (token w') (number w') sender proposalId support (dao w')
          = Revert e
          ∧ (e = ProposalCanceled ∨ e = VotingClosed))
  ∧ (∃ e, DAOVoting.cancelProposal sender proposalId (dao w') = Revert e
          ∧ (e = Unauthorized ∨ e = AlreadyCanceled ∨ e = AlreadyExecuted))
  ∧ (∃ e, DAOVoting.executeProposal (token w') (number w') sender proposalId (dao w')
          = Revert e
          ∧ (e = ProposalCanceled ∨ e = AlreadyExecuted)).
Proof.
  intros Hinv Hterm w'.
  destruct (run_inv trace w Hinv) as ([_ Hdao] & _ & Hev). fold w' in Hdao, Hev.
  pose proof (terminal_evolves _ _ _ Hterm Hev) as Hterm'.
  split; [done|]. by apply terminal_fails.
Qed.

(** After the execution of proposal 1, and after its cancellation in the
    other branch of the scenario, blocks pass and tokens move; nothing can be
    done to the proposal any more. *)
Lemma terminal_absorption_witness :
  let later := [ Mine 3; TokenTx Scenario.alice (Transfer Scenario.bob 7);
                 DaoTx Scenario.owner (SetQuorumNumerator 1) ] in
  (∃ e, DAOVoting.vote (token (run later Scenario.executed))
          (number (run later Scenario.executed)) Scenario.charlie 1 true
          (dao (run later Scenario.executed)) = Revert e)
  ∧ (∃ e, DAOVoting.executeProposal (token (run later Scenario.canceled))
            (number (run later Scenario.canceled)) Scenario.charlie 1
            (dao (run later Scenario.canceled)) = Revert e).
Proof.
  intros later. split.
  - destruct (terminal_absorption Scenario.executed 1 later Scenario.charlie true
                (scenario_inv _)) as (_ & (e & He & _) & _); [right; evaluate|].
    by exists e.
  - destruct (terminal_absorption Scenario.canceled 1 later Scenario.charlie true
                (scenario_inv _)) as (_ & _ & _ & (e & He & _)); [left; evaluate|].
    by exists e.
Defined.

(** C5, as the code has it.  [Canceled] is entered from [Active],
    [Succeeded] or [Defeated], and [Executed] from [Succeeded] only: when
    [cancelProposal] returns, the state before the call was one of the
    three, and the state after it is [Canceled]; when [executeProposal]
    returns, the window had closed, the state before the call was
    [Succeeded], and the state after it is [Executed]; on an [Active]
    proposal [executeProposal] fails with [VotingNotEnded]; on a proposal
    already [Canceled] or [Executed] both calls fail. *)
Theorem terminal_entry (w : World) (sender : address) (proposalId : N) :
  inv w →
  let p := DAOVoting.getProposal (dao w) proposalId in
  let st := DAOVoting.state (token w) (number w) (dao w) proposalId in
  let cancel := DAOVoting.cancelProposal sender proposalId in
  let execute := DAOVoting.executeProposal (token w) (number w) sender proposalId in
  (∀ s', cancel (dao w) = Ok (tt, s') →
     (st = Ok DAOVoting.Active ∨ st = Ok DAOVoting.Succeeded ∨ st = Ok DAOVoting.Defeated)
     ∧ DAOVoting.state (token w) (number w) s' proposalId = Ok DAOVoting.Canceled)
  ∧ (∀ s', execute (dao w) = Ok (tt, s') →
     DAOVoting.endBlock p < number w
     ∧ st = Ok DAOVoting.Succeeded
     ∧ DAOVoting.state (token w) (number w) s' proposalId = Ok DAOVoting.Executed)
  ∧ (st = Ok DAOVoting.Active → execute (dao w) = Revert VotingNotEnded)
  ∧ (st = Ok DAOVoting.Canceled ∨ st = Ok DAOVoting.Executed →
     fails cancel (dao w) ∧ fails execute (dao w)).
Proof.
  intros Hinv p st cancel execute.
  pose proof (state_cases w proposalId Hinv) as Hst.
  cbv zeta in Hst. fold p st in Hst.
  destruct Hst as (Hunk & Hcan & Hexe & Hact & Hclosed).
  assert (Hlive : DAOVoting.id p ≠ 0 → DAOVoting.canceled p = false →
            DAOVoting.executed p = false →
            st = Ok DAOVoting.Active ∨ st = Ok DAOVoting.Succeeded
            ∨ st = Ok DAOVoting.Defeated).
  { intros Hid Hc He.
    destruct (decide (number w <= DAOVoting.endBlock p)) as [Hle|Hgt].
    - left. by apply Hact.
    - destruct (Hclosed Hid Hc He) as (_ & [?|?] & _); [lia | auto | auto]. }
  assert (Hflags : st = Ok DAOVoting.Active ∨ st = Ok DAOVoting.Succeeded
                   ∨ st = Ok DAOVoting.Defeated →
            DAOVoting.id p ≠ 0 ∧ DAOVoting.canceled p = false
            ∧ DAOVoting.executed p = false).
  { intros Hs.
    destruct (decide (DAOVoting.id p = 0)) as [Hz|Hid].
    { rewrite (Hunk Hz) in Hs. destruct Hs as [?|[?|?]]; discriminate. }
    split; [done|].
    destruct (DAOVoting.canceled p) eqn:Hc.
    { rewrite (Hcan Hid eq_refl) in Hs. destruct Hs as [?|[?|?]]; discriminate. }
    split; [done|].
    destruct (DAOVoting.executed p) eqn:He; [|done].
    rewrite (Hexe Hid eq_refl) in Hs. destruct Hs as [?|[?|?]]; discriminate. }
  split; [|split; [|split]].
  - intros s' H. subst cancel.
    destruct (cancelProposal_returns _ _ _ _ H) as [(_ & Hid & Hc & He) ->].
    fold p in Hid, Hc, He |- *. split; [by apply Hlive|].
    apply state_flagged; rewrite getProposal_written; done.
  - intros s' H. subst execute.
    destruct (executeProposal_returns _ _ _ _ _ _ H) as [(Hid & Hc & He & Hend & Hs) ->].
    fold p in Hid, Hc, He, Hend |- *. split; [done|]. split; [done|].
    apply state_flagged; rewrite getProposal_written; done.
  - intros Hactive. subst execute.
    destruct Hflags as (Hid & Hc & He); [by left|].
    assert (Hend : number w <= DAOVoting.endBlock p).
    { destruct (decide (number w <= DAOVoting.endBlock p)) as [Hle|Hgt]; [done|].
      destruct (Hclosed Hid Hc He) as (_ & [H|H] & _); [lia | |];
        rewrite H in Hactive; discriminate. }
    unfold DAOVoting.executeProposal, bind, gets, require, revert, ret. fold p.
    repeat (case_decide; simpl; try done; try lia).
  - intros Hterm.
    assert (Hflag : terminal (dao w) proposalId).
    { unfold terminal. fold p.
      destruct (decide (DAOVoting.id p = 0)) as [Hz|Hid].
      { rewrite (Hunk Hz) in Hterm. destruct Hterm; discriminate. }
      destruct (DAOVoting.canceled p) eqn:Hc; [by left|].
      destruct (DAOVoting.executed p) eqn:He; [by right|]. exfalso.
      destruct (Hlive Hid eq_refl eq_refl) as [H|[H|H]];
        rewrite H in Hterm; destruct Hterm; discriminate. }
    destruct Hinv as [_ Hdao].
    destruct (terminal_fails (token w) (number w) (dao w) sender proposalId true
                Hdao Hflag) as (_ & (e1 & H1 & _) & (e2 & H2 & _)).
    split; [by exists e1 | by exists e2].
Qed.

(** The claim as worded fails: in the scenario, with the window closed and
    the proposal [Succeeded] (not [Active]), both [executeProposal] and
    [cancelProposal] return. *)
Lemma terminal_entry_counterexample :
  DAOVoting.state (token Scenario.closed) (number Scenario.closed)
    (dao Scenario.closed) 1 = Ok DAOVoting.Succeeded
  ∧ DAOVoting.executeProposal (token Scenario.closed) (number Scenario.closed)
      Scenario.david 1 (dao Scenario.closed)
    = Ok (tt, dao Scenario.executed)
  ∧ DAOVoting.cancelProposal Scenario.owner 1 (dao Scenario.closed)
    = Ok (tt, dao (step Scenario.closed (DaoTx Scenario.owner (CancelProposal 1)))).
Proof. evaluate. Qed.

Lemma terminal_entry_witness :
  DAOVoting.state (token Scenario.closed) (number Scenario.closed)
    (dao Scenario.executed) 1 = Ok DAOVoting.Executed
  ∧ DAOVoting.executeProposal (token Scenario.voted) (number Scenario.voted)
      Scenario.david 1 (dao Scenario.voted) = Revert VotingNotEnded.
Proof.
  split.
  - destruct (terminal_entry Scenario.closed Scenario.david 1 (scenario_inv _))
      as (_ & Hexec & _).
    apply (Hexec (dao Scenario.executed)). evaluate.
  - destruct (terminal_entry Scenario.voted Scenario.david 1 (scenario_inv _))
      as (_ & _ & Hactive & _).
    apply Hactive. evaluate.
Defined.

(** C6. Quorum monotonicity.  With the storage, the token and the block
    number fixed, if [state] computes [Defeated] under numerator [q] it
    computes [Defeated] under every numerator [q' >= q]; so raising the
    numerator never turns [Defeated] into [Succeeded], and what is
    [Succeeded] under [q'] is [Succeeded] under [q].  [Defeated] is only
    computed for a stored proposal, neither canceled nor executed, whose
    window has closed. *)
Theorem quorum_monotonicity (tk : TestToken.State) (now : N) (s : DAOVoting.State)
    (proposalId : N) (q q' : N) :
  token_inv now tk → q <= q' → q' <= MAX_UINT16 →
  let p := DAOVoting.getProposal s proposalId in
  let state_under n :=
    DAOVoting.state tk now (DAOVoting.set_quorumNumerator n s) proposalId in
  (state_under q = Ok DAOVoting.Defeated →
     state_under q' = Ok DAOVoting.Defeated
     ∧ DAOVoting.id p ≠ 0 ∧ DAOVoting.canceled p = false
     ∧ DAOVoting.executed p = false ∧ DAOVoting.endBlock p < now)
  ∧ (state_under q' = Ok DAOVoting.Succeeded → state_under q = Ok DAOVoting.Succeeded).
Proof.
  intros Htk Hle Hq' p state_under.
  assert (Hclosed : ∀ n r, n <= MAX_UINT16 →
            state_under n = Ok r → r = DAOVoting.Succeeded ∨ r = DAOVoting.Defeated →
            DAOVoting.id p ≠ 0 ∧ DAOVoting.canceled p = false
            ∧ DAOVoting.executed p = false ∧ DAOVoting.endBlock p < now
            ∧ DAOVoting.snapshotBlock p < now).
  { intros n r Hn H Hr. unfold state_under, DAOVoting.state in H.
    change (DAOVoting.getProposal (DAOVoting.set_quorumNumerator n s) proposalId)
      with p in H.
    case_decide; [destruct Hr; congruence|].
    destruct (DAOVoting.canceled p); [destruct Hr; congruence|].
    destruct (DAOVoting.executed p); [destruct Hr; congruence|].
    case_decide; [destruct Hr; congruence|].
    unfold TestToken.getPastTotalSupply in H.
    case_decide; [discriminate|]. repeat split; auto; lia. }
  assert (Hunder : ∀ n, n <= MAX_UINT16 →
            DAOVoting.id p ≠ 0 → DAOVoting.canceled p = false →
            DAOVoting.executed p = false → DAOVoting.endBlock p < now →
            DAOVoting.snapshotBlock p < now →
            state_under n
            = Ok (if decide (valueAt (TestToken._totalCheckpoints tk)
                               (DAOVoting.snapshotBlock p) * n / 100
                             <= DAOVoting.forVotes p
                             ∧ DAOVoting.againstVotes p < DAOVoting.forVotes p)
                  then DAOVoting.Succeeded else DAOVoting.Defeated)).
  { intros n Hn Hid Hc He Hend Hsnap. unfold state_under.
    by rewrite state_closed. }
  assert (Hmono : valueAt (TestToken._totalCheckpoints tk) (DAOVoting.snapshotBlock p)
                    * q / 100
                  <= valueAt (TestToken._totalCheckpoints tk) (DAOVoting.snapshotBlock p)
                    * q' / 100).
  { apply N.Div0.div_le_mono. by apply N.mul_le_mono_l. }
  assert (Hq : q <= MAX_UINT16) by lia.
  split.
  - intros H.
    destruct (Hclosed q _ Hq H) as (Hid & Hc & He & Hend & Hsnap); [by right|].
    split; [|done].
    rewrite (Hunder q Hq Hid Hc He Hend Hsnap) in H.
    rewrite (Hunder q' Hq' Hid Hc He Hend Hsnap).
    repeat case_decide; first [done | discriminate | exfalso; lia].
  - intros H.
    destruct (Hclosed q' _ Hq' H) as (Hid & Hc & He & Hend & Hsnap); [by left|].
    rewrite (Hunder q' Hq' Hid Hc He Hend Hsnap) in H.
    rewrite (Hunder q Hq Hid Hc He Hend Hsnap).
    repeat case_decide; first [done | discriminate | exfalso; lia].
Qed.

(** With 1,650,000 tokens at the snapshot and 500,000 votes for, proposal 1
    is defeated under a numerator of 40 and stays defeated under 75. *)
Lemma quorum_monotonicity_witness :
  DAOVoting.state (token Scenario.closed) (number Scenario.closed)
    (DAOVoting.set_quorumNumerator 75 (dao Scenario.closed)) 1 = Ok DAOVoting.Defeated.
Proof.
  destruct (quorum_monotonicity (token Scenario.closed) (number Scenario.closed)
              (dao Scenario.closed) 1 40 75) as [H _].
  - apply (scenario_inv Scenario.closed_trace).
  - lia.
  - evaluate.
  - apply H. evaluate.
Defined.

(** C7. Parameter asymmetry.  A [setQuorumNumerator] call that returns
    leaves every stored proposal as it was and installs the new numerator,
    and [state] then computes the quorum of a proposal created before the
    change with the new numerator.  A [setVotingPeriodBlocks] call that
    returns leaves every stored proposal as it was, its snapshot, start and
    end blocks included, and the state of each unchanged; the new period is
    used for the end block of proposals created afterwards. *)
Theorem parameter_asymmetry (w : World) (sender : address) (n : N) (proposalId : N) :
  inv w →
  let p := DAOVoting.getProposal (dao w) proposalId in
  let supply :=
    valueAt (TestToken._totalCheckpoints (token w)) (DAOVoting.snapshotBlock p) in
  (∀ s', DAOVoting.setQuorumNumerator sender n (dao w) = Ok (tt, s') →
     DAOVoting.proposals s' = DAOVoting.proposals (dao w)
     ∧ DAOVoting.quorumNumerator s' = n
     ∧ DAOVoting.votingPeriodBlocks s' = DAOVoting.votingPeriodBlocks (dao w)
     ∧ (DAOVoting.id p ≠ 0 → DAOVoting.canceled p = false →
        DAOVoting.executed p = false → DAOVoting.endBlock p < number w →
        DAOVoting.state (token w) (number w) s' proposalId
        = Ok (if decide (supply * n / 100 <= DAOVoting.forVotes p
                         ∧ DAOVoting.againstVotes p < DAOVoting.forVotes p)
              then DAOVoting.Succeeded else DAOVoting.Defeated)))
  ∧ (∀ s', DAOVoting.setVotingPeriodBlocks sender n (dao w) = Ok (tt, s') →
     DAOVoting.proposals s' = DAOVoting.proposals (dao w)
     ∧ DAOVoting.votingPeriodBlocks s' = n
     ∧ DAOVoting.quorumNumerator s' = DAOVoting.quorumNumerator (dao w)
     ∧ DAOVoting.state (token w) (number w) s' proposalId
       = DAOVoting.state (token w) (number w) (dao w) proposalId
     ∧ (∀ now' sender' description pid s'',
          DAOVoting.createProposal now' sender' description s' = Ok (pid, s'') →
          DAOVoting.endBlock (DAOVoting.getProposal s'' pid) = now' + n
          ∧ (DAOVoting.id p ≠ 0 → DAOVoting.getProposal s'' proposalId = p))).
Proof.
  intros [Htk Hdao] p supply. split.
  - intros s' H.
    destruct (setQuorumNumerator_returns _ _ _ _ H) as [(_ & _ & Hn) ->]. simpl.
    split; [done|]. split; [done|]. split; [done|].
    intros Hid Hc He Hend.
    destruct Hdao as (Hp & _).
    destruct (Hp _ _ (getProposal_stored _ _ Hid)) as [(_&_&Hsnap&Hse&_) _].
    fold p in Hsnap, Hse.
    apply (state_closed (token w) (number w)
             (DAOVoting.mkState (DAOVoting._owner (dao w))
                (DAOVoting.governanceToken (dao w)) n
                (DAOVoting.votingPeriodBlocks (dao w))
                (DAOVoting._nextProposalId (dao w)) (DAOVoting.proposals (dao w))
                (DAOVoting.hasVoted (dao w))
                (DAOVoting.emitted (dao w) ++ [DAOVoting.Events.QuorumChanged n]))
             proposalId); simpl; try done.
    + etransitivity; [exact Hn|]. by vm_compute.
    + change (DAOVoting.snapshotBlock p < number w). lia.
  - intros s' H.
    destruct (setVotingPeriodBlocks_returns _ _ _ _ H) as [_ ->]. simpl.
    split; [done|]. split; [done|]. split; [done|]. split; [done|].
    intros now' sender' description pid s'' Hcreate.
    rewrite createProposal_unfold in Hcreate. simpl in Hcreate.
    case_decide; [|discriminate]. case_decide; [|discriminate].
    injection Hcreate as <- <-. split.
    + by rewrite getProposal_written.
    + intros Hid. pose proof (getProposal_stored _ _ Hid) as Hst.
      destruct Hdao as (Hp & _). destruct (Hp _ _ Hst) as [_ Hlt].
      rewrite getProposal_other by lia. done.
Qed.

(** In the scenario the owner raises the numerator to 40 after the window
    has closed: proposal 1, created before and [Succeeded] until then, is
    [Defeated] from then on. *)
Lemma parameter_asymmetry_witness :
  let s' := dao (step Scenario.closed (DaoTx Scenario.owner (SetQuorumNumerator 40))) in
  DAOVoting.state (token Scenario.closed) (number Scenario.closed)
    (dao Scenario.closed) 1 = Ok DAOVoting.Succeeded
  ∧ DAOVoting.state (token Scenario.closed) (number Scenario.closed) s' 1
    = Ok DAOVoting.Defeated.
Proof.
  intros s'. split; [evaluate|].
  destruct (parameter_asymmetry Scenario.closed Scenario.owner 40 1 (scenario_inv _))
    as [Hquorum _].
  destruct (Hquorum s') as (_ & _ & _ & ->); evaluate.
Defined.

(** C8, as the code has it.  [createProposal] hands out identities in
    sequence from 1 (0 is never handed out: it is what an empty slot reads
    as).  In every reachable world the identities created so far are
    1, ..., [_nextProposalId - 1].  Not every call returns: the end block
    [block.number + votingPeriodBlocks] and the next identity are computed in
    checked 256-bit arithmetic, and the call fails with an arithmetic panic
    exactly when one of them overflows.  Otherwise the call returns
    [_nextProposalId] and advances it by one, and stores under it a proposal
    whose snapshot and start block are the current block, whose end block is
    the start block plus the current [votingPeriodBlocks], with both tallies
    zero and both flags clear, leaving every other proposal as it was. *)
Theorem createProposal_spec (w : World) (sender : address) (description : string) :
  reachable w →
  let s := dao w in
  let now := number w in
  let pid := DAOVoting._nextProposalId s in
  let period := DAOVoting.votingPeriodBlocks s in
  1 <= pid
  ∧ created_ids s = ids_below pid
  ∧ DAOVoting.id (DAOVoting.getProposal s pid) = 0
  ∧ (now + period <= MAX_UINT256 → pid + 1 <= MAX_UINT256 →
     ∃ s', DAOVoting.createProposal now sender description s = Ok (pid, s')
           ∧ DAOVoting._nextProposalId s' = pid + 1
           ∧ created_ids s' = ids_below pid ++ [pid]
           ∧ DAOVoting.getProposal s' pid
             = DAOVoting.mkProposal pid sender description now now (now + period)
                 0 0 false false
           ∧ (∀ k, k ≠ pid → DAOVoting.getProposal s' k = DAOVoting.getProposal s k))
  ∧ (MAX_UINT256 < now + period ∨ MAX_UINT256 < pid + 1 →
     DAOVoting.createProposal now sender description s = Revert ArithmeticPanic)
  ∧ (∀ e, DAOVoting.createProposal now sender description s = Revert e →
          e = ArithmeticPanic
          ∧ ¬ (now + period <= MAX_UINT256 ∧ pid + 1 <= MAX_UINT256)).
Proof.
  intros Hreach s now pid period.
  destruct (reachable_ids w Hreach) as [Hone Hids].
  destruct (reachable_inv w Hreach) as [_ Hdao].
  pose proof (dao_inv_fresh _ _ Hdao) as Hfresh.
  fold s pid in Hone, Hids, Hfresh.
  split; [done|]. split; [done|]. split.
  { unfold DAOVoting.getProposal, mget. by rewrite Hfresh. }
  split.
  - intros Hend Hnext. rewrite createProposal_unfold. fold s now pid period.
    rewrite decide_True by done. rewrite decide_True by done.
    eexists. split; [reflexivity|]. split; [done|]. split.
    + unfold created_ids in *. simpl. rewrite omap_app, Hids. done.
    + split; [by rewrite getProposal_written|].
      intros k Hk. by rewrite getProposal_other.
  - split.
    + intros Hover. rewrite createProposal_unfold. fold s now pid period.
      repeat case_decide; first [done | exfalso; lia].
    + intros e He. rewrite createProposal_unfold in He. fold s now pid period in He.
      repeat case_decide; try discriminate; injection He as <-; (split; [done | tauto]).
Qed.

(** The claim as worded fails: [setVotingPeriodBlocks] accepts every
    positive period, and after the owner has set the largest one no call of
    [createProposal] returns. *)
Lemma createProposal_spec_counterexample :
  reachable (run (Scenario.fixture_trace
                  ++ [ DaoTx Scenario.owner (SetVotingPeriodBlocks MAX_UINT256) ])
               Scenario.genesis)
  ∧ DAOVoting.votingPeriodBlocks
      (dao (run (Scenario.fixture_trace
                 ++ [ DaoTx Scenario.owner (SetVotingPeriodBlocks MAX_UINT256) ])
              Scenario.genesis)) = MAX_UINT256
  ∧ DAOVoting.createProposal
      (number (run (Scenario.fixture_trace
                    ++ [ DaoTx Scenario.owner (SetVotingPeriodBlocks MAX_UINT256) ])
                 Scenario.genesis))
      Scenario.alice "Test"
      (dao (run (Scenario.fixture_trace
                 ++ [ DaoTx Scenario.owner (SetVotingPeriodBlocks MAX_UINT256) ])
              Scenario.genesis))
    = Revert ArithmeticPanic.
Proof. split; [apply scenario_reachable | evaluate]. Qed.

(** In the scenario, after proposal 1, the next proposal is number 2. *)
Lemma createProposal_spec_witness :
  ∃ s', DAOVoting.createProposal (number Scenario.voted) Scenario.bob "Second"
          (dao Scenario.voted) = Ok (2, s')
        ∧ DAOVoting.endBlock (DAOVoting.getProposal s' 2) = 23.
Proof.
  destruct (createProposal_spec Scenario.voted Scenario.bob "Second"
              (scenario_reachable _)) as (_ & _ & _ & Hreturns & _).
  destruct Hreturns as (s' & Hs' & _ & _ & Hp & _); [evaluate ..|].
  assert (E : DAOVoting._nextProposalId (dao Scenario.voted) = 2) by evaluate.
  rewrite E in Hs', Hp.
  exists s'. split; [exact Hs'|]. rewrite Hp. evaluate.
Defined.

(** C9. [executeProposal] fails with [ProposalNotFound] on an absent
    proposal, with [ProposalCanceled] on a canceled one, with
    [AlreadyExecuted] on an executed one, with [VotingNotEnded] while the
    block number has not passed the end block, and with
    [ProposalNotSuccessful] when the computed state is not [Succeeded].  It
    returns exactly when none of these holds, and then the executed flag of
    the proposal is set, its state is [Executed], and nothing else in it has
    changed, nor any other proposal, receipt or parameter. *)
Theorem executeProposal_outcomes (w : World) (sender : address) (proposalId : N) :
  inv w →
  let s := dao w in
  let p := DAOVoting.getProposal s proposalId in
  let st := DAOVoting.state (token w) (number w) s proposalId in
  let call := DAOVoting.executeProposal (token w) (number w) sender proposalId in
  (DAOVoting.id p = 0 → call s = Revert ProposalNotFound)
  ∧ (DAOVoting.id p ≠ 0 → DAOVoting.canceled p = true →
     call s = Revert ProposalCanceled)
  ∧ (DAOVoting.id p ≠ 0 → DAOVoting.executed p = true →
     call s = Revert AlreadyExecuted)
  ∧ (DAOVoting.id p ≠ 0 → DAOVoting.canceled p = false → DAOVoting.executed p = false →
     number w <= DAOVoting.endBlock p → call s = Revert VotingNotEnded)
  ∧ (DAOVoting.id p ≠ 0 → DAOVoting.canceled p = false → DAOVoting.executed p = false →
     DAOVoting.endBlock p < number w → st ≠ Ok DAOVoting.Succeeded →
     call s = Revert ProposalNotSuccessful)
  ∧ (DAOVoting.id p ≠ 0 → DAOVoting.canceled p = false → DAOVoting.executed p = false →
     DAOVoting.endBlock p < number w → st = Ok DAOVoting.Succeeded →
     ∃ s', call s = Ok (tt, s'))
  ∧ (∀ s', call s = Ok (tt, s') →
     (DAOVoting.id p ≠ 0 ∧ DAOVoting.canceled p = false ∧ DAOVoting.executed p = false
      ∧ DAOVoting.endBlock p < number w ∧ st = Ok DAOVoting.Succeeded)
     ∧ DAOVoting.executed (DAOVoting.getProposal s' proposalId) = true
     ∧ DAOVoting.state (token w) (number w) s' proposalId = Ok DAOVoting.Executed
     ∧ DAOVoting.id (DAOVoting.getProposal s' proposalId) = DAOVoting.id p
     ∧ DAOVoting.proposer (DAOVoting.getProposal s' proposalId) = DAOVoting.proposer p
     ∧ DAOVoting.description (DAOVoting.getProposal s' proposalId)
       = DAOVoting.description p
     ∧ DAOVoting.snapshotBlock (DAOVoting.getProposal s' proposalId)
       = DAOVoting.snapshotBlock p
     ∧ DAOVoting.startBlock (DAOVoting.getProposal s' proposalId) = DAOVoting.startBlock p
     ∧ DAOVoting.endBlock (DAOVoting.getProposal s' proposalId) = DAOVoting.endBlock p
     ∧ DAOVoting.forVotes (DAOVoting.getProposal s' proposalId) = DAOVoting.forVotes p
     ∧ DAOVoting.againstVotes (DAOVoting.getProposal s' proposalId)
       = DAOVoting.againstVotes p
     ∧ DAOVoting.canceled (DAOVoting.getProposal s' proposalId) = false
     ∧ (∀ k, k ≠ proposalId → DAOVoting.getProposal s' k = DAOVoting.getProposal s k)
     ∧ DAOVoting.hasVoted s' = DAOVoting.hasVoted s
     ∧ DAOVoting.quorumNumerator s' = DAOVoting.quorumNumerator s
     ∧ DAOVoting.votingPeriodBlocks s' = DAOVoting.votingPeriodBlocks s
     ∧ DAOVoting._nextProposalId s' = DAOVoting._nextProposalId s
     ∧ DAOVoting._owner s' = DAOVoting._owner s).
Proof.
  intros Hinv s p st call.
  pose proof (state_cases w proposalId Hinv) as Hst.
  cbv zeta in Hst. fold s p st in Hst.
  destruct Hst as (_ & _ & _ & _ & Hclosed).
  destruct Hinv as [_ Hdao].
  assert (Hwf : DAOVoting.id p ≠ 0 → proposal_wf (number w) proposalId p).
  { intros Hid. destruct Hdao as (Hp & _).
    apply (Hp _ _ (getProposal_stored _ _ Hid)). }
  assert (Hrun : ∀ r, st = r →
            call s
            = if decide (DAOVoting.id p ≠ 0) then
                if decide (DAOVoting.canceled p = false) then
                  if decide (DAOVoting.executed p = false) then
                    if decide (DAOVoting.endBlock p < number w) then
                      match r with
                      | Ok x =>
                          if decide (x = DAOVoting.Succeeded) then
                            Ok (tt, DAOVoting.mkState (DAOVoting._owner s)
                                      (DAOVoting.governanceToken s)
                                      (DAOVoting.quorumNumerator s)
                                      (DAOVoting.votingPeriodBlocks s)
                                      (DAOVoting._nextProposalId s)
                                      (<[proposalId := DAOVoting.set_executed true p]>
                                         (DAOVoting.proposals s))
                                      (DAOVoting.hasVoted s)
                                      (DAOVoting.emitted s
                                       ++ [DAOVoting.Events.ProposalExecuted proposalId]))
                          else Revert ProposalNotSuccessful
                      | Revert e => Revert e
                      end
                    else Revert VotingNotEnded
                  else Revert AlreadyExecuted
                else Revert ProposalCanceled
              else Revert ProposalNotFound).
  { intros r <-. unfold call, DAOVoting.executeProposal, DAOVoting.update_proposal,
      DAOVoting.emit, bind, gets, get, require, static, modify, ret, revert.
    fold s p. repeat (case_decide; simpl; try done).
    fold st. destruct st as [x|e]; simpl; [|done].
    by case_decide. }
  split; [|split; [|split; [|split; [|split; [|split]]]]].
  - intros Hid. rewrite (Hrun st eq_refl). by rewrite decide_False by tauto.
  - intros Hid Hc. rewrite (Hrun st eq_refl).
    rewrite decide_True by done. rewrite decide_False; [done | congruence].
  - intros Hid He. destruct (Hwf Hid) as (_&_&_&_&_&_&Hce).
    assert (Hc : DAOVoting.canceled p = false).
    { destruct (DAOVoting.canceled p); [|done]. specialize (Hce eq_refl). congruence. }
    rewrite (Hrun st eq_refl).
    rewrite !decide_True by done. rewrite decide_False; [done | congruence].
  - intros Hid Hc He Hend. rewrite (Hrun st eq_refl).
    rewrite !decide_True by done. rewrite decide_False; [done | lia].
  - intros Hid Hc He Hend Hns. rewrite (Hrun st eq_refl).
    rewrite !decide_True by done.
    destruct (Hclosed Hid Hc He Hend) as (_ & [Hs|Hd] & _); [done|].
    rewrite Hd. by rewrite decide_False.
  - intros Hid Hc He Hend Hs. rewrite (Hrun st eq_refl).
    rewrite !decide_True by done. rewrite Hs. rewrite decide_True by done. eauto.
  - intros s' H. subst call.
    destruct (executeProposal_returns _ _ _ _ _ _ H) as [Hpre ->].
    fold s p st in Hpre |- *. split; [exact Hpre|].
    destruct Hpre as (Hid & Hc & _).
    split; [by rewrite getProposal_written|].
    split.
    { apply state_flagged; rewrite getProposal_written; done. }
    rewrite getProposal_written. simpl.
    do 8 (split; [done|]). split; [done|].
    split; [intros k Hk; by rewrite getProposal_other|]. done.
Qed.

(** In the scenario anyone can execute proposal 1 once the window has
    closed: the flag is then set, the state is [Executed] and the tally is
    still the 500000 of the two votes.  Nobody can while the window is
    open. *)
Lemma executeProposal_outcomes_witness :
  (∃ s', DAOVoting.executeProposal (token Scenario.closed) (number Scenario.closed)
           Scenario.david 1 (dao Scenario.closed) = Ok (tt, s')
         ∧ DAOVoting.executed (DAOVoting.getProposal s' 1) = true
         ∧ DAOVoting.state (token Scenario.closed) (number Scenario.closed) s' 1
           = Ok DAOVoting.Executed
         ∧ DAOVoting.forVotes (DAOVoting.getProposal s' 1) = 500000)
  ∧ DAOVoting.executeProposal (token Scenario.voted) (number Scenario.voted)
      Scenario.david 1 (dao Scenario.voted) = Revert VotingNotEnded.
Proof.
  split.
  - destruct (executeProposal_outcomes Scenario.closed Scenario.david 1 (scenario_inv _))
      as (_ & _ & _ & _ & _ & Hreturns & Heffect).
    destruct Hreturns as [s' Hs']; [evaluate ..|].
    exists s'. split; [exact Hs'|].
    destruct (Heffect s' Hs')
      as (_ & Hx & Hst & _ & _ & _ & _ & _ & _ & Hfor & _).
    split; [exact Hx|]. split; [exact Hst|].
    etransitivity; [exact Hfor | evaluate].
  - destruct (executeProposal_outcomes Scenario.voted Scenario.david 1 (scenario_inv _))
      as (_ & _ & _ & Hopen & _).
    apply Hopen; evaluate.
Defined.

(** C10. A vote cast in the block in which the proposal was created fails.
    The start block is the snapshot block, so the window checks pass
    ([startBlock <= block.number <= endBlock]), but the weight lookup refuses
    a sequence number that is not strictly below the current one: a vote
    that gets as far as the lookup fails with [FutureSequenceQuery], and a
    vote that returns was cast at a block strictly after the start block. *)
Theorem vote_at_start_fails (w : World) (sender : address) (proposalId : N)
    (support : bool) :
  inv w →
  let s := dao w in
  let p := DAOVoting.getProposal s proposalId in
  let call := DAOVoting.vote (token w) (number w) sender proposalId support in
  (number w = DAOVoting.startBlock p → fails call s)
  ∧ (DAOVoting.id p ≠ 0 → DAOVoting.canceled p = false →
     DAOVoting.hasVotedAt s proposalId sender = false →
     number w = DAOVoting.startBlock p →
     DAOVoting.startBlock p <= number w <= DAOVoting.endBlock p
     ∧ DAOVoting.snapshotBlock p = DAOVoting.startBlock p
     ∧ call s = Revert FutureSequenceQuery)
  ∧ (∀ s', call s = Ok (tt, s') → DAOVoting.startBlock p < number w).
Proof.
  intros [_ Hdao] s p call.
  assert (Hwf : DAOVoting.id p ≠ 0 → proposal_wf (number w) proposalId p).
  { intros Hid. destruct Hdao as (Hp & _).
    apply (Hp _ _ (getProposal_stored _ _ Hid)). }
  assert (Hlookup : DAOVoting.id p ≠ 0 → number w = DAOVoting.startBlock p →
            TestToken.getPastVotes (number w) (token w) sender (DAOVoting.snapshotBlock p)
            = Revert FutureSequenceQuery).
  { intros Hid Hnow. destruct (Hwf Hid) as (_&_&Hsnap&_).
    unfold TestToken.getPastVotes. case_decide; [done | lia]. }
  subst call. split; [|split].
  - intros Hnow. unfold fails. unfold_call. fold s p.
    case_decide as Hid; simpl; [|by eexists].
    rewrite (Hlookup Hid Hnow). simpl.
    repeat (case_decide; simpl; try by eexists).
  - intros Hid Hc Hv Hnow. destruct (Hwf Hid) as (_&_&Hsnap&Hse&_).
    split; [lia|]. split; [done|].
    unfold_call. fold s p. rewrite (Hlookup Hid Hnow). guards.
  - intros s' H.
    destruct (decide (DAOVoting.startBlock p < number w)) as [|Hge]; [done|]. exfalso.
    unfold_call. fold s p in H.
    case_decide as Hid; simpl in H; [|discriminate].
    destruct (Hwf Hid) as (_&_&Hsnap&Hse&Hsn&_).
    rewrite (Hlookup Hid) in H by lia. guards.
Qed.

(** In the scenario alice, who holds 300000 delegated votes, cannot vote in
    block 11, the block in which proposal 1 was created. *)
Lemma vote_at_start_fails_witness :
  DAOVoting.vote (token Scenario.created) (number Scenario.created) Scenario.alice 1 true
    (dao Scenario.created) = Revert FutureSequenceQuery
  ∧ TestToken.getVotes (token Scenario.created) Scenario.alice = 300000.
Proof.
  split; [|evaluate].
  apply (vote_at_start_fails Scenario.created Scenario.alice 1 true (scenario_inv _));
    evaluate.
Defined.

(** * Further properties of the contracts *)

Module Effects.
Import DAOVoting.

(** ** What each returning call did

    One lemma per function: the guards that must have held and the storage
    the call left. *)

Lemma vote_returns tk now sender proposalId support s s' :
  vote tk now sender proposalId support s = Ok (tt, s') →
  let p := getProposal s proposalId in
  ∃ weight,
    (id p ≠ 0 ∧ canceled p = false ∧ startBlock p <= now <= endBlock p
     ∧ hasVotedAt s proposalId sender = false
     ∧ TestToken.getPastVotes now tk sender (snapshotBlock p) = Ok weight
     ∧ 0 < weight
     ∧ (if support then forVotes p else againstVotes p) + weight <= MAX_UINT256)
    ∧ s' = mkState (_owner s) (governanceToken s) (quorumNumerator s)
             (votingPeriodBlocks s) (_nextProposalId s)
             (<[proposalId := if support
                              then set_forVotes (forVotes p + weight) p
                              else set_againstVotes (againstVotes p + weight) p]>
                (proposals s))
             (<[proposalId := <[sender := true]> (mget ∅ (hasVoted s) proposalId)]>
                (hasVoted s))
             (emitted s ++ [Events.VoteCast sender proposalId support weight]).
Proof.
  intros H p. unfold_call. fold p in H.
  case_decide; simpl in H; [|discriminate].
  case_decide; simpl in H; [|discriminate].
  case_decide; simpl in H; [|discriminate].
  case_decide; simpl in H; [|discriminate].
  case_decide; simpl in H; [|discriminate].
  destruct (TestToken.getPastVotes now tk sender (snapshotBlock p)) as [weight|e];
    simpl in H; [|discriminate].
  case_decide; simpl in H; [|discriminate].
  exists weight. destruct support; simpl in H.
  - case_decide; simpl in H; [|discriminate]. injection H as <-. done.
  - case_decide; simpl in H; [|discriminate]. injection H as <-. done.
Qed.

Lemma transferOwnership_returns sender newOwner s s' :
  transferOwnership sender newOwner s = Ok (tt, s') →
  (_owner s = sender ∧ newOwner ≠ address0)
  ∧ s' = mkState newOwner (governanceToken s) (quorumNumerator s)
           (votingPeriodBlocks s) (_nextProposalId s) (proposals s) (hasVoted s)
           (emitted s ++ [Events.OwnershipTransferred (_owner s) newOwner]).
Proof.
  intros H. unfold_call.
  case_decide; simpl in H; [|discriminate].
  case_decide; simpl in H; [|discriminate].
  injection H as <-. done.
Qed.

Lemma renounceOwnership_returns sender s s' :
  renounceOwnership sender s = Ok (tt, s') →
  _owner s = sender
  ∧ s' = mkState address0 (governanceToken s) (quorumNumerator s)
           (votingPeriodBlocks s) (_nextProposalId s) (proposals s) (hasVoted s)
           (emitted s ++ [Events.OwnershipTransferred (_owner s) address0]).
Proof.
  intros H. unfold_call.
  case_decide; simpl in H; [|discriminate].
  injection H as <-. done.
Qed.

End Effects.

Module Ledger.
Import DAOVoting Accounting Effects.

(** ** The log and the storage stay in step *)

Lemma cast_total_snoc pid sup log e :
  cast_total pid sup (log ++ [e]) = cast_total pid sup log + cast_weight pid sup e.
Proof.
  unfold cast_total. induction log as [|x log IH]; simpl; [lia|].
  rewrite IH. lia.
Qed.

Lemma voters_snoc pid log e :
  voters pid (log ++ [e])
  = voters pid log ++ match cast_by pid e with Some v => [v] | None => [] end.
Proof.
  unfold voters. rewrite omap_app. simpl. by destruct (cast_by pid e).
Qed.

(** A storage that differs from [s] in the owner, the parameters, and by
    one event that announces no vote. *)
Lemma tallies_match_quiet s o g q v n h e :
  (∀ pid sup, cast_weight pid sup e = 0) →
  tallies_match s →
  tallies_match (mkState o g q v n (proposals s) h (emitted s ++ [e])).
Proof.
  intros He Hs pid. destruct (Hs pid) as [Hf Ha].
  unfold getProposal in *. simpl. rewrite !cast_total_snoc, !He. split; lia.
Qed.

Lemma tallies_match_flag s o g q v n h e pid0 f :
  (∀ pid sup, cast_weight pid sup e = 0) →
  (∀ p, forVotes (f p) = forVotes p ∧ againstVotes (f p) = againstVotes p) →
  tallies_match s →
  tallies_match (mkState o g q v n
                   (<[pid0 := f (getProposal s pid0)]> (proposals s)) h
                   (emitted s ++ [e])).
Proof.
  intros He Hf Hs pid. destruct (Hs pid) as [Hfor Hag].
  simpl. rewrite !cast_total_snoc, !He.
  destruct (decide (pid = pid0)) as [->|Hne].
  - rewrite getProposal_written. destruct (Hf (getProposal s pid0)) as [-> ->].
    split; lia.
  - rewrite getProposal_other by done. fold (mget zeroProposal (proposals s) pid).
    fold (getProposal s pid). split; lia.
Qed.

(** Every returning call keeps the tallies equal to the announced totals. *)
Lemma dao_call_tallies tk now sender c s s' :
  dao_inv now s → tallies_match s →
  Chain.dao_call tk now sender c s = Ok (tt, s') → tallies_match s'.
Proof.
  intros Hinv Hs H. destruct c; simpl in H.
  - (* createProposal *)
    unfold bind, ret in H. rewrite createProposal_unfold in H.
    repeat case_decide; try discriminate. injection H as <-.
    pose proof (dao_inv_fresh _ _ Hinv) as Hfresh.
    intros pid. destruct (Hs pid) as [Hfor Hag].
    simpl. rewrite !cast_total_snoc. simpl.
    destruct (decide (pid = _nextProposalId s)) as [->|Hne].
    + rewrite getProposal_written. simpl.
      unfold getProposal, mget in Hfor, Hag. rewrite Hfresh in Hfor, Hag.
      simpl in Hfor, Hag. split; lia.
    + rewrite getProposal_other by done. fold (mget zeroProposal (proposals s) pid).
      fold (getProposal s pid). split; lia.
  - (* vote *)
    destruct (vote_returns _ _ _ _ _ _ _ H) as (weight & _ & ->).
    intros pid. destruct (Hs pid) as [Hfor Hag].
    simpl. rewrite !cast_total_snoc. simpl.
    destruct (decide (pid = proposalId)) as [->|Hne].
    + rewrite getProposal_written.
      destruct support; simpl; repeat case_decide;
        first [ by (split; lia) | exfalso; intuition congruence ].
    + rewrite getProposal_other by done. fold (mget zeroProposal (proposals s) pid).
      fold (getProposal s pid).
      repeat case_decide;
        first [ by (split; lia) | exfalso; intuition congruence ].
  - (* executeProposal *)
    destruct (executeProposal_returns _ _ _ _ _ _ H) as [_ ->].
    by apply (tallies_match_flag s _ _ _ _ _ _ _ proposalId (set_executed true)).
  - (* cancelProposal *)
    destruct (cancelProposal_returns _ _ _ _ H) as [_ ->].
    by apply (tallies_match_flag s _ _ _ _ _ _ _ proposalId (set_canceled true)).
  - destruct (setQuorumNumerator_returns _ _ _ _ H) as [_ ->].
    by apply tallies_match_quiet.
  - destruct (setVotingPeriodBlocks_returns _ _ _ _ H) as [_ ->].
    by apply tallies_match_quiet.
  - destruct (transferOwnership_returns _ _ _ _ H) as [_ ->].
    by apply tallies_match_quiet.
  - destruct (renounceOwnership_returns _ _ _ H) as [_ ->].
    by apply tallies_match_quiet.
Qed.

(** *** Receipts *)

Lemma hasVotedAt_marked o g q v n m e s proposalId sender pid voter :
  hasVotedAt
    (mkState o g q v n m
       (<[proposalId := <[sender := true]> (mget ∅ (hasVoted s) proposalId)]>
          (hasVoted s)) e) pid voter
  = if decide (pid = proposalId ∧ voter = sender) then true else hasVotedAt s pid voter.
Proof.
  unfold hasVotedAt, mget. simpl.
  destruct (decide (pid = proposalId)) as [->|Hp].
  - rewrite lookup_insert_eq. simpl.
    destruct (decide (voter = sender)) as [->|Hv].
    + rewrite lookup_insert_eq. simpl. by rewrite decide_True.
    + rewrite lookup_insert_ne by done. rewrite decide_False; [done | tauto].
  - rewrite lookup_insert_ne by done. rewrite decide_False; [done | tauto].
Qed.

Lemma receipts_match_quiet s o g q v n m e :
  (∀ pid, cast_by pid e = None) →
  receipts_match s →
  receipts_match (mkState o g q v n m (hasVoted s) (emitted s ++ [e])).
Proof.
  intros He Hs pid. destruct (Hs pid) as [Hnd Hin].
  simpl. rewrite voters_snoc, He, app_nil_r. split; [done|].
  intros voter. rewrite Hin. done.
Qed.

Lemma dao_call_receipts tk now sender c s s' :
  receipts_match s →
  Chain.dao_call tk now sender c s = Ok (tt, s') → receipts_match s'.
Proof.
  intros Hs H. destruct c; simpl in H.
  - unfold bind, ret in H. rewrite createProposal_unfold in H.
    repeat case_decide; try discriminate. injection H as <-.
    by apply receipts_match_quiet.
  - (* vote *)
    destruct (vote_returns _ _ _ _ _ _ _ H) as (weight & (_&_&_&Hv&_) & ->).
    intros pid. destruct (Hs pid) as [Hnd Hin].
    simpl. rewrite voters_snoc. simpl.
    destruct (decide (proposalId = pid)) as [->|Hne].
    + assert (Hfresh : sender ∉ voters pid (emitted s)).
      { intros Hs'. apply Hin in Hs'. congruence. }
      split.
      * apply NoDup_app. split; [done|]. split; [|apply NoDup_singleton].
        intros x Hx Hx'. apply list_elem_of_singleton in Hx'. by subst.
      * intros voter. rewrite hasVotedAt_marked, elem_of_app, list_elem_of_singleton, Hin.
        destruct (decide (voter = sender)) as [->|Hv'].
        -- rewrite decide_True by done. tauto.
        -- rewrite decide_False by tauto. tauto.
    + rewrite app_nil_r. split; [done|].
      intros voter. rewrite hasVotedAt_marked.
      rewrite decide_False; [apply Hin | intros [? _]; congruence].
  - destruct (executeProposal_returns _ _ _ _ _ _ H) as [_ ->].
    by apply receipts_match_quiet.
  - destruct (cancelProposal_returns _ _ _ _ H) as [_ ->].
    by apply receipts_match_quiet.
  - destruct (setQuorumNumerator_returns _ _ _ _ H) as [_ ->].
    by apply receipts_match_quiet.
  - destruct (setVotingPeriodBlocks_returns _ _ _ _ H) as [_ ->].
    by apply receipts_match_quiet.
  - destruct (transferOwnership_returns _ _ _ _ H) as [_ ->].
    by apply receipts_match_quiet.
  - destruct (renounceOwnership_returns _ _ _ H) as [_ ->].
    by apply receipts_match_quiet.
Qed.

(** *** Executed proposals *)

(** What [Succeeded] certifies. *)
Lemma state_succeeded tk now s proposalId :
  state tk now s proposalId = Ok Succeeded →
  let p := getProposal s proposalId in
  id p ≠ 0 ∧ canceled p = false ∧ executed p = false ∧ endBlock p < now
  ∧ ∃ supply, TestToken.getPastTotalSupply now tk (snapshotBlock p) = Ok supply
              ∧ supply * quorumNumerator s / QUORUM_DENOMINATOR <= forVotes p
              ∧ againstVotes p < forVotes p.
Proof.
  intros H p. unfold state in H. fold p in H.
  case_decide; [discriminate|].
  destruct (canceled p); [discriminate|].
  destruct (executed p); [discriminate|].
  case_decide; [discriminate|].
  destruct (TestToken.getPastTotalSupply now tk (snapshotBlock p)) as [supply|e];
    [|discriminate].
  unfold checked_mul in H. case_decide; [|discriminate].
  case_decide as Hq; [|discriminate].
  split; [done|]. split; [done|]. split; [done|]. split; [lia|].
  exists supply. split; [done|]. exact Hq.
Qed.

Lemma executed_won_quiet s o g q v n h e :
  executed_won s → executed_won (mkState o g q v n (proposals s) h e).
Proof. intros Hs pid. apply Hs. Qed.

Lemma dao_call_won tk now sender c s s' :
  dao_inv now s → executed_won s →
  Chain.dao_call tk now sender c s = Ok (tt, s') → executed_won s'.
Proof.
  intros Hinv Hs H. destruct c; simpl in H.
  - unfold bind, ret in H. rewrite createProposal_unfold in H.
    repeat case_decide; try discriminate. injection H as <-.
    intros pid. destruct (decide (pid = _nextProposalId s)) as [->|Hne].
    + rewrite getProposal_written. simpl. discriminate.
    + rewrite getProposal_other by done. apply Hs.
  - (* vote *)
    destruct (vote_returns _ _ _ _ _ _ _ H) as (weight & (Hid&_&[_ Hend]&_) & ->).
    intros pid. destruct (decide (pid = proposalId)) as [->|Hne].
    + rewrite getProposal_written. intros Hex. exfalso.
      destruct Hinv as (Hp & _).
      destruct (Hp _ _ (getProposal_stored _ _ Hid)) as [(_&_&_&_&_&Hclosed&_) _].
      assert (executed (getProposal s proposalId) = true) as Hx
        by (destruct support; exact Hex).
      specialize (Hclosed Hx). lia.
    + rewrite getProposal_other by done. apply Hs.
  - (* executeProposal *)
    destruct (executeProposal_returns _ _ _ _ _ _ H) as [(_&_&_&_&Hst) ->].
    intros pid. destruct (decide (pid = proposalId)) as [->|Hne].
    + rewrite getProposal_written. simpl. intros _.
      destruct (state_succeeded _ _ _ _ Hst) as (_&_&_&_&supply&_&_&Hwon). exact Hwon.
    + rewrite getProposal_other by done. apply Hs.
  - (* cancelProposal *)
    destruct (cancelProposal_returns _ _ _ _ H) as [_ ->].
    intros pid. destruct (decide (pid = proposalId)) as [->|Hne].
    + rewrite getProposal_written. simpl. apply Hs.
    + rewrite getProposal_other by done. apply Hs.
  - destruct (setQuorumNumerator_returns _ _ _ _ H) as [_ ->].
    by apply executed_won_quiet.
  - destruct (setVotingPeriodBlocks_returns _ _ _ _ H) as [_ ->].
    by apply executed_won_quiet.
  - destruct (transferOwnership_returns _ _ _ _ H) as [_ ->].
    by apply executed_won_quiet.
  - destruct (renounceOwnership_returns _ _ _ H) as [_ ->].
    by apply executed_won_quiet.
Qed.

(** *** Along executions *)

Lemma step_accounting w a :
  inv w →
  tallies_match (Chain.dao w) ∧ receipts_match (Chain.dao w)
  ∧ executed_won (Chain.dao w) →
  tallies_match (Chain.dao (Chain.step w a))
  ∧ receipts_match (Chain.dao (Chain.step w a))
  ∧ executed_won (Chain.dao (Chain.step w a)).
Proof.
  intros [_ Hdao] (Ht & Hr & Hw). destruct a as [blocks|sender c|sender c]; simpl;
    [done | done |].
  unfold Chain.commit.
  destruct (Chain.dao_call (Chain.token w) (Chain.number w) sender c (Chain.dao w))
    as [[[] s']|e] eqn:E; [|done].
  split; [by eapply dao_call_tallies|].
  split; [by eapply dao_call_receipts | by eapply dao_call_won].
Qed.

Lemma run_accounting trace w :
  inv w →
  tallies_match (Chain.dao w) ∧ receipts_match (Chain.dao w)
  ∧ executed_won (Chain.dao w) →
  tallies_match (Chain.dao (Chain.run trace w))
  ∧ receipts_match (Chain.dao (Chain.run trace w))
  ∧ executed_won (Chain.dao (Chain.run trace w)).
Proof.
  revert w. induction trace as [|a trace IH]; intros w Hinv Hw; [done|].
  rewrite run_cons. apply IH.
  - by destruct (step_inv w a Hinv).
  - by apply step_accounting.
Qed.

Lemma reachable_accounting w :
  Chain.reachable w →
  tallies_match (Chain.dao w) ∧ receipts_match (Chain.dao w)
  ∧ executed_won (Chain.dao w).
Proof.
  intros (now & deployer & name_ & symbol_ & supply & tokenAddress & quorum & period
          & w0 & trace & Hdeploy & ->).
  assert (Hinv0 : inv w0).
  { apply reachable_inv. exists now, deployer, name_, symbol_, supply, tokenAddress,
      quorum, period, w0, []. done. }
  apply run_accounting; [done|].
  unfold Chain.deploy in Hdeploy.
  destruct (TestToken.constructor now deployer name_ symbol_ supply) as [tk|e];
    [|discriminate].
  unfold constructor in Hdeploy.
  repeat case_decide; try discriminate. injection Hdeploy as <-. simpl.
  split; [|split].
  - intros pid. by vm_compute.
  - intros pid. split; [constructor|]. intros voter. simpl.
    unfold hasVotedAt, mget. simpl. rewrite lookup_empty. simpl. rewrite lookup_empty.
    simpl. split; [intros Hx; by apply elem_of_nil in Hx | discriminate].
  - intros pid. unfold getProposal, mget. simpl. rewrite lookup_empty. discriminate.
Qed.

End Ledger.

Module Progress.
Import DAOVoting Accounting Effects Ledger.

(** ** Receipts are never cleared *)

Lemma dao_call_receipt_kept tk now sender c s s' pid voter :
  Chain.dao_call tk now sender c s = Ok (tt, s') →
  hasVotedAt s pid voter = true → hasVotedAt s' pid voter = true.
Proof.
  intros H Hv. destruct c; simpl in H.
  - unfold bind, ret in H. rewrite createProposal_unfold in H.
    repeat case_decide; try discriminate. injection H as <-. exact Hv.
  - destruct (vote_returns _ _ _ _ _ _ _ H) as (weight & _ & ->).
    rewrite hasVotedAt_marked. by case_decide.
  - destruct (executeProposal_returns _ _ _ _ _ _ H) as [_ ->]. exact Hv.
  - destruct (cancelProposal_returns _ _ _ _ H) as [_ ->]. exact Hv.
  - destruct (setQuorumNumerator_returns _ _ _ _ H) as [_ ->]. exact Hv.
  - destruct (setVotingPeriodBlocks_returns _ _ _ _ H) as [_ ->]. exact Hv.
  - destruct (transferOwnership_returns _ _ _ _ H) as [_ ->]. exact Hv.
  - destruct (renounceOwnership_returns _ _ _ H) as [_ ->]. exact Hv.
Qed.

Lemma run_receipt_kept trace w pid voter :
  hasVotedAt (Chain.dao w) pid voter = true →
  hasVotedAt (Chain.dao (Chain.run trace w)) pid voter = true.
Proof.
  revert w. induction trace as [|a trace IH]; intros w Hv; [done|].
  rewrite run_cons. apply IH. destruct a as [blocks|sender c|sender c]; simpl; try done.
  unfold Chain.commit.
  destruct (Chain.dao_call (Chain.token w) (Chain.number w) sender c (Chain.dao w))
    as [[[] s']|e] eqn:E; [|done].
  by eapply dao_call_receipt_kept.
Qed.

(** ** Tallies are final once the window has closed *)

Lemma dao_call_closed tk now sender c s s' pid :
  dao_inv now s →
  Chain.dao_call tk now sender c s = Ok (tt, s') →
  id (getProposal s pid) ≠ 0 → endBlock (getProposal s pid) < now →
  forVotes (getProposal s' pid) = forVotes (getProposal s pid)
  ∧ againstVotes (getProposal s' pid) = againstVotes (getProposal s pid).
Proof.
  intros Hinv H Hid Hend. destruct c; simpl in H.
  - unfold bind, ret in H. rewrite createProposal_unfold in H.
    repeat case_decide; try discriminate. injection H as <-.
    destruct Hinv as (Hp & _).
    destruct (Hp _ _ (getProposal_stored _ _ Hid)) as [_ Hlt].
    rewrite getProposal_other by lia. done.
  - destruct (vote_returns _ _ _ _ _ _ _ H) as (weight & (_&_&[_ Hopen]&_) & ->).
    destruct (decide (pid = proposalId)) as [->|Hne]; [lia|].
    rewrite getProposal_other by done. done.
  - destruct (executeProposal_returns _ _ _ _ _ _ H) as [_ ->].
    destruct (decide (pid = proposalId)) as [->|Hne].
    + by rewrite getProposal_written.
    + rewrite getProposal_other by done. done.
  - destruct (cancelProposal_returns _ _ _ _ H) as [_ ->].
    destruct (decide (pid = proposalId)) as [->|Hne].
    + by rewrite getProposal_written.
    + rewrite getProposal_other by done. done.
  - by destruct (setQuorumNumerator_returns _ _ _ _ H) as [_ ->].
  - by destruct (setVotingPeriodBlocks_returns _ _ _ _ H) as [_ ->].
  - by destruct (transferOwnership_returns _ _ _ _ H) as [_ ->].
  - by destruct (renounceOwnership_returns _ _ _ H) as [_ ->].
Qed.

(** A stored proposal stays stored, with the same end block. *)
Lemma evolves_stored s s' pid :
  dao_evolves s s' → id (getProposal s pid) ≠ 0 →
  proposal_evolves (getProposal s pid) (getProposal s' pid).
Proof.
  intros Hev Hid.
  destruct (Hev _ _ (getProposal_stored _ _ Hid)) as (p' & Hp' & He).
  by rewrite (getProposal_lookup _ _ _ Hp').
Qed.

Lemma run_closed trace w pid :
  inv w →
  id (getProposal (Chain.dao w) pid) ≠ 0 →
  endBlock (getProposal (Chain.dao w) pid) < Chain.number w →
  forVotes (getProposal (Chain.dao (Chain.run trace w)) pid)
  = forVotes (getProposal (Chain.dao w) pid)
  ∧ againstVotes (getProposal (Chain.dao (Chain.run trace w)) pid)
    = againstVotes (getProposal (Chain.dao w) pid).
Proof.
  revert w. induction trace as [|a trace IH]; intros w Hinv Hid Hend; [done|].
  rewrite run_cons.
  destruct (step_inv w a Hinv) as (Hinv' & Hn & Hev).
  pose proof (evolves_stored _ _ pid Hev Hid) as (Eid&_&_&_&_&Eend&_).
  assert (Hstep : forVotes (getProposal (Chain.dao (Chain.step w a)) pid)
                  = forVotes (getProposal (Chain.dao w) pid)
                  ∧ againstVotes (getProposal (Chain.dao (Chain.step w a)) pid)
                    = againstVotes (getProposal (Chain.dao w) pid)).
  { destruct a as [blocks|sender c|sender c]; simpl; try done.
    unfold Chain.commit.
    destruct (Chain.dao_call (Chain.token w) (Chain.number w) sender c (Chain.dao w))
      as [[[] s']|e] eqn:E; [|done].
    destruct Hinv as [_ Hdao]. by eapply dao_call_closed. }
  destruct (IH (Chain.step w a) Hinv') as [Hf Ha]; [congruence | lia |].
  destruct Hstep as [Hf' Ha']. split; congruence.
Qed.

End Progress.

Import DAOVoting Accounting Effects Ledger Progress.

(** ** Construction and the owner's functions *)

(** X1. The constructor rejects a null token address, then a quorum
    numerator outside 1..100, then a zero voting period, in that order;
    otherwise it installs the caller as owner and the parameters as given,
    with identities starting at 1 and no proposal stored: every id reads as
    the zero proposal, has state [Unknown] and no receipts. *)
Theorem constructor_outcomes (sender token : address) (quorum period : N) :
  let r := constructor sender token quorum period in
  (token = address0 → r = Revert ZeroTokenAddress)
  ∧ (token ≠ address0 → quorum = 0 ∨ 100 < quorum → r = Revert InvalidQuorum)
  ∧ (token ≠ address0 → 1 <= quorum <= 100 → period = 0 → r = Revert ZeroVotingPeriod)
  ∧ (token ≠ address0 → 1 <= quorum <= 100 → 0 < period →
     ∃ s, r = Ok s
          ∧ _owner s = sender ∧ governanceToken s = token
          ∧ quorumNumerator s = quorum ∧ votingPeriodBlocks s = period
          ∧ _nextProposalId s = 1
          ∧ ∀ proposalId,
              getProposal s proposalId = zeroProposal
              ∧ (∀ voter, hasVotedAt s proposalId voter = false)
              ∧ ∀ tk now, state tk now s proposalId = Ok Unknown).
Proof.
  intros r. subst r. unfold constructor, QUORUM_DENOMINATOR.
  split; [|split; [|split]].
  - intros ->. by rewrite decide_True.
  - intros Ht Hq. rewrite decide_False by done. rewrite decide_False; [done | lia].
  - intros Ht Hq ->. rewrite decide_False by done. rewrite decide_True by lia.
    rewrite decide_False; [done | lia].
  - intros Ht Hq Hp. rewrite decide_False by done. rewrite decide_True by lia.
    rewrite decide_True by done. eexists. split; [reflexivity|]. simpl.
    do 5 (split; [done|]). intros proposalId.
    split; [by vm_compute|]. split; [intros voter; by vm_compute|].
    intros tk now. reflexivity.
Qed.

Lemma constructor_outcomes_witness :
  constructor Scenario.owner Scenario.tokenAddress 0 10 = Revert InvalidQuorum
  ∧ ∃ s, constructor Scenario.owner Scenario.tokenAddress 20 10 = Ok s
         ∧ _nextProposalId s = 1.
Proof.
  split.
  - apply (constructor_outcomes Scenario.owner Scenario.tokenAddress 0 10);
      [discriminate | by left].
  - destruct (constructor_outcomes Scenario.owner Scenario.tokenAddress 20 10)
      as (_ & _ & _ & H).
    destruct H as (s & Hs & _ & _ & _ & _ & Hn & _); [discriminate | lia | lia |].
    by exists s.
Defined.

(** X2. [cancelProposal] is the owner's alone: any other caller gets
    [Unauthorized] before anything is looked at.  For the owner it fails with
    [ProposalNotFound], [AlreadyCanceled] or [AlreadyExecuted], in that
    order, and otherwise returns at any block number (the voting window is
    not consulted), setting the canceled flag and nothing else; the state of
    the proposal is then [Canceled]. *)
Theorem cancelProposal_outcomes (sender : address) (proposalId : N) (s : State) :
  let p := getProposal s proposalId in
  let r := cancelProposal sender proposalId s in
  (_owner s ≠ sender → r = Revert Unauthorized)
  ∧ (_owner s = sender → id p = 0 → r = Revert ProposalNotFound)
  ∧ (_owner s = sender → id p ≠ 0 → canceled p = true → r = Revert AlreadyCanceled)
  ∧ (_owner s = sender → id p ≠ 0 → canceled p = false → executed p = true →
     r = Revert AlreadyExecuted)
  ∧ (_owner s = sender → id p ≠ 0 → canceled p = false → executed p = false →
     ∃ s', r = Ok (tt, s')
           ∧ getProposal s' proposalId = set_canceled true p
           ∧ (∀ k, k ≠ proposalId → getProposal s' k = getProposal s k)
           ∧ hasVoted s' = hasVoted s
           ∧ quorumNumerator s' = quorumNumerator s
           ∧ votingPeriodBlocks s' = votingPeriodBlocks s
           ∧ _nextProposalId s' = _nextProposalId s
           ∧ _owner s' = _owner s
           ∧ ∀ tk now, state tk now s' proposalId = Ok Canceled).
Proof.
  intros p r. subst r.
  assert (Hrun : cancelProposal sender proposalId s
            = if decide (_owner s = sender) then
                if decide (id p ≠ 0) then
                  if decide (canceled p = false) then
                    if decide (executed p = false) then
                      Ok (tt, mkState (_owner s) (governanceToken s) (quorumNumerator s)
                                (votingPeriodBlocks s) (_nextProposalId s)
                                (<[proposalId := set_canceled true p]> (proposals s))
                                (hasVoted s)
                                (emitted s ++ [Events.ProposalCanceled proposalId]))
                    else Revert AlreadyExecuted
                  else Revert AlreadyCanceled
                else Revert ProposalNotFound
              else Revert Unauthorized).
  { unfold cancelProposal, Ownable.onlyOwner, update_proposal, emit, bind, gets,
      require, modify, ret, revert.
    case_decide; simpl; [|done]. fold p.
    repeat (case_decide; simpl; try done). }
  rewrite Hrun. split; [|split; [|split; [|split]]].
  - intros Ho. by rewrite decide_False.
  - intros Ho Hid. rewrite decide_True by done. rewrite decide_False; [done | tauto].
  - intros Ho Hid Hc. rewrite !decide_True by done.
    rewrite decide_False; [done | congruence].
  - intros Ho Hid Hc He. rewrite !decide_True by done.
    rewrite decide_False; [done | congruence].
  - intros Ho Hid Hc He. rewrite !decide_True by done.
    eexists. split; [reflexivity|]. simpl.
    split; [by rewrite getProposal_written|].
    split; [intros k Hk; by rewrite getProposal_other|].
    do 5 (split; [done|]). intros tk now.
    apply state_flagged; rewrite getProposal_written; done.
Qed.

(** In the scenario the owner can cancel proposal 1 after its window has
    closed, although it has succeeded; alice cannot cancel it at all. *)
Lemma cancelProposal_outcomes_witness :
  (∃ s', cancelProposal Scenario.owner 1 (dao Scenario.closed) = Ok (tt, s'))
  ∧ cancelProposal Scenario.alice 1 (dao Scenario.closed) = Revert Unauthorized.
Proof.
  split.
  - destruct (cancelProposal_outcomes Scenario.owner 1 (dao Scenario.closed))
      as (_ & _ & _ & _ & H).
    destruct H as (s' & Hs' & _); [evaluate ..|]. by exists s'.
  - apply (cancelProposal_outcomes Scenario.alice 1 (dao Scenario.closed)). evaluate.
Defined.

(** X3. The two parameter setters are the owner's alone ([Unauthorized]
    for anyone else, checked first).  [setQuorumNumerator] accepts exactly
    the numerators 1..100 and fails with [InvalidQuorum] otherwise;
    [setVotingPeriodBlocks] accepts exactly the positive periods and fails
    with [ZeroVotingPeriod] on zero.  An accepted call installs the value
    and announces it in the log. *)
Theorem setters_outcomes (sender : address) (n : N) (s : State) :
  (_owner s ≠ sender →
   setQuorumNumerator sender n s = Revert Unauthorized
   ∧ setVotingPeriodBlocks sender n s = Revert Unauthorized)
  ∧ (_owner s = sender → n = 0 ∨ 100 < n →
     setQuorumNumerator sender n s = Revert InvalidQuorum)
  ∧ (_owner s = sender → 1 <= n <= 100 →
     ∃ s', setQuorumNumerator sender n s = Ok (tt, s')
           ∧ quorumNumerator s' = n
           ∧ emitted s' = emitted s ++ [Events.QuorumChanged n])
  ∧ (_owner s = sender → n = 0 →
     setVotingPeriodBlocks sender n s = Revert ZeroVotingPeriod)
  ∧ (_owner s = sender → 0 < n →
     ∃ s', setVotingPeriodBlocks sender n s = Ok (tt, s')
           ∧ votingPeriodBlocks s' = n
           ∧ emitted s' = emitted s ++ [Events.VotingPeriodChanged n]).
Proof.
  unfold setQuorumNumerator, setVotingPeriodBlocks, Ownable.onlyOwner, emit, bind,
    gets, require, modify, ret, revert, QUORUM_DENOMINATOR.
  split; [|split; [|split; [|split]]].
  - intros Ho. rewrite !decide_False by done. done.
  - intros Ho Hn. repeat (case_decide; simpl; try done; try lia).
  - intros Ho Hn. repeat (case_decide; simpl; try done; try lia).
    eexists. split; [reflexivity|]. done.
  - intros Ho Hn. repeat (case_decide; simpl; try done; try lia).
  - intros Ho Hn. repeat (case_decide; simpl; try done; try lia).
    eexists. split; [reflexivity|]. done.
Qed.

Lemma setters_outcomes_witness :
  setQuorumNumerator Scenario.owner 101 (dao Scenario.fixture) = Revert InvalidQuorum
  ∧ setVotingPeriodBlocks Scenario.bob 50 (dao Scenario.fixture) = Revert Unauthorized.
Proof.
  split.
  - apply (setters_outcomes Scenario.owner 101 (dao Scenario.fixture));
      [evaluate | right; lia].
  - apply (setters_outcomes Scenario.bob 50 (dao Scenario.fixture)). evaluate.
Defined.

(** ** Invariants of the running system *)

Lemma reachable_run trace w : reachable w → reachable (run trace w).
Proof.
  intros (now & deployer & name_ & symbol_ & supply & tokenAddress & quorum & period
          & w0 & trace0 & Hdeploy & ->).
  exists now, deployer, name_, symbol_, supply, tokenAddress, quorum, period, w0,
    (trace0 ++ trace).
  split; [done|]. unfold run. by rewrite foldl_app.
Qed.

(** X4. In every world reachable from a deployment the quorum numerator
    lies in 1..100, the voting period is positive and the next identity is
    at least 1: the checks of the constructor and of the two setters are
    never bypassed. *)
Theorem parameters_in_range (w : World) :
  reachable w →
  1 <= quorumNumerator (dao w) <= 100
  ∧ 0 < votingPeriodBlocks (dao w)
  ∧ 1 <= _nextProposalId (dao w).
Proof.
  intros Hr. destruct (reachable_inv w Hr) as [_ (_ & Hn & Hq & Hv)]. done.
Qed.

Lemma parameters_in_range_witness :
  1 <= quorumNumerator
         (dao (run [ DaoTx Scenario.owner (SetQuorumNumerator 0);
                     DaoTx Scenario.owner (SetQuorumNumerator 300);
                     DaoTx Scenario.owner (SetQuorumNumerator 35) ] Scenario.closed))
    <= 100.
Proof.
  destruct (parameters_in_range _
              (reachable_run
                 [ DaoTx Scenario.owner (SetQuorumNumerator 0);
                   DaoTx Scenario.owner (SetQuorumNumerator 300);
                   DaoTx Scenario.owner (SetQuorumNumerator 35) ] _
                 (scenario_reachable Scenario.closed_trace))) as (H & _).
  exact H.
Defined.

Lemma stored_wf now s proposalId :
  dao_inv now s →
  id (getProposal s proposalId) ≠ 0 →
  proposal_wf now proposalId (getProposal s proposalId)
  ∧ proposalId < _nextProposalId s.
Proof. intros (Hp & _) Hid. apply Hp. by apply getProposal_stored. Qed.

Lemma absent_zero now s proposalId :
  dao_inv now s →
  id (getProposal s proposalId) = 0 → getProposal s proposalId = zeroProposal.
Proof.
  intros (Hp & _). unfold getProposal, mget. intros Hz.
  destruct (proposals s !! proposalId) as [q|] eqn:E; [|done].
  destruct (Hp _ _ E) as [(Hq & Hk & _) _]. simpl in Hz. congruence.
Qed.

(** X5. In every world reachable from a deployment, at a block number
    within the 48 bits of the token's clock, [state] returns for every id.
    Neither of the two ways it could revert can happen: the snapshot block of
    a stored proposal lies strictly behind a closed window, so the
    historical supply query is accepted, and the product of the snapshot
    supply and the numerator fits in 256 bits. *)
Theorem state_never_reverts (w : World) (proposalId : N) :
  reachable w →
  number w < 2 ^ 48 →
  ∃ st, state (token w) (number w) (dao w) proposalId = Ok st.
Proof.
  intros Hr _. pose proof (reachable_inv w Hr) as Hinv.
  pose proof (state_cases w proposalId Hinv) as Hst. cbv zeta in Hst.
  destruct Hst as (Hunk & Hcan & Hexe & Hact & Hclosed).
  set (p := getProposal (dao w) proposalId) in *.
  destruct (decide (id p = 0)) as [Hz|Hid]; [eauto|].
  destruct (canceled p) eqn:Hc; [eauto|].
  destruct (executed p) eqn:He; [eauto|].
  destruct (decide (number w <= endBlock p)) as [Hle|Hgt]; [eauto|].
  destruct (Hclosed Hid eq_refl eq_refl) as (_ & [H|H] & _); [lia | eauto | eauto].
Qed.

(** In the scenario, once the window of proposal 1 has closed and it is
    neither canceled nor executed, [state] queries the supply at the
    snapshot block, multiplies by the numerator, and returns. *)
Lemma state_never_reverts_witness :
  canceled (getProposal (dao Scenario.closed) 1) = false
  ∧ executed (getProposal (dao Scenario.closed) 1) = false
  ∧ endBlock (getProposal (dao Scenario.closed) 1) < number Scenario.closed
  ∧ ∃ st, state (token Scenario.closed) (number Scenario.closed)
            (dao Scenario.closed) 1 = Ok st.
Proof.
  split; [evaluate|]. split; [evaluate|]. split; [evaluate|].
  apply (state_never_reverts Scenario.closed 1
           (scenario_reachable Scenario.closed_trace)).
  evaluate.
Defined.

(** X6. What the contract's functions leave in storage.  In every world
    reachable from a deployment a slot either reads as the zero proposal or
    holds a proposal carrying its own id; a stored proposal has an id from 1
    up to but excluding [_nextProposalId], its snapshot block is its start
    block, which is at most its end block and at most the current block, it
    is never both canceled and executed, and it is executed only after its
    window has closed.  Id 0 and the ids not yet handed out are empty. *)
Theorem stored_proposals_wf (w : World) (proposalId : N) :
  reachable w →
  let p := getProposal (dao w) proposalId in
  (id p = 0 → p = zeroProposal)
  ∧ (id p ≠ 0 →
     id p = proposalId
     ∧ 1 <= proposalId < _nextProposalId (dao w)
     ∧ snapshotBlock p = startBlock p
     ∧ startBlock p <= endBlock p
     ∧ startBlock p <= number w
     ∧ ¬ (canceled p = true ∧ executed p = true)
     ∧ (executed p = true → endBlock p < number w))
  ∧ (proposalId = 0 ∨ _nextProposalId (dao w) <= proposalId → p = zeroProposal).
Proof.
  intros Hr p. destruct (reachable_inv w Hr) as [_ Hdao].
  pose proof (absent_zero _ _ proposalId Hdao) as Hzero.
  pose proof (stored_wf _ _ proposalId Hdao) as Hwf.
  fold p in Hzero, Hwf.
  split; [done|]. split.
  - intros Hid. destruct (Hwf Hid) as [(?&?&?&?&?&Hx&Hc) ?].
    repeat split; auto; try lia.
    intros [Hc' Hx']. specialize (Hc Hc'). congruence.
  - intros Hout. apply Hzero.
    destruct (decide (id p = 0)) as [|Hid]; [done|].
    destruct (Hwf Hid) as [(?&?&_) ?]. lia.
Qed.

(** In the scenario proposal 1, created in block 11, voted on and executed
    in block 24, is stored with snapshot and start 11 and end 21, executed
    after its end; slot 2 is empty. *)
Lemma stored_proposals_wf_witness :
  (id (getProposal (dao Scenario.executed) 1) = 1
   ∧ snapshotBlock (getProposal (dao Scenario.executed) 1)
     = startBlock (getProposal (dao Scenario.executed) 1)
   ∧ endBlock (getProposal (dao Scenario.executed) 1) < number Scenario.executed)
  ∧ getProposal (dao Scenario.executed) 2 = zeroProposal.
Proof.
  split.
  - destruct (stored_proposals_wf Scenario.executed 1
                (scenario_reachable Scenario.executed_trace)) as (_ & Hstored & _).
    destruct Hstored as (Hid & _ & Hsnap & _ & _ & _ & Hx); [evaluate|].
    split; [exact Hid|]. split; [exact Hsnap|]. apply Hx. evaluate.
  - destruct (stored_proposals_wf Scenario.executed 2
                (scenario_reachable Scenario.executed_trace)) as (_ & _ & Hout).
    apply Hout. right. evaluate.
Defined.

(** X7. Along any execution from a well-formed world a stored proposal is
    never deleted, its id, proposer, description, snapshot, start and end
    blocks never change, its tallies never decrease and its flags are never
    cleared. *)
Theorem proposals_evolve (w : World) (trace : list Action) (proposalId : N) :
  inv w →
  let p := getProposal (dao w) proposalId in
  let p' := getProposal (dao (run trace w)) proposalId in
  id p ≠ 0 →
  id p' = id p ∧ proposer p' = proposer p ∧ description p' = description p
  ∧ snapshotBlock p' = snapshotBlock p ∧ startBlock p' = startBlock p
  ∧ endBlock p' = endBlock p
  ∧ forVotes p <= forVotes p' ∧ againstVotes p <= againstVotes p'
  ∧ (canceled p = true → canceled p' = true)
  ∧ (executed p = true → executed p' = true).
Proof.
  intros Hinv p p' Hid.
  destruct (run_inv trace w Hinv) as (_ & _ & Hev).
  exact (evolves_stored _ _ proposalId Hev Hid).
Qed.

Lemma proposals_evolve_witness :
  endBlock (getProposal (dao Scenario.executed) 1) = 21
  ∧ executed (getProposal (dao (run [ Mine 5; DaoTx Scenario.owner (CancelProposal 1) ]
                                    Scenario.executed)) 1) = true.
Proof.
  split; [evaluate|].
  apply (proposals_evolve Scenario.executed
           [ Mine 5; DaoTx Scenario.owner (CancelProposal 1) ] 1 (scenario_inv _));
    evaluate.
Defined.

(** ** Votes, tallies and the event log *)

Lemma vote_marks tk now sender proposalId support s s' :
  vote tk now sender proposalId support s = Ok (tt, s') →
  hasVotedAt s' proposalId sender = true.
Proof.
  intros H. destruct (vote_returns _ _ _ _ _ _ _ H) as (weight & _ & ->).
  rewrite hasVotedAt_marked. by rewrite decide_True.
Qed.

Lemma receipt_blocks tk now sender proposalId support s :
  hasVotedAt s proposalId sender = true →
  ∃ e, vote tk now sender proposalId support s = Revert e.
Proof.
  intros Hv.
  destruct (vote tk now sender proposalId support s) as [[[] s']|e] eqn:E; [|eauto].
  destruct (vote_returns _ _ _ _ _ _ _ E) as (weight & (_&_&_&Hf&_) & _). congruence.
Qed.

(** X8. One vote per address and proposal.  When [vote] returns, the
    caller's receipt is set; a receipt is never cleared by anything that
    happens afterwards, whatever the callers and the calls; and as long as it
    is set every further [vote] of that address on that proposal fails, for
    either choice of [support]. *)
Theorem no_double_vote (w : World) (voter : address) (proposalId : N)
    (support : bool) (s' : State) :
  vote (token w) (number w) voter proposalId support (dao w) = Ok (tt, s') →
  ∀ (trace : list Action) (again : bool),
    let w' := run trace (mkWorld (number w) (token w) s') in
    hasVotedAt (dao w') proposalId voter = true
    ∧ ∃ e, vote (token w') (number w') voter proposalId again (dao w') = Revert e.
Proof.
  intros H trace again w'.
  assert (Hv : hasVotedAt (dao w') proposalId voter = true).
  { apply run_receipt_kept. simpl. by eapply vote_marks. }
  split; [done|]. by apply receipt_blocks.
Qed.

Lemma no_double_vote_witness :
  let w := run [ Mine 1 ] Scenario.created in
  ∃ s',
    vote (token w) (number w) Scenario.charlie 1 true (dao w) = Ok (tt, s')
    ∧ let w' := run [ Mine 2; TokenTx Scenario.owner (Mint Scenario.charlie 5) ]
                  (mkWorld (number w) (token w) s') in
      ∃ e, vote (token w') (number w') Scenario.charlie 1 false (dao w') = Revert e.
Proof.
  intros w.
  destruct (vote (token w) (number w) Scenario.charlie 1 true (dao w))
    as [[[] s']|e] eqn:E.
  - exists s'. split; [reflexivity|].
    destruct (no_double_vote w Scenario.charlie 1 true s' E
                [ Mine 2; TokenTx Scenario.owner (Mint Scenario.charlie 5) ] false)
      as [_ H].
    exact H.
  - exfalso. revert E. vm_compute. discriminate.
Defined.

(** X9. Once the voting window of a stored proposal has closed, its two
    tallies are final: no sequence of blocks, token calls and governance calls
    changes them. *)
Theorem tallies_final (w : World) (trace : list Action) (proposalId : N) :
  inv w →
  let p := getProposal (dao w) proposalId in
  let p' := getProposal (dao (run trace w)) proposalId in
  id p ≠ 0 → endBlock p < number w →
  forVotes p' = forVotes p ∧ againstVotes p' = againstVotes p.
Proof. intros Hinv p p' Hid Hend. by apply run_closed. Qed.

Lemma tallies_final_witness :
  forVotes (getProposal
              (dao (run [ DaoTx Scenario.bob (Vote 1 true);
                          TokenTx Scenario.owner (Mint Scenario.bob 1000);
                          Mine 1; DaoTx Scenario.david (ExecuteProposal 1) ]
                      Scenario.closed)) 1)
  = forVotes (getProposal (dao Scenario.closed) 1).
Proof.
  destruct (tallies_final Scenario.closed
              [ DaoTx Scenario.bob (Vote 1 true);
                TokenTx Scenario.owner (Mint Scenario.bob 1000);
                Mine 1; DaoTx Scenario.david (ExecuteProposal 1) ] 1 (scenario_inv _))
    as [H _]; [evaluate | evaluate |].
  exact H.
Defined.

(** X10. In every reachable world the tallies are what the log says: the
    votes for (against) a proposal equal the sum of the weights of the
    [VoteCast] events for that proposal with support true (false); no address
    occurs twice among the voters of a proposal in the log; and an address
    has a receipt for a proposal exactly when the log has its [VoteCast]. *)
Theorem tallies_are_cast_totals (w : World) (proposalId : N) :
  reachable w →
  let p := getProposal (dao w) proposalId in
  let log := emitted (dao w) in
  forVotes p = cast_total proposalId true log
  ∧ againstVotes p = cast_total proposalId false log
  ∧ NoDup (voters proposalId log)
  ∧ ∀ voter, voter ∈ voters proposalId log ↔ hasVotedAt (dao w) proposalId voter = true.
Proof.
  intros Hr p log. destruct (reachable_accounting w Hr) as (Ht & Hrc & _).
  destruct (Ht proposalId) as [Hf Ha]. destruct (Hrc proposalId) as [Hn Hv]. done.
Qed.

Lemma tallies_are_cast_totals_witness :
  forVotes (getProposal (dao Scenario.voted) 1)
  = cast_total 1 true (emitted (dao Scenario.voted)).
Proof.
  destruct (tallies_are_cast_totals Scenario.voted 1
              (scenario_reachable Scenario.voted_trace)) as [H _].
  exact H.
Defined.

(** X11. In every reachable world an executed proposal had more votes for
    than against, is not canceled, has its window behind it, and its state is
    [Executed]. *)
Theorem executed_proposals_won (w : World) (proposalId : N) :
  reachable w →
  let p := getProposal (dao w) proposalId in
  executed p = true →
  againstVotes p < forVotes p
  ∧ id p = proposalId ∧ canceled p = false ∧ endBlock p < number w
  ∧ state (token w) (number w) (dao w) proposalId = Ok Executed.
Proof.
  intros Hr p He.
  destruct (reachable_accounting w Hr) as (_ & _ & Hwon).
  pose proof (reachable_inv w Hr) as Hinv.
  assert (Hs : proposals (dao w) !! proposalId = Some p).
  { unfold p, getProposal, mget in *.
    destruct (proposals (dao w) !! proposalId); [done|]. simpl in He. discriminate. }
  destruct Hinv as [_ (Hp & _)].
  destruct (Hp _ _ Hs) as [(Hk&Hk0&_&_&_&Hx&Hc) _].
  assert (Hid : id p ≠ 0) by congruence.
  assert (Hcan : canceled p = false).
  { destruct (canceled p) eqn:Ec; [|done]. specialize (Hc eq_refl). congruence. }
  split; [by apply Hwon|]. split; [done|]. split; [done|]. split; [by apply Hx|].
  unfold state. fold p. rewrite decide_False by done. by rewrite Hcan, He.
Qed.

Lemma executed_proposals_won_witness :
  againstVotes (getProposal (dao Scenario.executed) 1)
  < forVotes (getProposal (dao Scenario.executed) 1).
Proof.
  destruct (executed_proposals_won Scenario.executed 1
              (scenario_reachable Scenario.executed_trace)) as [H _]; [evaluate|].
  exact H.
Defined.

(** ** The order of the lifecycle *)

Lemma state_shape tk now s proposalId st :
  state tk now s proposalId = Ok st →
  let p := getProposal s proposalId in
  match st with
  | Unknown => id p = 0
  | Canceled => id p ≠ 0 ∧ canceled p = true
  | Executed => id p ≠ 0 ∧ canceled p = false ∧ executed p = true
  | Active =>
      id p ≠ 0 ∧ canceled p = false ∧ executed p = false ∧ now <= endBlock p
  | Succeeded | Defeated =>
      id p ≠ 0 ∧ canceled p = false ∧ executed p = false ∧ endBlock p < now
  end.
Proof.
  intros H p. unfold state in H. fold p in H.
  case_decide; [by injection H as <-|].
  destruct (canceled p) eqn:Ec; [by injection H as <-|].
  destruct (executed p) eqn:Ee; [by injection H as <-|].
  case_decide; [by injection H as <-|].
  destruct (TestToken.getPastTotalSupply now tk (snapshotBlock p)) as [supply|e];
    [|discriminate].
  destruct (checked_mul supply (quorumNumerator s)) as [product|e]; [|discriminate].
  cbv zeta in H. case_decide; injection H as <-; repeat split; auto; lia.
Qed.

(** X12. The lifecycle only moves forward.  Along any execution from a
    well-formed world, a proposal that exists keeps existing; one that has
    left [Active] never returns to it; [Canceled] stays [Canceled] and
    [Executed] stays [Executed]; and a proposal whose window has closed
    ([Succeeded] or [Defeated]) can only be [Succeeded], [Defeated],
    [Executed] or [Canceled] later. *)
Theorem state_moves_forward (w : World) (trace : list Action) (proposalId : N)
    (st st' : ProposalState) :
  inv w →
  let w' := run trace w in
  state (token w) (number w) (dao w) proposalId = Ok st →
  state (token w') (number w') (dao w') proposalId = Ok st' →
  (st ≠ Unknown → st' ≠ Unknown)
  ∧ (st ≠ Unknown → st ≠ Active → st' ≠ Active)
  ∧ (st = Canceled → st' = Canceled)
  ∧ (st = Executed → st' = Executed).
Proof.
  intros Hinv w' Hst Hst'.
  destruct (run_inv trace w Hinv) as (Hinv' & Hn & Hev). fold w' in Hinv', Hn, Hev.
  pose proof (state_shape _ _ _ _ _ Hst) as Hs.
  pose proof (state_shape _ _ _ _ _ Hst') as Hs'. cbv zeta in Hs, Hs'.
  set (p := getProposal (dao w) proposalId) in *.
  set (p' := getProposal (dao w') proposalId) in *.
  assert (Hstored : id p ≠ 0 →
            id p' ≠ 0 ∧ endBlock p' = endBlock p
            ∧ (canceled p = true → canceled p' = true)
            ∧ (executed p = true → executed p' = true)).
  { intros Hid.
    destruct (evolves_stored _ _ proposalId Hev Hid) as (E1&_&_&_&_&E2&_&_&E3&E4).
    fold p p' in E1, E2, E3, E4. repeat split; auto. congruence. }
  assert (Hex : st ≠ Unknown → id p ≠ 0).
  { destruct st; simpl in Hs; try done; intuition. }
  split; [|split; [|split]].
  - intros Hu. destruct (Hstored (Hex Hu)) as (Hid' & _). intros ->. done.
  - intros Hu Ha. destruct (Hstored (Hex Hu)) as (Hid' & Hend & Hc & He).
    intros ->. simpl in Hs'. destruct Hs' as (_ & Hc' & He' & Hle).
    rewrite Hend in Hle. destruct st; simpl in Hs; try done.
    + destruct Hs as (_&_&_&Hlt). lia.
    + destruct Hs as (_&_&_&Hlt). lia.
    + destruct Hs as (_&Hx). specialize (Hc Hx). congruence.
    + destruct Hs as (_&_&Hx). specialize (He Hx). congruence.
  - intros ->. simpl in Hs. destruct Hs as (Hid & Hx).
    destruct (Hstored Hid) as (Hid' & _ & Hc & _). specialize (Hc Hx).
    unfold state in Hst'. fold p' in Hst'. rewrite decide_False in Hst' by done.
    rewrite Hc in Hst'. by injection Hst' as <-.
  - intros ->. simpl in Hs. destruct Hs as (Hid & Hcan & Hx).
    destruct (Hstored Hid) as (Hid' & _ & _ & He). specialize (He Hx).
    destruct Hinv' as [_ (Hp & _)].
    destruct (Hp _ _ (getProposal_stored _ _ Hid')) as [(_&_&_&_&_&_&Hce) _].
    fold p' in Hce.
    unfold state in Hst'. fold p' in Hst'. rewrite decide_False in Hst' by done.
    destruct (canceled p') eqn:Ec; [specialize (Hce eq_refl); congruence|].
    rewrite He in Hst'. by injection Hst' as <-.
Qed.

Lemma state_moves_forward_witness :
  ∃ st',
    state (token (run [ DaoTx Scenario.owner (SetQuorumNumerator 100); Mine 4 ]
                    Scenario.closed))
      (number (run [ DaoTx Scenario.owner (SetQuorumNumerator 100); Mine 4 ]
                 Scenario.closed))
      (dao (run [ DaoTx Scenario.owner (SetQuorumNumerator 100); Mine 4 ]
              Scenario.closed)) 1 = Ok st'
    ∧ st' ≠ Active.
Proof.
  destruct (state (token (run [ DaoTx Scenario.owner (SetQuorumNumerator 100); Mine 4 ]
                            Scenario.closed))
              (number (run [ DaoTx Scenario.owner (SetQuorumNumerator 100); Mine 4 ]
                         Scenario.closed))
              (dao (run [ DaoTx Scenario.owner (SetQuorumNumerator 100); Mine 4 ]
                      Scenario.closed)) 1) as [st'|e] eqn:E.
  - exists st'. split; [reflexivity|].
    destruct (state_moves_forward Scenario.closed
                [ DaoTx Scenario.owner (SetQuorumNumerator 100); Mine 4 ] 1
                Succeeded st' (scenario_inv _)) as (_ & Hfwd & _);
      [evaluate | exact E |].
    apply Hfwd; discriminate.
  - exfalso. revert E. vm_compute. discriminate.
Defined.

(** ** What only the owner can do *)

(** X13. A governance call from anyone but the owner, whatever it is and
    whatever it returns, leaves the owner, the token address, the quorum
    numerator and the voting period as they are and cancels nothing: the
    canceled flag of every proposal is unchanged. *)
Theorem only_owner_governs (tk : TestToken.State) (now : N) (sender : address)
    (c : DaoCall) (s s' : State) (proposalId : N) :
  dao_inv now s →
  sender ≠ _owner s →
  dao_call tk now sender c s = Ok (tt, s') →
  _owner s' = _owner s
  ∧ governanceToken s' = governanceToken s
  ∧ quorumNumerator s' = quorumNumerator s
  ∧ votingPeriodBlocks s' = votingPeriodBlocks s
  ∧ canceled (getProposal s' proposalId) = canceled (getProposal s proposalId).
Proof.
  intros Hinv Hno H. destruct c; simpl in H.
  - unfold bind, ret in H. rewrite createProposal_unfold in H.
    repeat case_decide; try discriminate. injection H as <-. simpl.
    do 4 (split; [done|]).
    destruct (decide (proposalId = _nextProposalId s)) as [->|Hne].
    + rewrite getProposal_written. unfold getProposal, mget.
      by rewrite (dao_inv_fresh _ _ Hinv).
    + by rewrite getProposal_other.
  - destruct (vote_returns _ _ _ _ _ _ _ H) as (weight & _ & ->). simpl.
    do 4 (split; [done|]).
    destruct (decide (proposalId = proposalId0)) as [->|Hne].
    + rewrite getProposal_written. by destruct support.
    + by rewrite getProposal_other.
  - destruct (executeProposal_returns _ _ _ _ _ _ H) as [_ ->]. simpl.
    do 4 (split; [done|]).
    destruct (decide (proposalId = proposalId0)) as [->|Hne].
    + by rewrite getProposal_written.
    + by rewrite getProposal_other.
  - by destruct (cancelProposal_returns _ _ _ _ H) as [(? & _) _].
  - by destruct (setQuorumNumerator_returns _ _ _ _ H) as [(? & _) _].
  - by destruct (setVotingPeriodBlocks_returns _ _ _ _ H) as [(? & _) _].
  - by destruct (transferOwnership_returns _ _ _ _ H) as [(? & _) _].
  - by destruct (renounceOwnership_returns _ _ _ H) as [? _].
Qed.

Lemma only_owner_governs_witness :
  ∃ s',
    dao_call (token Scenario.voted) (number Scenario.voted) Scenario.charlie
      (Vote 1 false) (dao Scenario.voted) = Ok (tt, s')
    ∧ quorumNumerator s' = quorumNumerator (dao Scenario.voted)
    ∧ canceled (getProposal s' 1) = canceled (getProposal (dao Scenario.voted) 1).
Proof.
  destruct (dao_call (token Scenario.voted) (number Scenario.voted) Scenario.charlie
              (Vote 1 false) (dao Scenario.voted)) as [[[] s']|e] eqn:E.
  - exists s'. split; [reflexivity|].
    destruct (only_owner_governs (token Scenario.voted) (number Scenario.voted)
                Scenario.charlie (Vote 1 false) (dao Scenario.voted) s' 1)
      as (_ & _ & Hq & _ & Hc).
    + destruct (scenario_inv Scenario.voted_trace) as [_ Hdao]. exact Hdao.
    + evaluate.
    + exact E.
    + split; [exact Hq | exact Hc].
  - exfalso. revert E. vm_compute. discriminate.
Defined.

Lemma dao_call_token tk now sender c s s' :
  dao_call tk now sender c s = Ok (tt, s') → governanceToken s' = governanceToken s.
Proof.
  intros H. destruct c; simpl in H.
  - unfold bind, ret in H. rewrite createProposal_unfold in H.
    repeat case_decide; try discriminate. by injection H as <-.
  - by destruct (vote_returns _ _ _ _ _ _ _ H) as (weight & _ & ->).
  - by destruct (executeProposal_returns _ _ _ _ _ _ H) as [_ ->].
  - by destruct (cancelProposal_returns _ _ _ _ H) as [_ ->].
  - by destruct (setQuorumNumerator_returns _ _ _ _ H) as [_ ->].
  - by destruct (setVotingPeriodBlocks_returns _ _ _ _ H) as [_ ->].
  - by destruct (transferOwnership_returns _ _ _ _ H) as [_ ->].
  - by destruct (renounceOwnership_returns _ _ _ H) as [_ ->].
Qed.

(** X14. The token address given to the constructor is the one the
    contract reads its weights from for ever: no block, token call or
    governance call by any sender changes [governanceToken]. *)
Theorem governanceToken_immutable (w : World) (trace : list Action) :
  governanceToken (dao (run trace w)) = governanceToken (dao w).
Proof.
  revert w. induction trace as [|a trace IH]; intros w; [done|].
  rewrite run_cons, IH. destruct a as [blocks|sender c|sender c]; simpl; try done.
  unfold commit.
  destruct (dao_call (token w) (number w) sender c (dao w)) as [[[] s']|e] eqn:E;
    [|done].
  by eapply dao_call_token.
Qed.

(** ** The token's own functions *)

Module TokenFacts.
Import TestToken.

(** The writes of the voting bookkeeping touch the checkpoint series
    only. *)
Section VotesFrame.
Context {T : Type} (F : TestToken.State → T).
Hypothesis F_delegate : ∀ d c s, F (set_delegateCheckpoints d c s) = F s.
Hypothesis F_total : ∀ c s, F (set_totalCheckpoints c s) = F s.

Lemma frame_pushTotal now op delta s s' :
  pushTotal now op delta s = Ok (tt, s') → F s' = F s.
Proof.
  unfold pushTotal, bind, gets, static, modify.
  destruct (op _ delta); [|discriminate]. intros [= <-]. apply F_total.
Qed.

Lemma frame_pushDelegate now d op delta s s' :
  pushDelegate now d op delta s = Ok (tt, s') → F s' = F s.
Proof.
  unfold pushDelegate, bind, gets, static, modify.
  destruct (op _ delta); [|discriminate]. intros [= <-]. apply F_delegate.
Qed.

Lemma frame_moveDelegateVotes now from to amount s s' :
  _moveDelegateVotes now from to amount s = Ok (tt, s') → F s' = F s.
Proof.
  unfold _moveDelegateVotes. case_decide; [|by intros [= <-]].
  unfold bind.
  destruct (decide (from ≠ address0)).
  - destruct (pushDelegate now from sub208 amount s) as [[[] s1]|e] eqn:E1;
      [|discriminate].
    apply frame_pushDelegate in E1.
    destruct (decide (to ≠ address0)).
    + intros E2. apply frame_pushDelegate in E2. congruence.
    + intros [= <-]. done.
  - unfold ret at 1.
    destruct (decide (to ≠ address0)).
    + intros E2. by apply frame_pushDelegate in E2.
    + by intros [= <-].
Qed.

Lemma frame_transferVotingUnits now from to amount s s' :
  _transferVotingUnits now from to amount s = Ok (tt, s') → F s' = F s.
Proof.
  unfold _transferVotingUnits, bind.
  destruct ((if decide (from = address0) then pushTotal now add208 amount else ret tt) s)
    as [[[] s1]|e] eqn:E1; [|discriminate].
  assert (H1 : F s1 = F s).
  { destruct (decide (from = address0)).
    - by apply frame_pushTotal in E1.
    - by injection E1 as <-. }
  destruct ((if decide (to = address0) then pushTotal now sub208 amount else ret tt) s1)
    as [[[] s2]|e] eqn:E2; [|discriminate].
  assert (H2 : F s2 = F s1).
  { destruct (decide (to = address0)).
    - by apply frame_pushTotal in E2.
    - by injection E2 as <-. }
  unfold get. intros E3. apply frame_moveDelegateVotes in E3. congruence.
Qed.

End VotesFrame.

(** The part of the storage that is not a checkpoint series. *)
Lemma update_ledger now from to value s s' :
  _update now from to value s = Ok (tt, s') →
  ∃ s1, ledger_update from to value s = Ok (tt, s1)
        ∧ _owner s' = _owner s1 ∧ _totalSupply s' = _totalSupply s1
        ∧ _balances s' = _balances s1 ∧ _delegatee s' = _delegatee s1.
Proof.
  unfold _update, bind.
  destruct (ledger_update from to value s) as [[[] s1]|e]; [|discriminate].
  intros H. exists s1. split; [done|].
  split; [|split; [|split]].
  - by apply (frame_transferVotingUnits _owner) in H.
  - by apply (frame_transferVotingUnits _totalSupply) in H.
  - by apply (frame_transferVotingUnits _balances) in H.
  - by apply (frame_transferVotingUnits _delegatee) in H.
Qed.

Lemma balanceOf_set_eq a v s : balanceOf (set_balance a v s) a = v.
Proof. unfold balanceOf, mget. simpl. by rewrite lookup_insert_eq. Qed.

Lemma balanceOf_set_ne a b v s : b ≠ a → balanceOf (set_balance a v s) b = balanceOf s b.
Proof. intros H. unfold balanceOf, mget. simpl. by rewrite lookup_insert_ne. Qed.

Lemma mint_ledger to value s s1 :
  to ≠ address0 →
  ledger_update address0 to value s = Ok (tt, s1) →
  _totalSupply s + value <= MAX_UINT256
  ∧ s1 = set_balance to (balanceOf s to + value)
           (set_totalSupply (_totalSupply s + value) s).
Proof.
  intros Hto. unfold ledger_update, bind, get, static, modify, checked_add.
  rewrite decide_True by done. rewrite (decide_False (P := to = address0)) by done.
  case_decide; [|discriminate]. by intros [= <-].
Qed.


Lemma mint_internal now account value s s' :
  _mint now account value s = Ok (tt, s') →
  account ≠ address0
  ∧ _owner s' = _owner s
  ∧ _totalSupply s' = _totalSupply s + value
  ∧ balanceOf s' account = balanceOf s account + value
  ∧ (∀ a, a ≠ account → balanceOf s' a = balanceOf s a)
  ∧ (∀ a, delegates s' a = delegates s a).
Proof.
  unfold _mint, bind, require, ret, revert.
  case_decide; [|discriminate]. intros Hrun.
  destruct (update_ledger _ _ _ _ _ _ Hrun) as (s1 & H1 & Ho & Ht & Hb & Hd).
  destruct (mint_ledger _ _ _ _ ltac:(done) H1) as [_ ->].
  split; [done|]. split; [done|]. split; [done|].
  unfold balanceOf, delegates in *. rewrite Hb, Hd.
  split; [apply balanceOf_set_eq|]. split; [|done].
  intros a Ha. by apply balanceOf_set_ne.
Qed.


End TokenFacts.

Import TokenFacts.

(** X15. The token's constructor makes the deployer the owner and mints
    only when the initial supply is positive.  With a zero supply it leaves
    an empty ledger with no checkpoint written; with a positive supply
    within the 208 bits kept for weights, the deployer holds all of it, the
    total-supply series has the single pair (current block, supply), and
    nobody has a delegate or a vote: holding tokens gives no voting power
    before delegation. *)
Theorem token_deployment (now : N) (sender : address) (name_ symbol_ : string)
    (initialSupply : N) :
  let r := TestToken.constructor now sender name_ symbol_ initialSupply in
  (initialSupply = 0 → r = Ok (TestToken.mkState name_ symbol_ sender 0 ∅ ∅ ∅ []))
  ∧ (0 < initialSupply → sender = address0 → r = Revert InvalidRecipient)
  ∧ (0 < initialSupply <= MAX_UINT208 → sender ≠ address0 →
     ∃ tk, r = Ok tk
           ∧ TestToken._owner tk = sender
           ∧ TestToken._totalSupply tk = initialSupply
           ∧ TestToken.balanceOf tk sender = initialSupply
           ∧ (∀ a, a ≠ sender → TestToken.balanceOf tk a = 0)
           ∧ TestToken._totalCheckpoints tk = [mkCheckpoint now initialSupply]
           ∧ ∀ a, TestToken.delegates tk a = address0 ∧ TestToken.getVotes tk a = 0).
Proof.
  intros r. subst r. unfold TestToken.constructor. split; [|split].
  - intros ->. by rewrite decide_False by lia.
  - intros Hpos ->. rewrite decide_True by done.
    unfold TestToken._mint, bind, require, revert. by rewrite decide_False by tauto.
  - intros [Hpos Hfit] Hs. rewrite decide_True by done.
    unfold TestToken._mint, TestToken._update, TestToken.ledger_update,
      TestToken._transferVotingUnits, TestToken._moveDelegateVotes,
      TestToken.pushTotal, bind, require, get, gets, static, modify, ret, revert,
      checked_add, TestToken.add208.
    assert (Hfit' : 0 + initialSupply <= MAX_UINT256)
      by (unfold MAX_UINT208, MAX_UINT256 in *; lia).
    simpl.
    repeat (case_decide; try done; try lia; try tauto; simpl).
    eexists. split; [reflexivity|]. simpl.
    split; [done|]. split; [lia|].
    unfold TestToken.balanceOf, TestToken.delegates, TestToken.getVotes,
      TestToken.checkpointsOf, mget. simpl.
    split; [by rewrite lookup_insert_eq, lookup_empty|].
    split; [intros a Ha; by rewrite lookup_insert_ne, lookup_empty|].
    split; [done|]. intros a. by rewrite !lookup_empty.
Qed.

Lemma token_deployment_witness :
  ∃ tk, TestToken.constructor 1 Scenario.owner "DAO Token" "DAO" 1000000 = Ok tk
        ∧ TestToken.balanceOf tk Scenario.owner = 1000000
        ∧ TestToken.getVotes tk Scenario.owner = 0.
Proof.
  destruct (token_deployment 1 Scenario.owner "DAO Token" "DAO" 1000000)
    as (_ & _ & H).
  destruct H as (tk & Htk & _ & _ & Hb & _ & _ & Hv); [evaluate | discriminate |].
  exists tk. split; [exact Htk|]. split; [exact Hb | apply Hv].
Defined.

(** X16. [mint] and the two-argument [burn] are the owner's alone: from
    any other caller both fail with [Unauthorized], whatever the arguments
    and whatever the storage.  A mint that returns was called by the owner
    for a non-null account, and raises that account's balance and the total
    supply by the amount, touching no other balance, no delegation and not
    the owner. *)
Theorem mint_outcomes (now : N) (sender to : address) (amount : N)
    (tk : TestToken.State) :
  (sender ≠ TestToken._owner tk →
   TestToken.mint now sender to amount tk = Revert Unauthorized
   ∧ TestToken.burn now sender to amount tk = Revert Unauthorized)
  ∧ (sender = TestToken._owner tk → to = address0 →
     TestToken.mint now sender to amount tk = Revert InvalidRecipient)
  ∧ (∀ tk', TestToken.mint now sender to amount tk = Ok (tt, tk') →
       sender = TestToken._owner tk ∧ to ≠ address0
       ∧ TestToken._owner tk' = TestToken._owner tk
       ∧ TestToken._totalSupply tk' = TestToken._totalSupply tk + amount
       ∧ TestToken.balanceOf tk' to = TestToken.balanceOf tk to + amount
       ∧ (∀ a, a ≠ to → TestToken.balanceOf tk' a = TestToken.balanceOf tk a)
       ∧ (∀ a, TestToken.delegates tk' a = TestToken.delegates tk a)).
Proof.
  split; [|split].
  - intros Hno.
    unfold TestToken.mint, TestToken.burn, Ownable.onlyOwner, bind, gets, require, revert.
    rewrite decide_False by done. done.
  - intros -> ->.
    unfold TestToken.mint, TestToken._mint, Ownable.onlyOwner, bind, gets, require,
      ret, revert.
    rewrite decide_True by done. rewrite decide_False by tauto. done.
  - intros tk'.
    unfold TestToken.mint, Ownable.onlyOwner. unfold bind at 1 2. unfold gets, require.
    case_decide; [|discriminate]. unfold ret at 1. intros Hrun.
    destruct (mint_internal _ _ _ _ _ Hrun) as (? & ? & ? & ? & ? & ?). done.
Qed.

Lemma mint_outcomes_witness :
  TestToken.mint (number Scenario.fixture) Scenario.alice Scenario.alice 1000
    (token Scenario.fixture) = Revert Unauthorized.
Proof.
  destruct (mint_outcomes (number Scenario.fixture) Scenario.alice Scenario.alice 1000
              (token Scenario.fixture)) as ([H _] & _); [evaluate|].
  exact H.
Defined.


